(** * Markdown parser (MarkdownParser class): shallow embedding and properties

    The parser is a chain of [String.prototype.replace] calls driven by
    regular expressions.  The development has four parts:

    - [Js]: the parts of the ECMAScript runtime the parser relies on
      (strings as sequences of UTF-16 code units, the backtracking regular
      expression matcher, [replace], [split], [trim], ...);
    - [Parser]: the methods of [MarkdownParser], transcribed one by one, as
      functions of the document;
    - [Instance]: the parser as an object, with the [lastIndex] of the
      regular expressions of its rules as state;
    - the properties of the renderer: general facts about the matcher and
      the scan of [replace] first, then one section per subject. *)

From Stdlib Require Import String Ascii NArith Bool Lia Arith PeanoNat List.
From Stdlib Require DecimalString.
Import ListNotations.

Local Open Scope N_scope.
Local Open Scope list_scope.

(* ===================================================================== *)
(** ** Strings *)
(* ===================================================================== *)

(** A JavaScript string is a sequence of UTF-16 code units. *)
Abbreviation char := N (only parsing).
Abbreviation str := (list N) (only parsing).

(** ASCII literals. *)
Definition lit (s : string) : str :=
  map N_of_ascii (list_ascii_of_string s).

Definition dq : char := 34.   (* the double quote *)
Definition sq : char := 39.   (* the single quote *)
Definition nl : char := 10.   (* line feed, \n *)
Definition cr : char := 13.   (* carriage return, \r *)

(** [`${n}`]: the decimal digits of an array index. *)
Definition decimal (n : nat) : str :=
  lit (DecimalString.NilZero.string_of_uint (Nat.to_uint n)).

Module Js.

(** *** Character classes of ECMAScript *)

Definition isLineTerminator (c : char) : bool :=
  (c =? 10) || (c =? 13) || (c =? 8232) || (c =? 8233).

Definition isWhiteSpace (c : char) : bool :=
  (c =? 9) || (c =? 11) || (c =? 12) || (c =? 32) || (c =? 160)
  || (c =? 5760) || ((8192 <=? c) && (c <=? 8202))
  || (c =? 8239) || (c =? 8287) || (c =? 12288) || (c =? 65279).

(** [\s], also the set removed by [trim]. *)
Definition isSpace (c : char) : bool := isWhiteSpace c || isLineTerminator c.

(** [\d] *)
Definition isDigit (c : char) : bool := (48 <=? c) && (c <=? 57).

(** [\w] *)
Definition isWord (c : char) : bool :=
  ((97 <=? c) && (c <=? 122)) || ((65 <=? c) && (c <=? 90))
  || isDigit c || (c =? 95).

(** *** Regular expressions *)

Inductive citem : Type :=
| CChar (c : char)        (* a literal member *)
| CSpace                  (* \s *)
| CNotSpace               (* \S *)
| CWord                   (* \w *)
| CDigit.                 (* \d *)

Definition citem_mem (i : citem) (c : char) : bool :=
  match i with
  | CChar x => c =? x
  | CSpace => isSpace c
  | CNotSpace => negb (isSpace c)
  | CWord => isWord c
  | CDigit => isDigit c
  end.

Inductive regex : Type :=
| Str (w : str)                       (* a run of literal characters *)
| Dot                                 (* .  (no s flag) *)
| Cls (neg : bool) (items : list citem)  (* [...] and [^...] *)
| Seq (a b : regex)
| Alt (a b : regex)
| Star (greedy : bool) (r : regex)    (* r*  and r*? *)
| Plus (greedy : bool) (r : regex)    (* r+  and r+? *)
| Opt (r : regex)                     (* r?  *)
| Group (i : nat) (r : regex)         (* capturing group number i *)
| Bol                                 (* ^ *)
| Eol                                 (* $ *)
| NegLook (r : regex).                (* (?!r) *)

Definition Chr (c : char) : regex := Str [c].

Fixpoint cat (rs : list regex) : regex :=
  match rs with
  | [] => Str []
  | [r] => r
  | r :: rs' => Seq r (cat rs')
  end.

(** The capture groups that occur in a regular expression. *)
Fixpoint groups (r : regex) : list nat :=
  match r with
  | Str _ | Dot | Cls _ _ | Bol | Eol => []
  | Seq a b | Alt a b => groups a ++ groups b
  | Star _ r | Plus _ r | Opt r | NegLook r => groups r
  | Group i r => i :: groups r
  end.

(** *** Matcher states

    The subject string is kept as a zipper: [pre] holds the code units
    before the current position, nearest first, [suf] those from the
    current position on.  [caps] maps group numbers to captured text. *)

Record mstate : Type := MState {
  pre : str;
  suf : str;
  caps : list (nat * str)
}.

Definition subject (st : mstate) : str := rev (pre st) ++ suf st.

Fixpoint assoc (i : nat) (l : list (nat * str)) : option str :=
  match l with
  | [] => None
  | (j, v) :: l' => if Nat.eqb i j then Some v else assoc i l'
  end.

Definition cap (st : mstate) (i : nat) : option str := assoc i (caps st).

Definition clear_caps (gs : list nat) (st : mstate) : mstate :=
  MState (pre st) (suf st)
         (filter (fun kv => negb (existsb (Nat.eqb (fst kv)) gs)) (caps st)).

(** Move the position over [w], which the caller knows to be a prefix of
    [suf st]. *)
Fixpoint advance (w : str) (p s : str) : str * str :=
  match w, s with
  | _ :: w', c :: s' => advance w' (c :: p) s'
  | _, _ => (p, s)
  end.

Fixpoint prefixb (w s : str) : bool :=
  match w, s with
  | [], _ => true
  | x :: w', c :: s' => (x =? c) && prefixb w' s'
  | _ :: _, [] => false
  end.

Definition step_over (w : str) (st : mstate) : mstate :=
  let (p, s) := advance w (pre st) (suf st) in MState p s (caps st).

Definition class_mem (neg : bool) (items : list citem) (c : char) : bool :=
  xorb neg (existsb (fun i => citem_mem i c) items).

Definition eat (p : char -> bool) (st : mstate) : list mstate :=
  match suf st with
  | c :: s' => if p c then [MState (c :: pre st) s' (caps st)] else []
  | [] => []
  end.

(** [^] and [$]; [ml] is the m flag. *)
Definition at_bol (ml : bool) (st : mstate) : bool :=
  match pre st with
  | [] => true
  | c :: _ => ml && isLineTerminator c
  end.

Definition at_eol (ml : bool) (st : mstate) : bool :=
  match suf st with
  | [] => true
  | c :: _ => ml && isLineTerminator c
  end.

(** The text between two positions of the same subject. *)
Definition span (st st' : mstate) : str :=
  firstn (length (suf st) - length (suf st')) (suf st).

Definition progress (st st' : mstate) : bool :=
  (length (suf st') <? length (suf st))%nat.

(** *** The backtracking matcher

    [m ml r st] lists the states in which a match of [r] started at [st]
    can end, in the order in which the backtracking matcher of ECMAScript
    tries them; the engine's answer is the head of the list.

    Repetition ([RepeatMatcher]): the captures of the body are cleared
    at the start of each iteration, an iteration that consumes nothing is
    rejected once the minimum is reached, a greedy quantifier tries one
    more iteration before it tries to stop and a lazy one the other way
    round.  Every accepted iteration consumes a code unit, so
    [S (length (suf st))] rounds of [repeat_loop] are never used up. *)

Fixpoint repeat_loop (greedy : bool) (gs : list nat)
    (body : mstate -> list mstate) (fuel : nat) (st : mstate) : list mstate :=
  match fuel with
  | O => [st]
  | S fuel' =>
      let more :=
        flat_map (fun st' => if progress st st'
                             then repeat_loop greedy gs body fuel' st'
                             else [])
                 (body (clear_caps gs st)) in
      if greedy then more ++ [st] else st :: more
  end.

Fixpoint m (ml : bool) (r : regex) (st : mstate) : list mstate :=
  match r with
  | Str w => if prefixb w (suf st) then [step_over w st] else []
  | Dot => eat (fun c => negb (isLineTerminator c)) st
  | Cls neg items => eat (class_mem neg items) st
  | Seq a b => flat_map (m ml b) (m ml a st)
  | Alt a b => m ml a st ++ m ml b st
  | Star g r' =>
      repeat_loop g (groups r') (m ml r') (S (length (suf st))) st
  | Plus g r' =>
      flat_map (repeat_loop g (groups r') (m ml r') (S (length (suf st))))
               (m ml r' (clear_caps (groups r') st))
  | Opt r' =>
      filter (progress st) (m ml r' (clear_caps (groups r') st)) ++ [st]
  | Group i r' =>
      map (fun st' => MState (pre st') (suf st') ((i, span st st') :: caps st'))
          (m ml r' st)
  | Bol => if at_bol ml st then [st] else []
  | Eol => if at_eol ml st then [st] else []
  | NegLook r' =>
      match m ml r' st with
      | [] => [st]
      | _ :: _ => []
      end
  end.

(** A match attempt at one position, with no capture set. *)
Definition match_at (ml : bool) (r : regex) (p s : str) : option mstate :=
  hd_error (m ml r (MState p s [])).

(** *** Replacement values *)

Inductive tpiece : Type :=
| TLit (w : str)      (* literal text of a replacement template *)
| TGroup (i : nat).   (* $i *)

Definition expand (t : list tpiece) (st : mstate) : str :=
  flat_map (fun p => match p with
                     | TLit w => w
                     | TGroup i => match cap st i with
                                   | Some v => v
                                   | None => []
                                   end
                     end) t.

(** *** [String.prototype.replace] with a global regular expression

    The scan of [RegExp.prototype[Symbol.replace]]: the leftmost match
    from the current position is replaced, the scan goes on behind it (one
    code unit further when the match is empty), and what lies between
    matches is copied.  The callback [f] receives the matched text and the
    final matcher state (for the captures), and threads a value of type
    [A] through the calls, which stands for what a JavaScript closure
    mutates. *)

Section Replace.
Variable A : Type.
Variable ml : bool.
Variable r : regex.
Variable f : A -> str -> mstate -> str * A.

Fixpoint replace_loop (fuel : nat) (a : A) (p s : str) : str * A :=
  match fuel with
  | O => (s, a)
  | S fuel' =>
      let skip :=
        match s with
        | [] => ([], a)
        | c :: s' =>
            let (out, a') := replace_loop fuel' a (c :: p) s' in
            (c :: out, a')
        end in
      match match_at ml r p s with
      | None => skip
      | Some st' =>
          let matched := span (MState p s []) st' in
          let (new, a1) := f a matched st' in
          match matched, s with
          | [], [] => (new, a1)
          | [], c :: s' =>
              let (out, a2) := replace_loop fuel' a1 (c :: p) s' in
              (new ++ c :: out, a2)
          | _ :: _, _ =>
              let (out, a2) := replace_loop fuel' a1 (pre st') (suf st') in
              (new ++ out, a2)
          end
      end
  end.

Definition replace_from (a : A) (p s : str) : str * A :=
  replace_loop (S (length s)) a p s.

Definition replace_st (a : A) (s : str) : str * A := replace_from a [] s.
End Replace.

Arguments replace_loop {A} ml r f fuel a p s.
Arguments replace_from {A} ml r f a p s.
Arguments replace_st {A} ml r f a s.

(** A callback without side effects. *)
Definition replace_fn (ml : bool) (r : regex) (f : str -> mstate -> str)
    (s : str) : str :=
  fst (replace_st ml r (fun (_ : unit) w st => (f w st, tt)) tt s).

(** A replacement template. *)
Definition replace_tpl (ml : bool) (r : regex) (t : list tpiece) (s : str) : str :=
  replace_fn ml r (fun _ st => expand t st) s.

(** *** [String.prototype.match] with a regular expression without the g
    flag: the leftmost match, if there is one. *)
Fixpoint search (ml : bool) (r : regex) (p s : str) : option mstate :=
  match match_at ml r p s with
  | Some st' => Some st'
  | None => match s with
            | [] => None
            | c :: s' => search ml r (c :: p) s'
            end
  end.

Definition regex_match (ml : bool) (r : regex) (s : str) : option mstate :=
  search ml r [] s.

(** *** [String.prototype.replace] with a string pattern and a callback:
    the first occurrence only, the result of the callback taken as is. *)
Fixpoint replace_first (pat new s : str) : str :=
  if prefixb pat s then new ++ skipn (length pat) s
  else match s with
       | [] => []
       | c :: s' => c :: replace_first pat new s'
       end.

(** *** [trim], [startsWith], [endsWith], [slice(1, -1)] *)

Fixpoint trim_start (s : str) : str :=
  match s with
  | c :: s' => if isSpace c then trim_start s' else s
  | [] => []
  end.

Definition trim_end (s : str) : str := rev (trim_start (rev s)).

Definition trim (s : str) : str := trim_end (trim_start s).

Definition startsWith (s w : str) : bool := prefixb w s.
Definition endsWith (s w : str) : bool := prefixb (rev w) (rev s).

Definition slice_1_m1 (s : str) : str := removelast (tl s).

(** *** [split] *)

(** With a one-character string separator. *)
Fixpoint split_char (sep : char) (s : str) : list str :=
  match s with
  | [] => [[]]
  | c :: s' =>
      if c =? sep then [] :: split_char sep s'
      else match split_char sep s' with
           | piece :: pieces => (c :: piece) :: pieces
           | [] => [[c]]
           end
  end.

(** With a regular expression that has no capture group
    ([RegExp.prototype[Symbol.split]]): [p] is the code units before the
    position [q] of the scan, [piece] the part of the current piece seen so
    far, both nearest first.  No match is attempted at the end of the
    string, and a match that would end where the current piece begins is
    skipped.  A round either consumes a code unit or closes a nonempty
    piece, so twice the length of the string bounds the rounds. *)
Fixpoint split_loop (ml : bool) (r : regex) (fuel : nat)
    (piece : str) (p s : str) : list str :=
  match fuel with
  | O => [rev piece ++ s]
  | S fuel' =>
      match s with
      | [] => [rev piece]
      | c :: s' =>
          match match_at ml r p s with
          | Some st' =>
              match span (MState p s []) st', piece with
              | [], [] => split_loop ml r fuel' (c :: piece) (c :: p) s'
              | _, _ => rev piece :: split_loop ml r fuel' [] (pre st') (suf st')
              end
          | None => split_loop ml r fuel' (c :: piece) (c :: p) s'
          end
      end
  end.

Definition split_re (ml : bool) (r : regex) (s : str) : list str :=
  match s with
  | [] => match match_at ml r [] [] with Some _ => [] | None => [[]] end
  | _ => split_loop ml r (S (2 * length s)) [] [] s
  end.

(** [toLowerCase], on the ASCII letters. *)
Definition toLowerCase (s : str) : str :=
  map (fun c => if (65 <=? c) && (c <=? 90) then c + 32 else c) s.

Definition str_eqb (a b : str) : bool :=
  (Nat.eqb (length a) (length b)) && prefixb a b.

End Js.

(* ===================================================================== *)
(** ** The MarkdownParser class *)
(* ===================================================================== *)

Module Parser.
Import Js.

(** A rule of [initializeRules]: a pattern (always with the g flag; [flag_m]
    is the m flag) and a replacement, a template or a function of the
    match. *)
Inductive replacement : Type :=
| Template (t : list tpiece)
| Function (f : str -> mstate -> str).

Record rule : Type := Rule {
  pattern : regex;
  flag_m : bool;
  repl : replacement
}.

(** [html.replace(rule.pattern, rule.replacement)] *)
Definition apply_rule (rl : rule) (html : str) : str :=
  match repl rl with
  | Template t => replace_tpl (flag_m rl) (pattern rl) t html
  | Function f => replace_fn (flag_m rl) (pattern rl) f html
  end.

(** The value of capture group [i] as a callback receives it: [None] is
    [undefined]. *)
Definition arg (st : mstate) (i : nat) : str :=
  match cap st i with Some v => v | None => [] end.

(** Shorthands for the pieces of the patterns. *)
Definition c_ (s : string) : char := hd 0 (lit s).
Definition set_ (s : string) : list citem := map CChar (lit s).
Definition spaces1 : regex := Plus true (Cls false [CSpace]).   (* \s+ *)
Definition spaces0 : regex := Star true (Cls false [CSpace]).   (* \s* *)
Definition rest_of_line : regex := Group 1 (Plus true Dot).     (* (.+) *)
Definition lazy1 : regex := Group 1 (Plus false Dot).           (* (.+?) *)
Definition any_lazy : regex := Star false (Cls false [CSpace; CNotSpace]). (* [\s\S]*? *)
Definition not_ (s : string) : regex := Cls true (set_ s).      (* [^c] *)

(** *** escapeHtml *)

Definition escapeMap : list (char * str) :=
  [ (c_ "&", lit "&amp;");
    (c_ "<", lit "&lt;");
    (c_ ">", lit "&gt;");
    (dq, lit "&quot;");
    (sq, lit "&#39;") ].

Fixpoint lookup (c : char) (mp : list (char * str)) : str :=
  match mp with
  | [] => lit "undefined"
  | (k, v) :: mp' => if c =? k then v else lookup c mp'
  end.

(** The pattern of escapeHtml, with the g flag: the class of the five
    characters & < > and the two quotes. *)
Definition re_escape : regex :=
  Cls false [CChar (c_ "&"); CChar (c_ "<"); CChar (c_ ">"); CChar dq; CChar sq].

Definition escapeHtml (text : str) : str :=
  replace_fn false re_escape (fun chr _ => lookup (hd 0 chr) escapeMap) text.

(** *** initializeRules *)

(** /^#{n}\s+(.+)$/gm *)
Definition re_heading (n : nat) : regex :=
  cat [Bol; Str (repeat (c_ "#") n); spaces1; rest_of_line; Eol].

Definition heading (n : nat) : rule :=
  Rule (re_heading n) true
       (Template [TLit (lit "<h" ++ decimal n ++ lit ">"); TGroup 1;
                  TLit (lit "</h" ++ decimal n ++ lit ">")]).

(** /^---+$/gm, /^\*\*\*+$/gm, /^___+$/gm *)
Definition re_hr (c : char) : regex :=
  cat [Bol; Str [c; c]; Plus true (Chr c); Eol].

Definition hr (c : char) : rule :=
  Rule (re_hr c) true (Template [TLit (lit "<hr>")]).

(** /DELIM(.+?)DELIM/g *)
Definition re_span (delim : str) : regex := cat [Str delim; lazy1; Str delim].

Definition span_rule (delim : string) (open close : string) : rule :=
  Rule (re_span (lit delim)) false
       (Template [TLit (lit open); TGroup 1; TLit (lit close)]).

(** /```(\w+)?\n([\s\S]*?)```/g *)
Definition re_code_block : regex :=
  cat [Str (lit "```"); Opt (Group 1 (Plus true (Cls false [CWord])));
       Chr nl; Group 2 any_lazy; Str (lit "```")].

Definition pre_code (lang code : str) : str :=
  lit "<pre><code class=" ++ [dq] ++ lit "language-" ++ lang ++ [dq]
  ++ lit ">" ++ code ++ lit "</code></pre>".

Definition or_plaintext (lang : option str) : str :=
  match lang with
  | Some (c :: l) => c :: l
  | _ => lit "plaintext"
  end.

Definition code_block_rule : rule :=
  Rule re_code_block false
       (Function (fun _ st =>
          let language := or_plaintext (cap st 1) in
          let escapedCode := escapeHtml (trim (arg st 2)) in
          pre_code language escapedCode)).

(** /`([^`]+)`/g *)
Definition re_inline_code : regex :=
  cat [Chr (c_ "`"); Group 1 (Plus true (not_ "`")); Chr (c_ "`")].

Definition inline_code_rule : rule :=
  Rule re_inline_code false
       (Template [TLit (lit "<code>"); TGroup 1; TLit (lit "</code>")]).

(** /\[([^\]]+)\]\(([^)]+)\)/g *)
Definition re_link : regex :=
  cat [Chr (c_ "["); Group 1 (Plus true (not_ "]")); Str (lit "](");
       Group 2 (Plus true (not_ ")")); Chr (c_ ")")].

Definition link_rule : rule :=
  Rule re_link false
       (Template [TLit (lit "<a href=" ++ [dq]); TGroup 2;
                  TLit ([dq] ++ lit ">"); TGroup 1; TLit (lit "</a>")]).

(** The image pattern, with the g flag: an exclamation mark followed by the
    link pattern, the first group being [^\]] starred, so possibly empty. *)
Definition re_image : regex :=
  cat [Str (lit "!["); Group 1 (Star true (not_ "]")); Str (lit "](");
       Group 2 (Plus true (not_ ")")); Chr (c_ ")")].

Definition image_rule : rule :=
  Rule re_image false
       (Template [TLit (lit "<img src=" ++ [dq]); TGroup 2;
                  TLit ([dq] ++ lit " alt=" ++ [dq]); TGroup 1;
                  TLit ([dq] ++ lit ">")]).

(** /^>\s+(.+)$/gm *)
Definition re_blockquote : regex :=
  cat [Bol; Chr (c_ ">"); spaces1; rest_of_line; Eol].

Definition blockquote_rule : rule :=
  Rule re_blockquote true
       (Template [TLit (lit "<blockquote>"); TGroup 1; TLit (lit "</blockquote>")]).

(** /^[\*\-\+]\s+\[([ x])\]\s+(.+)$/gm *)
Definition bullet : regex := Cls false (set_ "*-+").

Definition re_task : regex :=
  cat [Bol; bullet; spaces1; Chr (c_ "["); Group 1 (Cls false (set_ " x"));
       Chr (c_ "]"); spaces1; Group 2 (Plus true Dot); Eol].

Definition checkbox (isChecked : bool) : str :=
  lit "<input type=" ++ [dq] ++ lit "checkbox" ++ [dq] ++ lit " "
  ++ (if isChecked then lit "checked" else []) ++ lit " disabled>".

Definition task_item (isChecked : bool) (item : str) : str :=
  lit "<ul class=" ++ [dq] ++ lit "task-list" ++ [dq] ++ lit "><li class="
  ++ [dq] ++ lit "task-item" ++ [dq] ++ lit ">" ++ checkbox isChecked
  ++ lit " " ++ item ++ lit "</li></ul>".

Definition task_rule : rule :=
  Rule re_task true
       (Function (fun _ st =>
          let isChecked := str_eqb (toLowerCase (arg st 1)) (lit "x") in
          task_item isChecked (arg st 2))).

(** /^[\*\-\+]\s+(.+)$/gm *)
Definition re_ul : regex := cat [Bol; bullet; spaces1; rest_of_line; Eol].

Definition ul_item (item : str) : str := lit "<ul><li>" ++ item ++ lit "</li></ul>".

Definition ul_rule : rule :=
  Rule re_ul true (Function (fun _ st => ul_item (arg st 1))).

(** /^\d+\.\s+(.+)$/gm *)
Definition re_ol : regex :=
  cat [Bol; Plus true (Cls false [CDigit]); Chr (c_ "."); spaces1;
       rest_of_line; Eol].

Definition ol_item (item : str) : str := lit "<ol><li>" ++ item ++ lit "</li></ol>".

Definition ol_rule : rule :=
  Rule re_ol true (Function (fun _ st => ol_item (arg st 1))).

(** /^(?!<[^>]+>)([^\n]+)$/gm *)
Definition re_paragraph : regex :=
  cat [Bol;
       NegLook (cat [Chr (c_ "<"); Plus true (not_ ">"); Chr (c_ ">")]);
       Group 1 (Plus true (Cls true [CChar nl])); Eol].

Definition paragraph_rule : rule :=
  Rule re_paragraph true
       (Function (fun _ st =>
          let text := arg st 1 in
          if startsWith (trim text) (lit "<") then text
          else lit "<p>" ++ text ++ lit "</p>")).

Definition initializeRules : list rule :=
  [ (* Headers (h1-h6) *)
    heading 6; heading 5; heading 4; heading 3; heading 2; heading 1;
    (* Horizontal rules *)
    hr (c_ "-"); hr (c_ "*"); hr (c_ "_");
    (* Bold and Italic *)
    span_rule "***" "<strong><em>" "</em></strong>";
    span_rule "___" "<strong><em>" "</em></strong>";
    span_rule "**" "<strong>" "</strong>";
    span_rule "__" "<strong>" "</strong>";
    span_rule "*" "<em>" "</em>";
    span_rule "_" "<em>" "</em>";
    (* Strikethrough *)
    span_rule "~~" "<del>" "</del>";
    (* Code blocks *)
    code_block_rule;
    (* Inline code *)
    inline_code_rule;
    (* Links *)
    link_rule;
    (* Images *)
    image_rule;
    (* Blockquotes *)
    blockquote_rule;
    (* Task lists (checkboxes) *)
    task_rule;
    (* Unordered lists *)
    ul_rule;
    (* Ordered lists *)
    ol_rule;
    (* Paragraphs *)
    paragraph_rule ].

(** *** parseInline *)

Definition inlineRules : list rule :=
  [ span_rule "***" "<strong><em>" "</em></strong>";
    span_rule "___" "<strong><em>" "</em></strong>";
    span_rule "**" "<strong>" "</strong>";
    span_rule "__" "<strong>" "</strong>";
    span_rule "*" "<em>" "</em>";
    span_rule "_" "<em>" "</em>";
    span_rule "~~" "<del>" "</del>";
    inline_code_rule;
    link_rule ].

Definition parseInline (text : str) : str :=
  match text with
  | [] => []
  | _ => fold_left (fun result rl => apply_rule rl result) inlineRules text
  end.

(** *** consolidateLists, consolidateBlockquotes *)

(** /(<\/TAG>\s*<TAG>)/g *)
Definition re_adjacent (tag : string) : regex :=
  Group 1 (cat [Str (lit "</" ++ lit tag ++ lit ">"); spaces0;
                Str (lit "<" ++ lit tag ++ lit ">")]).

Definition consolidateLists (html : str) : str :=
  let html := replace_tpl false (re_adjacent "ul") [] html in
  let html := replace_tpl false (re_adjacent "ol") [] html in
  html.

Definition consolidateBlockquotes (html : str) : str :=
  replace_tpl false (re_adjacent "blockquote") [TLit [nl]] html.

(** *** parseTables *)

(** The table pattern, flags g and m: (?:^|\n) followed by group 1, one or
    more times a row \|.*\| with an optional line break (?:\r?\n|\r)
    behind it. *)
Definition re_row : regex :=
  cat [Chr (c_ "|"); Star true Dot; Chr (c_ "|");
       Opt (Alt (Seq (Opt (Chr cr)) (Chr nl)) (Chr cr))].

Definition tablePattern : regex :=
  cat [Alt Bol (Chr nl); Group 1 (Plus true re_row)].

(** /\r?\n/ *)
Definition re_newline : regex := Seq (Opt (Chr cr)) (Chr nl).

(** The separator test, no flag:
    ^\|?\s*:?-+:?\s*  then the group \|\s*:?-+:?\s* starred, then \|?$ *)
Definition re_column : regex :=
  cat [spaces0; Opt (Chr (c_ ":")); Plus true (Chr (c_ "-"));
       Opt (Chr (c_ ":")); spaces0].

Definition re_separator : regex :=
  cat [Bol; Opt (Chr (c_ "|")); re_column;
       Star true (Group 1 (Seq (Chr (c_ "|")) re_column));
       Opt (Chr (c_ "|")); Eol].

Definition nonempty (s : str) : bool :=
  match s with [] => false | _ :: _ => true end.

(** [line.split('|').map(c => c.trim()).filter(c => c !== '')] *)
Definition cells (line : str) : list str :=
  filter nonempty (map trim (split_char (c_ "|") line)).

Definition alignment (sep : str) : str :=
  if startsWith sep (lit ":") && endsWith sep (lit ":") then lit "center"
  else if endsWith sep (lit ":") then lit "right"
  else lit "left".

(** [alignments[i] || 'left']: the entries are nonempty strings. *)
Definition align_at (alignments : list str) (i : nat) : str :=
  nth i alignments (lit "left").

Definition style_of (align : str) : str :=
  if negb (str_eqb align (lit "left"))
  then lit " style=" ++ [dq] ++ lit "text-align: " ++ align ++ [dq]
  else [].

(** One round of [headers.forEach((header, i) => ...)] and of
    [row.forEach((cell, i) => ...)]: [tag] is th or td. *)
Definition cell_html (tag : str) (alignments : list str) (i : nat) (cell : str) : str :=
  let align := align_at alignments i in
  let style := style_of align in
  lit "<" ++ tag ++ style ++ lit ">" ++ parseInline cell
  ++ lit "</" ++ tag ++ lit ">" ++ [nl].

(** [xs.forEach((x, i) => { tableHtml += body(i, x) })], from index [i]. *)
Fixpoint forEach_append (body : nat -> str -> str) (i : nat) (xs : list str)
    (tableHtml : str) : str :=
  match xs with
  | [] => tableHtml
  | x :: xs' => forEach_append body (S i) xs' (tableHtml ++ body i x)
  end.

Definition row_html (alignments : list str) (row : list str) (tableHtml : str) : str :=
  match row with
  | [] => tableHtml
  | _ :: _ =>
      let tableHtml := tableHtml ++ lit "<tr>" ++ [nl] in
      let tableHtml := forEach_append (cell_html (lit "td") alignments) 0 row tableHtml in
      tableHtml ++ lit "</tr>" ++ [nl]
  end.

Definition table_html (headers alignments : list str) (rows : list (list str)) : str :=
  let tableHtml :=
    lit "<table class=" ++ [dq] ++ lit "markdown-table" ++ [dq] ++ lit ">"
    ++ [nl] ++ lit "<thead>" ++ [nl] ++ lit "<tr>" ++ [nl] in
  let tableHtml := forEach_append (cell_html (lit "th") alignments) 0 headers tableHtml in
  let tableHtml := tableHtml ++ lit "</tr>" ++ [nl] ++ lit "</thead>" ++ [nl]
                   ++ lit "<tbody>" ++ [nl] in
  let tableHtml := fold_left (fun acc row => row_html alignments row acc) rows tableHtml in
  tableHtml ++ lit "</tbody>" ++ [nl] ++ lit "</table>".

(** The callback of [text.replace(tablePattern, ...)]. *)
Definition table_callback (match_ : str) (tableText : str) : str :=
  let lines := split_re false re_newline (trim tableText) in
  if (length lines <? 2)%nat then match_
  else
    let headerLine := nth 0 lines [] in
    let separatorLine := nth 1 lines [] in
    match regex_match false re_separator separatorLine with
    | None => match_
    | Some _ =>
        let headers := cells headerLine in
        let alignments := map alignment (cells separatorLine) in
        let rows := map cells (skipn 2 lines) in
        [nl] ++ table_html headers alignments rows ++ [nl]
    end.

Definition parseTables (text : str) : str :=
  replace_fn true tablePattern (fun match_ st => table_callback match_ (arg st 1)) text.

(** *** parse *)

(** /```[\s\S]*?```/g and /`[^`]+`/g *)
Definition re_fence : regex :=
  cat [Str (lit "```"); any_lazy; Str (lit "```")].

Definition re_tick : regex :=
  cat [Chr (c_ "`"); Plus true (not_ "`"); Chr (c_ "`")].

Definition placeholder (kind : string) (index : nat) : str :=
  lit "___" ++ lit kind ++ lit "_" ++ decimal index ++ lit "___".

(** [html.replace(re, (match) => { arr.push(match); return placeholder })]:
    the array is threaded through the calls. *)
Definition protect (re : regex) (kind : string) (html : str) : str * list str :=
  replace_st false re
    (fun (arr : list str) match_ _ =>
       let arr := arr ++ [match_] in
       (placeholder kind (length arr - 1), arr))
    [] html.

(** /```(\w+)?\n?([\s\S]*?)```/, no flag *)
Definition re_fence_parts : regex :=
  cat [Str (lit "```"); Opt (Group 1 (Plus true (Cls false [CWord])));
       Opt (Chr nl); Group 2 any_lazy; Str (lit "```")].

Definition restore_block (block : str) : str :=
  match regex_match false re_fence_parts block with
  | Some st =>
      let lang := or_plaintext (cap st 1) in
      let code := escapeHtml (trim (arg st 2)) in
      pre_code lang code
  | None => block
  end.

Definition restore_inline (code : str) : str :=
  let content := slice_1_m1 code in
  lit "<code>" ++ escapeHtml content ++ lit "</code>".

(** [arr.forEach((x, index) => { html = html.replace(placeholder, () => ...) })] *)
Fixpoint restore (kind : string) (body : str -> str) (index : nat)
    (arr : list str) (html : str) : str :=
  match arr with
  | [] => html
  | x :: arr' =>
      restore kind body (S index) arr'
              (replace_first (placeholder kind index) (body x) html)
  end.

Definition parse (markdown : str) : str :=
  match markdown with
  | [] => []
  | _ =>
      let html := markdown in
      let (html, codeBlocks) := protect re_fence "CODE_BLOCK" html in
      let (html, inlineCode) := protect re_tick "INLINE_CODE" html in
      let html := parseTables html in
      let html := fold_left (fun html rl => apply_rule rl html) initializeRules html in
      let html := restore "CODE_BLOCK" restore_block 0 codeBlocks html in
      let html := restore "INLINE_CODE" restore_inline 0 inlineCode html in
      let html := consolidateLists html in
      let html := consolidateBlockquotes html in
      trim html
  end.

End Parser.

(* ===================================================================== *)
(** ** The parser as an object *)
(* ===================================================================== *)

(** The only thing a [MarkdownParser] holds is [this.rules], set once by
    the constructor, and the only mutable part of a rule is the
    [lastIndex] of its global regular expression.  The regular
    expressions that [parse] and the other methods write as literals are
    fresh objects at every evaluation.  This module keeps the [lastIndex]
    of every rule and threads the parser through the calls of [parse]. *)

Module Instance.
Import Js Parser.

Record RegExp : Type := MkRegExp {
  source : regex;
  multiline : bool;
  lastIndex : nat
}.

Definition set_lastIndex (rx : RegExp) (i : nat) : RegExp :=
  MkRegExp (source rx) (multiline rx) i.

(** The scan of [RegExpBuiltinExec]: the first position from the current
    one at which the pattern matches; the result is the text skipped (in
    reverse) and the final state of the matcher. *)
Fixpoint scan_match (ml : bool) (r : regex) (skipped p s : str)
    : option (str * mstate) :=
  match match_at ml r p s with
  | Some st' => Some (skipped, st')
  | None => match s with
            | [] => None
            | c :: s' => scan_match ml r (c :: skipped) (c :: p) s'
            end
  end.

(** [RegExpBuiltinExec] for a regular expression with the g flag: the
    search starts at [lastIndex]; a match sets [lastIndex] to its end, a
    failure resets it to 0.  The result is the position of the match and
    the final state of the matcher. *)
Definition exec (rx : RegExp) (subj : str) : option (nat * mstate) * RegExp :=
  let i := lastIndex rx in
  if (length subj <? i)%nat then (None, set_lastIndex rx 0)
  else
    match scan_match (multiline rx) (source rx) [] (rev (firstn i subj)) (skipn i subj) with
    | None => (None, set_lastIndex rx 0)
    | Some (skipped, st') =>
        (Some ((i + length skipped)%nat, st'), set_lastIndex rx (length (pre st')))
    end.

(** [RegExp.prototype[Symbol.replace]] with a callback that has no side
    effect, so that calling it as the matches are found or after all of
    them are found gives the same string: [next] is nextSourcePosition and
    [acc] the accumulated result; an empty match moves [lastIndex] one
    code unit further. *)
Fixpoint replace_exec (fuel : nat) (rx : RegExp) (f : str -> mstate -> str)
    (subj : str) (next : nat) (acc : str) : str * RegExp :=
  match fuel with
  | O => (acc ++ skipn next subj, rx)
  | S fuel' =>
      match exec rx subj with
      | (None, rx') => (acc ++ skipn next subj, rx')
      | (Some (position, st'), rx') =>
          let matched := firstn (length (pre st') - position) (skipn position subj) in
          let rx'' := match matched with
                      | [] => set_lastIndex rx' (S (lastIndex rx'))
                      | _ :: _ => rx'
                      end in
          replace_exec fuel' rx'' f subj (position + length matched)
                       (acc ++ firstn (position - next) (skipn next subj) ++ f matched st')
      end
  end.

Definition regexp_replace (rx : RegExp) (f : str -> mstate -> str) (subj : str)
    : str * RegExp :=
  let rx := set_lastIndex rx 0 in
  replace_exec (S (S (length subj))) rx f subj 0 [].

(** A rule object and the parser. *)
Record RuleObject : Type := MkRule {
  rule_pattern : RegExp;
  rule_replacement : replacement
}.

Record MarkdownParser : Type := MkParser {
  rules : list RuleObject
}.

(** [new MarkdownParser()] *)
Definition constructor : MarkdownParser :=
  MkParser (map (fun rl => MkRule (MkRegExp (pattern rl) (flag_m rl) 0) (repl rl))
                initializeRules).

Definition callback (rp : replacement) : str -> mstate -> str :=
  match rp with
  | Template t => fun _ st => expand t st
  | Function f => f
  end.

(** [this.rules.forEach(rule => { html = html.replace(rule.pattern, ...) })] *)
Fixpoint apply_rules (rs : list RuleObject) (html : str) : str * list RuleObject :=
  match rs with
  | [] => (html, [])
  | rule :: rs' =>
      let (html', rx) := regexp_replace (rule_pattern rule)
                                        (callback (rule_replacement rule)) html in
      let (html'', rs'') := apply_rules rs' html' in
      (html'', MkRule rx (rule_replacement rule) :: rs'')
  end.

Definition parse (this : MarkdownParser) (markdown : str) : str * MarkdownParser :=
  match markdown with
  | [] => ([], this)
  | _ =>
      let html := markdown in
      let (html, codeBlocks) := protect re_fence "CODE_BLOCK" html in
      let (html, inlineCode) := protect re_tick "INLINE_CODE" html in
      let html := parseTables html in
      let (html, rs) := apply_rules (rules this) html in
      let html := restore "CODE_BLOCK" restore_block 0 codeBlocks html in
      let html := restore "INLINE_CODE" restore_inline 0 inlineCode html in
      let html := consolidateLists html in
      let html := consolidateBlockquotes html in
      (trim html, MkParser rs)
  end.

(** A sequence of calls on one parser: the outputs and the parser left. *)
Fixpoint parse_all (this : MarkdownParser) (docs : list str)
    : list str * MarkdownParser :=
  match docs with
  | [] => ([], this)
  | d :: docs' =>
      let (out, this') := parse this d in
      let (outs, this'') := parse_all this' docs' in
      (out :: outs, this'')
  end.

(** The rules of a parser, whatever the [lastIndex] of their patterns. *)
Definition rule_of (ro : RuleObject) : rule :=
  Rule (source (rule_pattern ro)) (multiline (rule_pattern ro)) (rule_replacement ro).

Definition well_formed (this : MarkdownParser) : Prop :=
  map rule_of (rules this) = initializeRules.

End Instance.

(* ===================================================================== *)
(** ** Notions used to state the properties *)
(* ===================================================================== *)

Import Js Parser.

(** [st'] is a later position of the subject of [st]. *)
Definition extends (st st' : mstate) : Prop :=
  exists w, suf st = w ++ suf st' /\ pre st' = rev w ++ pre st.

(** [w] occurs in [s]. *)
Definition occurs (w s : str) : Prop := exists x y, s = x ++ w ++ y.

Fixpoint occursb (w s : str) : bool :=
  prefixb w s || match s with
                 | [] => false
                 | _ :: s' => occursb w s'
                 end.

(** A text that every match of the pattern must contain. *)
Fixpoint requires (w : str) (r : regex) : bool :=
  match r with
  | Str w' => occursb w w'
  | Seq a b => requires w a || requires w b
  | Alt a b => requires w a && requires w b
  | Plus _ r' | Group _ r' => requires w r'
  | _ => false
  end.

(** The states in which a greedy repetition of a one-character pattern can
    stop when [run] is what it can consume: longest first. *)
Fixpoint greedy_stops (p run rest : str) (cs : list (nat * str)) : list mstate :=
  match run with
  | [] => [MState p rest cs]
  | c :: run' =>
      greedy_stops (c :: p) run' rest cs ++ [MState p (c :: run' ++ rest) cs]
  end.

(** The number of positions of [s] at which [w] starts. *)
Fixpoint count_sub (w s : str) : nat :=
  (if prefixb w s then 1 else 0)
  + match s with
    | [] => 0
    | _ :: s' => count_sub w s'
    end.

(** The elements that [forEach_append] adds, one per entry. *)
Fixpoint forEach_pieces (body : nat -> str -> str) (i : nat) (xs : list str) : list str :=
  match xs with
  | [] => []
  | x :: xs' => body i x :: forEach_pieces body (S i) xs'
  end.

(** What [table_html] emits before the body rows. *)
Definition table_head (headers alignments : list str) : str :=
  lit "<table class=" ++ [dq] ++ lit "markdown-table" ++ [dq] ++ lit ">"
  ++ [nl] ++ lit "<thead>" ++ [nl] ++ lit "<tr>" ++ [nl]
  ++ concat (forEach_pieces (cell_html (lit "th") alignments) 0 headers)
  ++ lit "</tr>" ++ [nl] ++ lit "</thead>" ++ [nl] ++ lit "<tbody>" ++ [nl].

(** What [row_html] adds for a row: nothing for a row without cells, else
    a <tr> element with one piece per cell. *)
Definition body_row (alignments : list str) (row : list str) : str :=
  match row with
  | [] => []
  | _ :: _ =>
      lit "<tr>" ++ [nl]
      ++ concat (forEach_pieces (cell_html (lit "td") alignments) 0 row)
      ++ lit "</tr>" ++ [nl]
  end.

(** A table of two columns whose only body row has three cells. *)
Definition wide_row_table : str :=
  lit "|a|b|" ++ [nl] ++ lit "|---|---|" ++ [nl] ++ lit "|1|2|3|".

(** [st'] is the first answer of the matcher for [r] at [st]. *)
Definition first (ml : bool) (r : regex) (st st' : mstate) : Prop :=
  exists l, m ml r st = st' :: l.

(** A repetition of a one-character pattern stops in front of [rest]. *)
Definition stops (p : char -> bool) (rest : str) : Prop :=
  match rest with
  | [] => True
  | c :: _ => p c = false
  end.

Definition all (p : char -> bool) (s : str) : Prop := forallb p s = true.

Definition dot : char -> bool := fun c => negb (isLineTerminator c).

(** A cell content in which no inline rule but the code rule finds a
    marker: no backtick, asterisk, underscore, tilde or opening bracket. *)
Definition inline_inert (c : str) : bool :=
  forallb (fun x => negb (existsb (N.eqb x) (lit "`*_~["))) c.

(** [lines.join('\n')] *)
Fixpoint join (ls : list str) : str :=
  match ls with
  | [] => []
  | [l] => l
  | l :: ls' => l ++ nl :: join ls'
  end.

(** The scan of [replace_fn] from a position inside the subject. *)
Definition replace_pure (ml : bool) (r : regex) (f : str -> mstate -> str)
    (p s : str) : str :=
  fst (replace_from ml r (fun (_ : unit) w st => (f w st, tt)) tt p s).

(** The position after [p] is the start of a line. *)
Definition line_start (p : str) : Prop := at_bol true (MState p [] []) = true.

(** What follows a line in a text of lines joined by \n. *)
Definition line_end (rest : str) : Prop := rest = [] \/ exists more, rest = nl :: more.

(** A recogniser for the occurrences of [w]: the state counts the
    characters of [w] read last, [length w] is final.  [recognises w]
    checks that the recogniser misses no occurrence of [w]. *)
Definition scan_step (w : str) (q : nat) (c : N) : nat :=
  if Nat.eqb q (length w) then q
  else if nth q w 0 =? c then S q
  else if hd 0 w =? c then 1%nat
  else 0%nat.

Definition scan (w : str) (q : nat) (s : str) : nat := fold_left (scan_step w) s q.

Definition recognises (w : str) : bool :=
  forallb (fun q => Nat.eqb (scan w q w) (length w)) (seq 0 (S (length w))).

Definition free_of (w s : str) : Prop := scan w 0 s <> length w.

(** Plain text of a list item: no line terminator and none of the
    characters ` * _ ~ [ ] | <, and no white space in front. *)
Definition plain_char (c : N) : bool :=
  dot c && negb (existsb (N.eqb c) (lit "`*_~[]|<")).

Definition plain_item (it : str) : bool :=
  match it with
  | [] => false
  | c :: _ => negb (isSpace c) && forallb plain_char it
  end.

(** What a rule puts in for a match. *)
Definition rule_out (rl : rule) (w : str) (st : mstate) : str :=
  match repl rl with
  | Template t => expand t st
  | Function f => f w st
  end.

(** The lines of a bullet list and what the list rule and the
    consolidation make of them. *)
Definition bullet_line (it : str) : str := lit "- " ++ it.

Definition li_item (it : str) : str := lit "<li>" ++ it ++ lit "</li>".

(** Lists of one item each, for the tags ul ([t] is u) and ol ([t] is o),
    and the pattern of consolidateLists for the tag. *)
Definition open_tag (t : N) : str := [60; t; 108; 62].
Definition close_tag (t : N) : str := [60; 47; t; 108; 62].

Definition list_item (t : N) (it : str) : str :=
  open_tag t ++ li_item it ++ close_tag t.

Definition adjacent (t : N) : regex :=
  Group 1 (Seq (Str (close_tag t)) (Seq spaces0 (Str (open_tag t)))).

(** The text of one-item lists behind the first opening tag. *)
Fixpoint unmerged (t : N) (its : list str) : str :=
  match its with
  | [] => []
  | it :: its' =>
      li_item it ++ close_tag t
      ++ match its' with
         | [] => []
         | _ :: _ => nl :: open_tag t ++ unmerged t its'
         end
  end.

(** A line that begins with a tag. *)
Definition tag_line (l : str) : Prop :=
  exists c run s, l = 60 :: (c :: run) ++ 62 :: s
                  /\ all (class_mem true [CChar 62]) (c :: run).




(** A line of the shape of a table row: a pipe, characters other than
    line terminators, a pipe. *)
Definition row_shape (l : str) : bool :=
  match l with
  | 124 :: c :: rest => forallb dot l && (last (c :: rest) 0 =? 124)
  | _ => false
  end.

(** The text in front of a run of rows and behind it, if there is one: a
    line feed separates it from the run. *)
Definition lead (before : option (list N)) : str :=
  match before with
  | Some b => b ++ [nl]
  | None => []
  end.

Definition trail (after : option (list N)) : str :=
  match after with
  | Some a => nl :: a
  | None => []
  end.

Definition pipe_free (t : option (list N)) : bool :=
  match t with
  | Some s => negb (existsb (N.eqb 124) s)
  | None => true
  end.

(** The characters that escapeHtml replaces, and what it puts in for one
    character. *)
Definition special (c : N) : bool := existsb (N.eqb c) [38; 60; 62; dq; sq].

Definition escape_char (c : N) : str :=
  if special c then lookup c escapeMap else [c].

(** What escaping twice makes of one character: the ampersand of the
    entity is escaped again. *)
Definition escape_char_twice (c : N) : str :=
  if special c then lit "&amp;" ++ tl (lookup c escapeMap) else [c].

(** A text without white space at its ends; 0 stands for the missing
    character of the empty text. *)
Definition trimmed (s : str) : bool :=
  negb (isSpace (hd 0 s)) && negb (isSpace (last s 0)).

(** A source line made of a marker, a blank and an item, and the element
    that a rule puts in for such a line. *)
Definition marked (w it : str) : str := w ++ 32 :: it.

Definition element (tag it : str) : str :=
  lit "<" ++ tag ++ lit ">" ++ it ++ lit "</" ++ tag ++ lit ">".

(** A character with which a match of the pattern may start: where this is
    false no match starts with the character. *)
Fixpoint may_start (r : regex) (c : char) : bool :=
  match r with
  | Str [] => true
  | Str (x :: _) => x =? c
  | Dot => dot c
  | Cls neg items => class_mem neg items c
  | Seq a _ => may_start a c
  | Alt a b => may_start a c || may_start b c
  | Plus _ r' | Group _ r' => may_start r' c
  | Star _ _ | Opt _ | Bol | Eol | NegLook _ => true
  end.

(** The text of elements of one kind, one per line, behind the first
    opening tag. *)
Fixpoint elements_tail (tag : str) (its : list str) : str :=
  match its with
  | [] => []
  | it :: its' =>
      it ++ (lit "</" ++ tag ++ lit ">")
      ++ match its' with
         | [] => []
         | _ :: _ => nl :: (lit "<" ++ tag ++ lit ">") ++ elements_tail tag its'
         end
  end.

(** The pattern of consolidateLists and consolidateBlockquotes for a tag. *)
Definition adjacent_tags (tag : str) : regex :=
  Group 1 (cat [Str (lit "</" ++ tag ++ lit ">"); spaces0; Str (lit "<" ++ tag ++ lit ">")]).

(** A line of plain text that no block rule takes for a marked line: a
    plain item that does not begin with #, -, +, > or a digit. *)
Definition text_line (l : str) : bool :=
  plain_item l
  && negb (existsb (N.eqb (hd 0 l)) (lit "#-+>"))
  && negb (isDigit (hd 0 l)).

(** A numbered line: a numeral, a full stop, a blank and the item.  An
    entry is a pair of a numeral and an item. *)
Definition numeral (num : str) : bool := nonempty num && forallb isDigit num.

Definition numbered_line (entry : str * str) : str :=
  fst entry ++ lit ". " ++ snd entry.

Definition numbered (entry : str * str) : bool :=
  numeral (fst entry) && plain_item (snd entry).

(** The text of a numbered line behind the numeral, the full stop and the
    blank. *)
Fixpoint after_numeral (l : str) : str :=
  match l with
  | [] => []
  | c :: l' => if isDigit c then after_numeral l' else skipn 2 l
  end.

(** The text of an optional part of a document. *)
Definition text_of (t : option (list N)) : str :=
  match t with
  | Some s => s
  | None => []
  end.

(** A row written with pipes around and between its cells. *)
Definition pipe_row (cs : list str) : str := 124 :: flat_map (fun c => c ++ [124]) cs.

(** A separator cell: a colon or none, dashes, a colon or none. *)
Definition separator_cell (l r : bool) (n : nat) : str :=
  (if l then lit ":" else []) ++ repeat 45 n ++ (if r then lit ":" else []).

(** The states in which a lazy repetition of a one-character pattern can
    stop when [run] is what it can consume: shortest first. *)
Fixpoint lazy_stops (p run rest : str) (cs : list (nat * str)) : list mstate :=
  match run with
  | [] => [MState p rest cs]
  | c :: run' => MState p (c :: run' ++ rest) cs :: lazy_stops (c :: p) run' rest cs
  end.

(** The delimiters of the emphasis rules with the tags they stand for. *)
Definition emphasis : list (string * string * string) :=
  [ ("***", "<strong><em>", "</em></strong>");
    ("___", "<strong><em>", "</em></strong>");
    ("**", "<strong>", "</strong>");
    ("__", "<strong>", "</strong>");
    ("*", "<em>", "</em>");
    ("_", "<em>", "</em>");
    ("~~", "<del>", "</del>") ]%string.

(** A text in which no inline rule finds a marker and the dot of a pattern
    matches every character. *)
Definition inline_plain (c : str) : bool :=
  nonempty c && inline_inert c && forallb dot c.

(** A part of a link: a text without inline marker that does not hold the
    character that ends the part. *)
Definition link_part (stop : N) (s : str) : bool :=
  nonempty s && inline_inert s && negb (existsb (N.eqb stop) s).

Definition link_text (t u : str) : str := lit "[" ++ t ++ lit "](" ++ u ++ lit ")".

Definition anchor (t u : str) : str :=
  lit "<a href=" ++ [dq] ++ u ++ [dq] ++ lit ">" ++ t ++ lit "</a>".

(** A line with one emphasised span: text, a delimiter, the emphasised
    text, the delimiter again and text. *)
Definition span_line (front delim c back : str) : str :=
  front ++ delim ++ c ++ delim ++ back.

Definition plain_text (s : str) : bool := forallb plain_char s.

(* ===================================================================== *)
(** ** The MarkdownEditor class: the text area and the formatting commands *)
(* ===================================================================== *)

Module Editor.
Import Js Parser.

(** *** Strings *)

(** [s.substring(a, b)]: both indices are clamped to the length and
    swapped when the first is the greater. *)
Definition substring (s : str) (a b : nat) : str :=
  let a := Nat.min a (length s) in
  let b := Nat.min b (length s) in
  firstn (Nat.max a b - Nat.min a b) (skipn (Nat.min a b) s).

(** [s.substring(a)] *)
Definition substring_from (s : str) (a : nat) : str := skipn (Nat.min a (length s)) s.

(** [s.lastIndexOf(c, position)] for a search string of one code unit
    [c]: the greatest index not above [position], clamped to the last
    index, at which [c] stands; [None] is -1.  A negative position is
    clamped to 0, so the position [start - 1] of the source is the
    truncated difference. *)
Fixpoint find_back (s : str) (c : char) (k : nat) : option nat :=
  if nth k s 0 =? c then Some k
  else match k with
       | O => None
       | S k' => find_back s c k'
       end.

Definition lastIndexOf (s : str) (c : char) (position : nat) : option nat :=
  match s with
  | [] => None
  | _ :: _ => find_back s c (Nat.min position (length s - 1))
  end.

(** [i + 1] for a result [i] of lastIndexOf. *)
Definition plus_one (i : option nat) : nat :=
  match i with
  | Some k => S k
  | None => O
  end.

(** *** The text area

    The value and the selection of [this.elements.markdownInput], with
    the operations of the HTML standard that the editor calls. *)

Record textarea : Type := TextArea {
  value : str;
  selectionStart : nat;
  selectionEnd : nat
}.

(** Set the selection range: indices beyond the value point at its end,
    and an end that is not behind the start collapses the selection in
    front of the end. *)
Definition set_selection_range (v : str) (s e : nat) : textarea :=
  let s := Nat.min s (length v) in
  let e := Nat.min e (length v) in
  if (e <=? s)%nat then TextArea v e e else TextArea v s e.

(** [textarea.selectionStart = n] and [textarea.selectionEnd = n] *)
Definition set_selectionStart (ta : textarea) (n : nat) : textarea :=
  let e := selectionEnd ta in
  let e := if (e <? n)%nat then n else e in
  set_selection_range (value ta) n e.

Definition set_selectionEnd (ta : textarea) (n : nat) : textarea :=
  set_selection_range (value ta) (selectionStart ta) n.

(** [textarea.selectionStart = textarea.selectionEnd = n]: the assignment
    on the right is carried out first. *)
Definition set_cursor (ta : textarea) (n : nat) : textarea :=
  set_selectionStart (set_selectionEnd ta n) n.

(** [textarea.value = v]: a new value moves the cursor to its end. *)
Definition set_value (ta : textarea) (v : str) : textarea :=
  if str_eqb (value ta) v then ta else TextArea v (length v) (length v).

(** [textarea.setRangeText(replacement, start, end)], selection mode
    preserve; [None] is the IndexSizeError. *)
Definition setRangeText (ta : textarea) (replacement : str) (start end_ : nat)
    : option textarea :=
  if (end_ <? start)%nat then None
  else
    let len := length (value ta) in
    let start := Nat.min start len in
    let end_ := Nat.min end_ len in
    let v := firstn start (value ta) ++ replacement ++ skipn end_ (value ta) in
    let new_length := length replacement in
    let new_end := (start + new_length)%nat in
    let old_length := (end_ - start)%nat in
    let shift := fun i => (i + new_length - old_length)%nat in
    let selection_start :=
      if (end_ <? selectionStart ta)%nat then shift (selectionStart ta)
      else if (start <? selectionStart ta)%nat then start
      else selectionStart ta in
    let selection_end :=
      if (end_ <? selectionEnd ta)%nat then shift (selectionEnd ta)
      else if (start <? selectionEnd ta)%nat then new_end
      else selectionEnd ta in
    Some (set_selection_range v selection_start selection_end).

(** *** The formatting commands *)

Definition formatSelection (prefix suffix : str) (textarea : textarea)
    : option Editor.textarea :=
  let start := selectionStart textarea in
  let end_ := selectionEnd textarea in
  let selectedText := substring (value textarea) start end_ in
  let formattedText := prefix ++ selectedText ++ suffix in
  match setRangeText textarea formattedText start end_ with
  | None => None
  | Some textarea =>
      Some (match selectedText with
            | [] => set_cursor textarea (start + length prefix)
            | _ :: _ =>
                set_selectionEnd (set_selectionStart textarea start)
                                 (start + length formattedText)
            end)
  end.

Definition lineStart (value : str) (start : nat) : nat :=
  plus_one (lastIndexOf value nl (start - 1)).

Definition formatLine (prefix : str) (textarea : textarea) : Editor.textarea :=
  let start := selectionStart textarea in
  let value := value textarea in
  let lineStart := lineStart value start in
  let newValue := substring value 0 lineStart ++ prefix ++ substring_from value lineStart in
  let textarea := set_value textarea newValue in
  set_cursor textarea (lineStart + length prefix).

Definition insertAtCursor (text : str) (textarea : textarea) : option Editor.textarea :=
  let start := selectionStart textarea in
  let end_ := selectionEnd textarea in
  match setRangeText textarea text start end_ with
  | None => None
  | Some textarea => Some (set_cursor textarea (start + length text))
  end.

(** [x || d] for an answer [x] of [prompt]: [None] is null. *)
Definition or_else (x : option str) (d : str) : str :=
  match x with
  | Some (c :: s) => c :: s
  | _ => d
  end.

(** insertCodeBlock; [language] is the answer to the prompt. *)
Definition codeBlock (language : option str) : str :=
  lit "```" ++ or_else language [] ++ [nl; nl] ++ lit "```".

Definition insertCodeBlock (language : option str) (textarea : textarea)
    : option Editor.textarea :=
  match insertAtCursor (codeBlock language) textarea with
  | None => None
  | Some textarea =>
      let pos := (selectionStart textarea - 4)%nat in
      Some (set_cursor textarea pos)
  end.

(** insertLink; [url] and [text] are the answers to the two prompts, the
    second of which is only asked after a nonempty first answer. *)
Definition linkMarkdown (url text : option str) : option str :=
  match url with
  | Some (c :: u) =>
      Some (lit "[" ++ or_else text (c :: u) ++ lit "](" ++ (c :: u) ++ lit ")")
  | _ => None
  end.

Definition insertLink (url text : option str) (textarea : textarea)
    : option Editor.textarea :=
  match linkMarkdown url text with
  | Some linkMarkdown => insertAtCursor linkMarkdown textarea
  | None => Some textarea
  end.

Definition insertHorizontalRule (textarea : textarea) : option Editor.textarea :=
  insertAtCursor ([nl] ++ lit "---" ++ [nl]) textarea.

(** *** updatePreview

    The HTML that is assigned to the preview pane. *)
Definition updatePreview (textarea : textarea) : str := parse (value textarea).

(** *** updateWordCount *)

(** [text.trim().split(/\s+/).filter(word => word.length > 0)] *)
Definition words (text : str) : list str :=
  filter nonempty (split_re false spaces1 (trim text)).

Definition wordCount (text : str) : str :=
  decimal (length (words text)) ++ lit " words".

Definition charCount (text : str) : str :=
  decimal (length text) ++ lit " characters".

(** *** generateFilename

    [iso] is the value of [now.toISOString()]. *)

(** /[:.]/g *)
Definition re_colon_dot : regex := Cls false [CChar (c_ ":"); CChar (c_ ".")].

Definition timestamp (iso : str) : str :=
  firstn 19 (replace_tpl false re_colon_dot [TLit (lit "-")] iso).

Definition generateFilename (iso extension : str) : str :=
  lit "markdown-document-" ++ timestamp iso ++ extension.

(** *** handleKeyboardShortcuts *)

Record KeyboardEvent : Type := MkKeyboardEvent {
  ctrlKey : bool;
  metaKey : bool;
  shiftKey : bool;
  key : str
}.

(** The methods that a shortcut calls. *)
Inductive action : Type :=
| SaveAsMarkdown
| PrintDocument
| ClearEditor
| FormatSelection (prefix suffix : str)
| InsertLink
| InsertImage
| InsertCodeBlock
| FormatLine (prefix : str)
| ToggleFullscreenPreview.

(** [a <= b] on strings: the order of the code units. *)
Fixpoint str_leb (a b : str) : bool :=
  match a, b with
  | [], _ => true
  | _ :: _, [] => false
  | x :: a', y :: b' =>
      if x <? y then true else if y <? x then false else str_leb a' b'
  end.

(** [parseInt(s)] for a string that begins with a decimal digit other
    than 0: the number that the digits in front write. *)
Fixpoint leading_number (acc : nat) (s : str) : nat :=
  match s with
  | c :: s' =>
      if isDigit c then leading_number (10 * acc + N.to_nat (c - 48)) s' else acc
  | [] => acc
  end.

Definition parseInt (s : str) : nat := leading_number 0 s.

(** One [if] of the method: the call when the condition holds. *)
Definition when (condition : bool) (a : action) : list action :=
  if condition then [a] else [].

(** [e.key === k] *)
Definition key_is (e : KeyboardEvent) (k : string) : bool := str_eqb (key e) (lit k).

(** The calls of one key event, in the order of the source; [fullscreen]
    tells whether the preview panel has the class fullscreen. *)
Definition handleKeyboardShortcuts (fullscreen : bool) (e : KeyboardEvent)
    : list action :=
  let mod_ := ctrlKey e || metaKey e in
  when (mod_ && key_is e "s") SaveAsMarkdown
  ++ when (mod_ && key_is e "p") PrintDocument
  ++ when (mod_ && key_is e "d") ClearEditor
  ++ when (mod_ && key_is e "b") (FormatSelection (lit "**") (lit "**"))
  ++ when (mod_ && key_is e "i") (FormatSelection (lit "*") (lit "*"))
  ++ when (mod_ && key_is e "k") InsertLink
  ++ when (mod_ && shiftKey e && key_is e "K") InsertImage
  ++ when (mod_ && key_is e "e") (FormatSelection (lit "`") (lit "`"))
  ++ when (mod_ && shiftKey e && key_is e "C") InsertCodeBlock
  ++ when (mod_ && key_is e "l") (FormatLine (lit "- "))
  ++ when (mod_ && shiftKey e && key_is e "L") (FormatLine (lit "1. "))
  ++ when (mod_ && key_is e "q") (FormatLine (lit "> "))
  ++ when (mod_ && key_is e "h") (FormatLine (lit "# "))
  ++ when (mod_ && str_leb (lit "1") (key e) && str_leb (key e) (lit "6"))
          (FormatLine (repeat (c_ "#") (parseInt (key e)) ++ lit " "))
  ++ when (key_is e "F11") ToggleFullscreenPreview
  ++ when (key_is e "Escape" && fullscreen) ToggleFullscreenPreview.

End Editor.

(* ===================================================================== *)
(** ** The MarkdownEditor class of app.js *)
(* ===================================================================== *)

Module App.
Import Js Parser.

(** *** updateWordCount

    The pattern of the split is a backslash followed by one or more
    times the letter s. *)
Definition re_backslash_s : regex := Seq (Chr 92) (Plus true (Chr (c_ "s"))).

Definition words (text : str) : list str :=
  filter nonempty (split_re false re_backslash_s (trim text)).

Definition wordCount (text : str) : str :=
  decimal (length (words text)) ++ lit " words".

End App.

(** The selection of a text area lies inside its value, the start not
    behind the end: what the browser maintains. *)
Definition selection_ok (ta : Editor.textarea) : Prop :=
  (Editor.selectionStart ta <= Editor.selectionEnd ta)%nat
  /\ (Editor.selectionEnd ta <= length (Editor.value ta))%nat.

(** The selected text, and the text in front of and behind the selection. *)
Definition selected (ta : Editor.textarea) : str :=
  Editor.substring (Editor.value ta) (Editor.selectionStart ta) (Editor.selectionEnd ta).

Definition before_selection (ta : Editor.textarea) : str :=
  firstn (Editor.selectionStart ta) (Editor.value ta).

Definition after_selection (ta : Editor.textarea) : str :=
  skipn (Editor.selectionEnd ta) (Editor.value ta).

(** A word and a gap between words: nonempty, of characters other than
    white space and of white space. *)
Definition word (w : str) : bool := nonempty w && forallb (fun c => negb (isSpace c)) w.

Definition gap (s : str) : bool := nonempty s && forallb isSpace s.

(** A first word and further words, each with the gap in front of it. *)
Definition sentence (w : str) (more : list (str * str)) : str :=
  w ++ flat_map (fun sw => fst sw ++ snd sw) more.

(** A part of a time stamp: no colon and no full stop. *)
Definition stamp_part (n : nat) (s : str) : bool :=
  Nat.eqb (length s) n && forallb (fun c => negb ((c =? 58) || (c =? 46))) s.

(** The value of toISOString: date, T, hours, minutes, seconds and what
    follows the seconds (a full stop, the milliseconds and Z). *)
Definition iso_string (date hh mm ss rest : str) : str :=
  date ++ lit "T" ++ hh ++ lit ":" ++ mm ++ lit ":" ++ ss ++ lit "." ++ rest.

(** The prefixes that the toolbar and the shortcuts pass to formatLine,
    each with the tags that enclose the line in the preview. *)
Definition line_prefixes : list (string * string * string) :=
  [ ("# ", "<h1>", "</h1>");
    ("## ", "<h2>", "</h2>");
    ("### ", "<h3>", "</h3>");
    ("- ", "<ul><li>", "</li></ul>");
    ("1. ", "<ol><li>", "</li></ol>");
    ("> ", "<blockquote>", "</blockquote>") ]%string.

(** The number that a digit key writes. *)
Definition digit_value (d : char) : nat := N.to_nat (d - 48).

(** The delimiters that the toolbar and the shortcuts pass to
    formatSelection for emphasis, each with the tags of the preview. *)
Definition selection_delimiters : list (string * string * string) :=
  [ ("**", "<strong>", "</strong>");
    ("*", "<em>", "</em>");
    ("~~", "<del>", "</del>") ]%string.

(* ===================================================================== *)
(** ** Properties of the runtime *)
(* ===================================================================== *)

Section Runtime.

Lemma prefixb_spec (w s : str) :
  prefixb w s = true <-> exists t, s = w ++ t.
Proof.
  revert s; induction w as [|x w IH]; intros s; simpl.
  - split; [intros _; now exists s | trivial].
  - destruct s as [|c s].
    + split; [discriminate | intros [t Ht]; discriminate].
    + rewrite andb_true_iff, N.eqb_eq, IH. split.
      * intros [-> [t ->]]. now exists t.
      * intros [t Ht]. injection Ht as -> ->. split; [reflexivity | now exists t].
Qed.

Lemma prefixb_app (w t : str) : prefixb w (w ++ t) = true.
Proof. apply prefixb_spec. now exists t. Qed.

Lemma advance_app (w p t : str) : advance w p (w ++ t) = (rev w ++ p, t).
Proof.
  revert p; induction w as [|x w IH]; intros p; simpl.
  - now destruct t.
  - rewrite IH, <- app_assoc. reflexivity.
Qed.

Lemma step_over_app (w t p : str) cs :
  step_over w (MState p (w ++ t) cs) = MState (rev w ++ p) t cs.
Proof. unfold step_over; simpl. now rewrite advance_app. Qed.

Lemma extends_refl st : extends st st.
Proof. now exists []. Qed.

Lemma extends_trans st1 st2 st3 :
  extends st1 st2 -> extends st2 st3 -> extends st1 st3.
Proof.
  intros [w1 [H1 H1']] [w2 [H2 H2']]. exists (w1 ++ w2). split.
  - rewrite H1, H2, app_assoc. reflexivity.
  - rewrite H2', H1', rev_app_distr, app_assoc. reflexivity.
Qed.

Lemma extends_length st st' : extends st st' -> (length (suf st') <= length (suf st))%nat.
Proof. intros [w [H _]]. rewrite H, length_app. lia. Qed.

Lemma extends_clear gs st st' : extends (clear_caps gs st) st' -> extends st st'.
Proof. intros [w H]. now exists w. Qed.

Lemma eat_extends p st st' : In st' (eat p st) -> extends st st'.
Proof.
  unfold eat. destruct (suf st) as [|c s] eqn:E; [intros []|].
  destruct (p c); [|intros []]. intros [<-|[]]. exists [c]. simpl. now rewrite E.
Qed.

Lemma repeat_loop_extends g gs body :
  (forall st st', In st' (body st) -> extends st st') ->
  forall fuel st st', In st' (repeat_loop g gs body fuel st) -> extends st st'.
Proof.
  intros Hb. induction fuel as [|fuel IH]; intros st st'; simpl.
  - intros [<-|[]]. apply extends_refl.
  - assert (Hmore : In st'
             (flat_map (fun st1 => if progress st st1
                                   then repeat_loop g gs body fuel st1 else [])
                       (body (clear_caps gs st))) -> extends st st').
    { rewrite in_flat_map. intros [st1 [H1 H2]].
      destruct (progress st st1); [|destruct H2].
      apply extends_trans with st1; [|now apply IH].
      apply extends_clear with gs. now apply Hb. }
    destruct g.
    + rewrite in_app_iff. intros [H|[<-|[]]]; [auto | apply extends_refl].
    + intros [<-|H]; [apply extends_refl | auto].
Qed.

(** A match ends at a later position of the same subject. *)
Lemma m_extends ml r : forall st st', In st' (m ml r st) -> extends st st'.
Proof.
  induction r as [w| |neg items|a IHa b IHb|a IHa b IHb|g r IH|g r IH|r IH
                  |i r IH| | |r IH]; intros st st'; cbn [m].
  - destruct (prefixb w (suf st)) eqn:E; [|intros []]. intros [<-|[]].
    apply prefixb_spec in E. destruct E as [t E]. exists w.
    destruct st as [p s cs]; simpl in *. subst s. rewrite step_over_app. now simpl.
  - apply eat_extends.
  - apply eat_extends.
  - rewrite in_flat_map. intros [st1 [H1 H2]]. eapply extends_trans; eauto.
  - rewrite in_app_iff. intros [H|H]; auto.
  - apply repeat_loop_extends, IH.
  - rewrite in_flat_map. intros [st1 [H1 H2]].
    apply extends_trans with st1.
    + apply extends_clear with (groups r). now apply IH.
    + eapply repeat_loop_extends; [apply IH | exact H2].
  - rewrite in_app_iff, filter_In. intros [[H _]|[<-|[]]].
    + apply extends_clear with (groups r). now apply IH.
    + apply extends_refl.
  - rewrite in_map_iff. intros [st1 [<- H]]. apply IH in H.
    destruct H as [w H]. now exists w.
  - destruct (at_bol ml st); [|intros []]. intros [<-|[]]. apply extends_refl.
  - destruct (at_eol ml st); [|intros []]. intros [<-|[]]. apply extends_refl.
  - destruct (m ml r st); [|intros []]. intros [<-|[]]. apply extends_refl.
Qed.

Lemma match_at_extends ml r p s st' :
  match_at ml r p s = Some st' -> extends (MState p s []) st'.
Proof.
  unfold match_at. intros H. apply (m_extends ml r).
  destruct (m ml r (MState p s [])); [discriminate|].
  injection H as <-. now left.
Qed.

(** *** The rounds of the loops are never used up *)

Lemma progress_lt st st' :
  progress st st' = true -> (length (suf st') < length (suf st))%nat.
Proof. unfold progress. apply Nat.ltb_lt. Qed.

Lemma repeat_loop_fuel g gs body : forall f1 f2 st,
  (length (suf st) < f1)%nat -> (length (suf st) < f2)%nat ->
  repeat_loop g gs body f1 st = repeat_loop g gs body f2 st.
Proof.
  induction f1 as [|f1 IH]; intros f2 st H1 H2; [lia|].
  destruct f2 as [|f2]; [lia|]. simpl.
  assert (E : forall l,
    flat_map (fun st' => if progress st st' then repeat_loop g gs body f1 st' else []) l
    = flat_map (fun st' => if progress st st' then repeat_loop g gs body f2 st' else []) l).
  { induction l as [|x l IHl]; simpl; [reflexivity|]. rewrite IHl. f_equal.
    destruct (progress st x) eqn:P; [|reflexivity].
    apply progress_lt in P. apply IH; lia. }
  now rewrite E.
Qed.

Lemma span_nonempty p s st' x xs :
  span (MState p s []) st' = x :: xs -> (length (suf st') < length s)%nat.
Proof.
  unfold span; simpl. intros H.
  destruct (length s - length (suf st'))%nat eqn:E; [discriminate|]. lia.
Qed.

Section ReplaceFacts.
Variable A : Type.
Variable ml : bool.
Variable r : regex.
Variable f : A -> str -> mstate -> str * A.

Lemma replace_loop_fuel : forall f1 f2 a p s,
  (length s < f1)%nat -> (length s < f2)%nat ->
  replace_loop ml r f f1 a p s = replace_loop ml r f f2 a p s.
Proof.
  induction f1 as [|f1 IH]; intros f2 a p s H1 H2; [lia|].
  destruct f2 as [|f2]; [lia|]. cbn [replace_loop].
  assert (Hskip : forall c s', s = c :: s' ->
            replace_loop ml r f f1 a (c :: p) s' = replace_loop ml r f f2 a (c :: p) s').
  { intros c s' ->. simpl in *. apply IH; lia. }
  destruct (match_at ml r p s) as [st'|] eqn:M.
  - destruct (f a (span (MState p s []) st') st') as [new a1].
    destruct (span (MState p s []) st') as [|x xs] eqn:Sp.
    + destruct s as [|c s']; [reflexivity|].
      rewrite (IH f2 a1 (c :: p) s'); simpl in *; [reflexivity|lia|lia].
    + apply span_nonempty in Sp.
      rewrite (IH f2 a1 (pre st') (suf st')); [reflexivity|lia|lia].
  - destruct s as [|c s']; [reflexivity|]. now rewrite (Hskip c s' eq_refl).
Qed.

(** The scan, one step at a time. *)
Lemma replace_loop_S fuel a p s :
  replace_loop ml r f (S fuel) a p s
  = match match_at ml r p s with
    | None =>
        match s with
        | [] => ([], a)
        | c :: s' =>
            let (out, a') := replace_loop ml r f fuel a (c :: p) s' in
            (c :: out, a')
        end
    | Some st' =>
        let matched := span (MState p s []) st' in
        let (new, a1) := f a matched st' in
        match matched, s with
        | [], [] => (new, a1)
        | [], c :: s' =>
            let (out, a2) := replace_loop ml r f fuel a1 (c :: p) s' in
            (new ++ c :: out, a2)
        | _ :: _, _ =>
            let (out, a2) := replace_loop ml r f fuel a1 (pre st') (suf st') in
            (new ++ out, a2)
        end
    end.
Proof. reflexivity. Qed.

Lemma replace_from_nil a p :
  match_at ml r p [] = None -> replace_from ml r f a p [] = ([], a).
Proof. unfold replace_from. rewrite replace_loop_S. now intros ->. Qed.

Lemma replace_from_skip a p c s :
  match_at ml r p (c :: s) = None ->
  replace_from ml r f a p (c :: s)
  = (c :: fst (replace_from ml r f a (c :: p) s),
     snd (replace_from ml r f a (c :: p) s)).
Proof.
  unfold replace_from. intros M.
  rewrite (replace_loop_S (length (c :: s)) a p (c :: s)), M.
  cbn [length].
  now destruct (replace_loop ml r f (S (length s)) a (c :: p) s).
Qed.

Lemma replace_from_match a p s st' x xs :
  match_at ml r p s = Some st' ->
  span (MState p s []) st' = x :: xs ->
  replace_from ml r f a p s
  = (fst (f a (x :: xs) st')
       ++ fst (replace_from ml r f (snd (f a (x :: xs) st')) (pre st') (suf st')),
     snd (replace_from ml r f (snd (f a (x :: xs) st')) (pre st') (suf st'))).
Proof.
  unfold replace_from. intros M Sp.
  rewrite (replace_loop_S (length s) a p s), M. cbv zeta. rewrite Sp.
  apply span_nonempty in Sp.
  destruct (f a (x :: xs) st') as [new a1]. cbn [fst snd].
  rewrite (replace_loop_fuel (length s) (S (length (suf st'))) a1 (pre st') (suf st'));
    [|lia|lia].
  now destruct (replace_loop ml r f (S (length (suf st'))) a1 (pre st') (suf st')).
Qed.

(** Where no match starts, the text is copied. *)
Lemma replace_from_copy a : forall u p v,
  (forall u1 c u2, u = u1 ++ c :: u2 ->
     match_at ml r (rev u1 ++ p) (c :: u2 ++ v) = None) ->
  replace_from ml r f a p (u ++ v)
  = (u ++ fst (replace_from ml r f a (rev u ++ p) v),
     snd (replace_from ml r f a (rev u ++ p) v)).
Proof.
  induction u as [|c u IH]; intros p v H.
  - simpl. now destruct (replace_from ml r f a p v).
  - simpl app. rewrite replace_from_skip by (apply (H [] c u); reflexivity).
    rewrite IH.
    + simpl. now rewrite <- app_assoc.
    + intros u1 c' u2 ->. specialize (H (c :: u1) c' u2 eq_refl).
      simpl in H. now rewrite <- app_assoc in H.
Qed.

Lemma replace_st_id a s :
  (forall u1 u2, s = u1 ++ u2 -> match_at ml r (rev u1) u2 = None) ->
  replace_st ml r f a s = (s, a).
Proof.
  intros H. unfold replace_st.
  rewrite <- (app_nil_r s) at 1. rewrite replace_from_copy.
  - rewrite replace_from_nil.
    + simpl. now rewrite app_nil_r.
    + rewrite app_nil_r. apply (H s []). now rewrite app_nil_r.
  - intros u1 c u2 ->. rewrite !app_nil_r. now apply H.
Qed.
End ReplaceFacts.


(** *** Texts that a pattern requires *)

Lemma occursb_spec (w s : str) : occursb w s = true <-> occurs w s.
Proof.
  induction s as [|c s IH].
  - simpl. rewrite orb_false_r, prefixb_spec. split.
    + intros [t Ht]. exists [], t. exact Ht.
    + intros [x [y H]]. destruct x; [|discriminate]. now exists y.
  - cbn [occursb]. rewrite orb_true_iff, IH, prefixb_spec. split.
    + intros [[t Ht]|[x [y H]]].
      * exists [], t. exact Ht.
      * exists (c :: x), y. simpl. now rewrite H.
    + intros [x [y H]]. destruct x as [|c' x].
      * left. now exists y.
      * right. injection H as -> H. now exists x, y.
Qed.

Lemma occurs_app_l w x s : occurs w s -> occurs w (x ++ s).
Proof. intros [a [b ->]]. exists (x ++ a), b. now rewrite app_assoc. Qed.

Lemma occurs_app_r w s y : occurs w s -> occurs w (s ++ y).
Proof. intros [a [b ->]]. exists a, (b ++ y). now rewrite <- !app_assoc. Qed.

Lemma m_requires ml w r : requires w r = true ->
  forall st st', In st' (m ml r st) -> occurs w (suf st).
Proof.
  induction r as [w'| |neg items|a IHa b IHb|a IHa b IHb|g r IH|g r IH|r IH
                  |i r IH| | |r IH]; cbn [requires m]; try discriminate; intros R st st'.
  - destruct (prefixb w' (suf st)) eqn:E; [|intros []]. intros _.
    apply prefixb_spec in E. destruct E as [t ->].
    apply occurs_app_r. now apply occursb_spec.
  - rewrite in_flat_map. intros [st1 [H1 H2]].
    apply orb_true_iff in R. destruct R as [R|R].
    + eapply IHa; eauto.
    + apply m_extends in H1. destruct H1 as [x [-> _]].
      apply occurs_app_l. eapply IHb; eauto.
  - apply andb_true_iff in R. destruct R as [Ra Rb].
    rewrite in_app_iff. intros [H|H]; [eapply IHa | eapply IHb]; eauto.
  - rewrite in_flat_map. intros [st1 [H1 _]]. apply (IH R) in H1. exact H1.
  - rewrite in_map_iff. intros [st1 [_ H]]. eapply IH; eauto.
Qed.

Lemma match_at_absent ml w r p s :
  requires w r = true -> ~ occurs w s -> match_at ml r p s = None.
Proof.
  intros R H. unfold match_at.
  destruct (m ml r (MState p s [])) as [|st' l] eqn:E; [reflexivity|].
  exfalso. apply H. apply (m_requires ml w r R (MState p s []) st'). rewrite E. now left.
Qed.

(** A pattern leaves a text unchanged in which something it requires does
    not occur. *)
Lemma replace_st_absent {A} ml w r (f : A -> str -> mstate -> str * A) a s :
  requires w r = true -> ~ occurs w s -> replace_st ml r f a s = (s, a).
Proof.
  intros R H. apply replace_st_id. intros u1 u2 ->.
  apply match_at_absent with w; [exact R|]. intros O. apply H. now apply occurs_app_l.
Qed.

Lemma replace_fn_absent ml w r f s :
  requires w r = true -> ~ occurs w s -> replace_fn ml r f s = s.
Proof. intros R H. unfold replace_fn. now rewrite (replace_st_absent _ _ _ _ _ _ R H). Qed.

Lemma apply_rule_absent w rl s :
  requires w (pattern rl) = true -> ~ occurs w s -> apply_rule rl s = s.
Proof.
  intros R H. unfold apply_rule, replace_tpl.
  destruct (repl rl); now apply replace_fn_absent with w.
Qed.

(** *** First answers of the matcher *)

Lemma first_match_at ml r p s st' :
  first ml r (MState p s []) st' -> match_at ml r p s = Some st'.
Proof. intros [l H]. unfold match_at. now rewrite H. Qed.

Lemma first_seq ml a b st st1 st2 :
  first ml a st st1 -> first ml b st1 st2 -> first ml (Seq a b) st st2.
Proof.
  intros [l1 H1] [l2 H2]. unfold first. cbn [m]. rewrite H1. cbn [flat_map]. rewrite H2.
  eexists. reflexivity.
Qed.

Lemma first_str ml w p t cs :
  first ml (Str w) (MState p (w ++ t) cs) (MState (rev w ++ p) t cs).
Proof.
  exists []. cbn [m suf]. now rewrite prefixb_app, step_over_app.
Qed.

Lemma m_seq ml a b st : m ml (Seq a b) st = flat_map (m ml b) (m ml a st).
Proof. reflexivity. Qed.

Lemma m_alt ml a b st : m ml (Alt a b) st = m ml a st ++ m ml b st.
Proof. reflexivity. Qed.

Lemma m_bol ml st : m ml Bol st = if at_bol ml st then [st] else [].
Proof. reflexivity. Qed.

Lemma m_chr ml x p c s cs :
  m ml (Chr x) (MState p (c :: s) cs)
  = if x =? c then [MState (c :: p) s cs] else [].
Proof.
  unfold Chr. cbn [m suf prefixb]. rewrite andb_true_r.
  now destruct (x =? c).
Qed.

Lemma m_group ml i r st :
  m ml (Group i r) st
  = map (fun st' => MState (pre st') (suf st') ((i, span st st') :: caps st')) (m ml r st).
Proof. reflexivity. Qed.

Lemma m_str_app ml w p t cs :
  m ml (Str w) (MState p (w ++ t) cs) = [MState (rev w ++ p) t cs].
Proof. cbn [m suf]. now rewrite prefixb_app, step_over_app. Qed.

Lemma first_group ml i r st st' :
  first ml r st st' ->
  first ml (Group i r) st (MState (pre st') (suf st') ((i, span st st') :: caps st')).
Proof. intros [l H]. unfold first. cbn [m]. rewrite H. eexists. reflexivity. Qed.

Lemma first_bol ml st : at_bol ml st = true -> first ml Bol st st.
Proof. intros H. exists []. cbn [m]. now rewrite H. Qed.

Lemma first_eol ml st : at_eol ml st = true -> first ml Eol st st.
Proof. intros H. exists []. cbn [m]. now rewrite H. Qed.

Lemma first_alt_l ml a b st st' : first ml a st st' -> first ml (Alt a b) st st'.
Proof. intros [l H]. unfold first. cbn [m]. rewrite H. eexists. reflexivity. Qed.

Lemma first_alt_r ml a b st st' :
  m ml a st = [] -> first ml b st st' -> first ml (Alt a b) st st'.
Proof. intros Ha [l H]. unfold first. cbn [m]. rewrite Ha, H. eexists. reflexivity. Qed.

Lemma m_seq_nil ml a b st : m ml a st = [] -> m ml (Seq a b) st = [].
Proof. intros H. cbn [m]. now rewrite H. Qed.

Lemma m_seq_single ml a b st st1 :
  m ml a st = [st1] -> m ml (Seq a b) st = m ml b st1.
Proof. intros H. cbn [m]. rewrite H. cbn [flat_map]. apply app_nil_r. Qed.

Lemma m_str_nil ml w st : prefixb w (suf st) = false -> m ml (Str w) st = [].
Proof. intros H. cbn [m]. now rewrite H. Qed.

Lemma m_bol_nil ml st : at_bol ml st = false -> m ml Bol st = [].
Proof. intros H. cbn [m]. now rewrite H. Qed.

Lemma clear_caps_nil st : clear_caps [] st = st.
Proof.
  destruct st as [p s cs]. unfold clear_caps; simpl. f_equal.
  induction cs as [|kv cs IH]; simpl; [reflexivity | now rewrite IH].
Qed.

Lemma greedy_stops_hd : forall run p rest cs,
  exists l, greedy_stops p run rest cs = MState (rev run ++ p) rest cs :: l.
Proof.
  induction run as [|c run IH]; intros p rest cs; simpl.
  - now exists [].
  - destruct (IH (c :: p) rest cs) as [l ->]. rewrite <- app_assoc. simpl.
    eexists. reflexivity.
Qed.

(** A greedy repetition of a one-character pattern over a run of
    characters it accepts, in front of one it refuses. *)
Lemma repeat_greedy_run body p :
  (forall st, body st = eat p st) ->
  forall run pr rest cs fuel,
    all p run -> stops p rest -> (length (run ++ rest) < fuel)%nat ->
    repeat_loop true [] body fuel (MState pr (run ++ rest) cs)
    = greedy_stops pr run rest cs.
Proof.
  intros Hb. induction run as [|c run IH]; intros pr rest cs fuel Hall Hstop Hlen.
  - destruct fuel as [|fuel]; [simpl in Hlen; lia|].
    cbn [repeat_loop]. rewrite clear_caps_nil, Hb. unfold eat. cbn [suf app].
    destruct rest as [|c rest]; [reflexivity|]. simpl in Hstop. now rewrite Hstop.
  - destruct fuel as [|fuel]; [simpl in Hlen; lia|].
    cbn [repeat_loop]. rewrite clear_caps_nil, Hb. unfold eat. cbn [suf pre caps app].
    unfold all in Hall. simpl in Hall. apply andb_true_iff in Hall. destruct Hall as [Hc Hall].
    rewrite Hc. cbn [flat_map]. unfold progress. cbn [suf].
    replace (length (run ++ rest) <? length (c :: run ++ rest))%nat with true
      by (symmetry; apply Nat.ltb_lt; simpl; lia).
    rewrite app_nil_r, IH; [reflexivity | exact Hall | exact Hstop | simpl in Hlen; lia].
Qed.

Lemma m_star_run ml neg items run pr rest cs :
  all (class_mem neg items) run -> stops (class_mem neg items) rest ->
  m ml (Star true (Cls neg items)) (MState pr (run ++ rest) cs)
  = greedy_stops pr run rest cs.
Proof.
  intros Hall Hstop. cbn [m groups suf].
  apply repeat_greedy_run with (p := class_mem neg items); auto.
Qed.

Lemma m_star_dot_run ml run pr rest cs :
  all dot run -> stops dot rest ->
  m ml (Star true Dot) (MState pr (run ++ rest) cs) = greedy_stops pr run rest cs.
Proof.
  intros Hall Hstop. cbn [m groups suf].
  apply repeat_greedy_run with (p := dot); auto.
Qed.

Lemma m_plus_run ml neg items c run pr rest cs :
  all (class_mem neg items) (c :: run) -> stops (class_mem neg items) rest ->
  m ml (Plus true (Cls neg items)) (MState pr (c :: run ++ rest) cs)
  = greedy_stops (c :: pr) run rest cs.
Proof.
  intros Hall Hstop. cbn [m groups]. rewrite clear_caps_nil. cbn [m]. unfold eat.
  cbn [suf pre caps]. unfold all in Hall. simpl in Hall.
  apply andb_true_iff in Hall. destruct Hall as [Hc Hall]. rewrite Hc.
  cbn [flat_map]. rewrite app_nil_r.
  apply repeat_greedy_run with (p := class_mem neg items); auto; simpl; lia.
Qed.

Lemma m_plus_dot_run ml c run pr rest cs :
  all dot (c :: run) -> stops dot rest ->
  m ml (Plus true Dot) (MState pr (c :: run ++ rest) cs)
  = greedy_stops (c :: pr) run rest cs.
Proof.
  intros Hall Hstop. cbn [m groups]. rewrite clear_caps_nil. cbn [m]. unfold eat.
  cbn [suf pre caps]. unfold all in Hall. simpl in Hall.
  apply andb_true_iff in Hall. destruct Hall as [Hc Hall].
  change (negb (isLineTerminator c)) with (dot c). rewrite Hc.
  cbn [flat_map]. rewrite app_nil_r.
  apply repeat_greedy_run with (p := dot); auto; simpl; lia.
Qed.

Lemma first_plus_run ml neg items c run pr rest cs :
  all (class_mem neg items) (c :: run) -> stops (class_mem neg items) rest ->
  first ml (Plus true (Cls neg items)) (MState pr (c :: run ++ rest) cs)
        (MState (rev (c :: run) ++ pr) rest cs).
Proof.
  intros Hall Hstop. unfold first. rewrite m_plus_run by assumption.
  destruct (greedy_stops_hd run (c :: pr) rest cs) as [l ->].
  exists l. simpl. now rewrite <- app_assoc.
Qed.

Lemma first_plus_dot_run ml c run pr rest cs :
  all dot (c :: run) -> stops dot rest ->
  first ml (Plus true Dot) (MState pr (c :: run ++ rest) cs)
        (MState (rev (c :: run) ++ pr) rest cs).
Proof.
  intros Hall Hstop. unfold first. rewrite m_plus_dot_run by assumption.
  destruct (greedy_stops_hd run (c :: pr) rest cs) as [l ->].
  exists l. simpl. now rewrite <- app_assoc.
Qed.

Lemma first_star_run ml neg items run pr rest cs :
  all (class_mem neg items) run -> stops (class_mem neg items) rest ->
  first ml (Star true (Cls neg items)) (MState pr (run ++ rest) cs)
        (MState (rev run ++ pr) rest cs).
Proof.
  intros Hall Hstop. unfold first. rewrite m_star_run by assumption.
  apply greedy_stops_hd.
Qed.

Lemma span_app p w t cs st' :
  suf st' = t -> span (MState p (w ++ t) cs) st' = w.
Proof.
  intros H. unfold span. cbn [suf]. rewrite H, length_app.
  replace (length w + length t - length t)%nat with (length w) by lia.
  now rewrite firstn_app, Nat.sub_diag, firstn_all, app_nil_r.
Qed.

Lemma span_all p s cs st' : suf st' = [] -> span (MState p s cs) st' = s.
Proof.
  intros H. unfold span. cbn [suf]. rewrite H. cbn [length].
  now rewrite Nat.sub_0_r, firstn_all.
Qed.

Lemma split_loop_fuel ml r : forall f1 f2 piece p s,
  (2 * length s + (match piece with [] => 0 | _ :: _ => 1 end) < f1)%nat ->
  (2 * length s + (match piece with [] => 0 | _ :: _ => 1 end) < f2)%nat ->
  split_loop ml r f1 piece p s = split_loop ml r f2 piece p s.
Proof.
  induction f1 as [|f1 IH]; intros f2 piece p s H1 H2; [lia|].
  destruct f2 as [|f2]; [lia|]. cbn [split_loop].
  destruct s as [|c s']; [reflexivity|].
  assert (Hskip : split_loop ml r f1 (c :: piece) (c :: p) s'
                  = split_loop ml r f2 (c :: piece) (c :: p) s')
    by (apply IH; simpl in *; lia).
  destruct (match_at ml r p (c :: s')) as [st'|] eqn:M; [|exact Hskip].
  destruct (match_at_extends _ _ _ _ _ M) as [w [Esuf _]]. cbn [suf] in Esuf.
  assert (Hsp : span (MState p (c :: s') []) st' = w)
    by (rewrite Esuf; now apply span_app).
  rewrite Hsp.
  assert (Hlen : length (c :: s') = (length w + length (suf st'))%nat)
    by (rewrite Esuf, length_app; reflexivity).
  destruct w as [|x w]; [destruct piece as [|y piece]|].
  - exact Hskip.
  - f_equal. apply IH; simpl in *; lia.
  - f_equal. apply IH; simpl in *; lia.
Qed.

Lemma occurs_single x s : occurs [x] s <-> In x s.
Proof.
  split.
  - intros [a [b ->]]. apply in_or_app. right. now left.
  - intros H. apply in_split in H. destruct H as [a [b ->]]. now exists a, b.
Qed.

Lemma apply_rule_no_char x rl s :
  requires [x] (pattern rl) = true -> ~ In x s -> apply_rule rl s = s.
Proof.
  intros R H. apply apply_rule_absent with [x]; [exact R|]. now rewrite occurs_single.
Qed.

(** *** Occurrences *)

Lemma scan_cons w q c s : scan w q (c :: s) = scan w (scan_step w q c) s.
Proof. reflexivity. Qed.

Lemma scan_app w q a b : scan w q (a ++ b) = scan w (scan w q a) b.
Proof. apply fold_left_app. Qed.

Lemma scan_step_le w q c : (q <= length w)%nat -> (scan_step w q c <= length w)%nat.
Proof.
  intros H. unfold scan_step. destruct (Nat.eqb_spec q (length w)); [lia|].
  destruct (nth q w 0 =? c); [lia|]. destruct (hd 0 w =? c); [|lia].
  destruct w; simpl in *; lia.
Qed.

Lemma scan_le w : forall s q, (q <= length w)%nat -> (scan w q s <= length w)%nat.
Proof.
  induction s as [|c s IH]; intros q H; [exact H|].
  rewrite scan_cons. apply IH. now apply scan_step_le.
Qed.

Lemma scan_final w : forall s, scan w (length w) s = length w.
Proof.
  induction s as [|c s IH]; [reflexivity|].
  rewrite scan_cons. unfold scan_step. now rewrite Nat.eqb_refl.
Qed.

Lemma recognises_sound w s : recognises w = true -> occurs w s -> ~ free_of w s.
Proof.
  intros R [x [y ->]] F. apply F. rewrite !scan_app.
  unfold recognises in R. rewrite forallb_forall in R.
  assert (Hq : (scan w 0 x <= length w)%nat) by (apply scan_le; lia).
  assert (E : scan w (scan w 0 x) w = length w).
  { apply Nat.eqb_eq, R, in_seq. lia. }
  rewrite E. apply scan_final.
Qed.

Lemma free_of_absent w s : recognises w = true -> free_of w s -> ~ occurs w s.
Proof. intros R F O. now apply (recognises_sound w s R O). Qed.

(** Characters other than the first of [w] leave the recogniser in its
    initial state. *)
Lemma scan_other w : forall s,
  forallb (fun c => negb (hd 0 w =? c)) s = true -> w <> [] -> scan w 0 s = 0%nat.
Proof.
  intros s H Hw. induction s as [|c s IH]; [reflexivity|].
  simpl in H. apply andb_true_iff in H. destruct H as [Hc H].
  rewrite scan_cons. destruct w as [|x w]; [contradiction|].
  unfold scan_step. cbn [length Nat.eqb nth hd] in *.
  apply negb_true_iff in Hc. rewrite Hc. now apply IH.
Qed.

(** *** Texts made of lines *)

Lemma join_cons l l' ls : join (l :: l' :: ls) = l ++ nl :: join (l' :: ls).
Proof. reflexivity. Qed.

Lemma In_join x : forall ls, In x (join ls) -> x = nl \/ exists l, In l ls /\ In x l.
Proof.
  induction ls as [|l ls IH]; [intros []|].
  destruct ls as [|l' ls].
  - simpl. intros H. right. exists l. auto.
  - rewrite join_cons, in_app_iff. intros [H|[H|H]].
    + right. exists l. split; [now left | exact H].
    + left. now symmetry.
    + destruct (IH H) as [E|[l0 [H1 H2]]]; [now left|].
      right. exists l0. split; [now right | exact H2].
Qed.

Lemma at_bol_last l p :
  l <> [] -> all dot l -> at_bol true (MState (rev l ++ p) [] []) = false.
Proof.
  intros Hne Hall. destruct (exists_last Hne) as [l0 [c ->]].
  rewrite rev_app_distr. simpl. unfold all in Hall.
  rewrite forallb_app in Hall. apply andb_true_iff in Hall. destruct Hall as [_ Hc].
  simpl in Hc. rewrite andb_true_r in Hc. unfold dot in Hc.
  now apply negb_true_iff in Hc.
Qed.

Lemma replace_pure_nil ml r f p :
  match_at ml r p [] = None -> replace_pure ml r f p [] = [].
Proof. intros M. unfold replace_pure. now rewrite replace_from_nil. Qed.

Lemma replace_pure_skip ml r f p c s :
  match_at ml r p (c :: s) = None ->
  replace_pure ml r f p (c :: s) = c :: replace_pure ml r f (c :: p) s.
Proof. intros M. unfold replace_pure. now rewrite replace_from_skip. Qed.

Lemma replace_pure_copy ml r f u p v :
  (forall u1 c u2, u = u1 ++ c :: u2 ->
     match_at ml r (rev u1 ++ p) (c :: u2 ++ v) = None) ->
  replace_pure ml r f p (u ++ v) = u ++ replace_pure ml r f (rev u ++ p) v.
Proof. intros H. unfold replace_pure. now rewrite replace_from_copy. Qed.

Lemma replace_pure_match ml r f p s st' :
  first ml r (MState p s []) st' ->
  (length (suf st') < length s)%nat ->
  replace_pure ml r f p s
  = f (span (MState p s []) st') st' ++ replace_pure ml r f (pre st') (suf st').
Proof.
  intros F Hlen. unfold replace_pure.
  destruct (span (MState p s []) st') as [|x xs] eqn:Sp.
  - exfalso. unfold span in Sp. cbn [suf] in Sp.
    assert (Hl : length (firstn (length s - length (suf st')) s) = 0%nat) by now rewrite Sp.
    rewrite length_firstn in Hl. lia.
  - now rewrite (replace_from_match _ _ _ _ _ _ _ _ x xs (first_match_at _ _ _ _ _ F) Sp).
Qed.

Lemma replace_fn_pure ml r f s : replace_fn ml r f s = replace_pure ml r f [] s.
Proof. reflexivity. Qed.

Lemma match_at_bol_nil r' p s :
  at_bol true (MState p s []) = false -> match_at true (Seq Bol r') p s = None.
Proof. intros H. unfold match_at. cbn [m]. now rewrite H. Qed.

(** A rule anchored at the start of the line, applied to lines none of
    which is empty: if at the start of each line the rule either does not
    match or matches the whole line, the rule acts line by line. *)
Lemma linewise r' f g : forall ls p,
  ls <> [] ->
  (forall l, In l ls -> l <> [] /\ all dot l) ->
  (forall l q rest, In l ls -> line_start q -> line_end rest ->
     (m true r' (MState q (l ++ rest) []) = [] /\ g l = l)
     \/ (exists st', first true r' (MState q (l ++ rest) []) st'
                     /\ suf st' = rest /\ pre st' = rev l ++ q /\ f l st' = g l)) ->
  line_start p ->
  replace_pure true (Seq Bol r') f p (join ls) = join (map g ls).
Proof.
  induction ls as [|l ls IH]; intros p Hne Hls Hr Hp; [contradiction|].
  destruct (Hls l (or_introl eq_refl)) as [Hl Hdot].
  assert (Hinside : forall rest u1 c u2, l = u1 ++ c :: u2 -> u1 <> [] ->
            match_at true (Seq Bol r') (rev u1 ++ p) (c :: u2 ++ rest) = None).
  { intros rest u1 c u2 E Hu1. apply match_at_bol_nil.
    change (at_bol true (MState (rev u1 ++ p) [] []) = false).
    apply at_bol_last; [exact Hu1|]. unfold all in *. rewrite E, forallb_app in Hdot.
    now apply andb_true_iff in Hdot. }
  assert (Hline : forall rest, line_end rest ->
            replace_pure true (Seq Bol r') f p (l ++ rest)
            = g l ++ replace_pure true (Seq Bol r') f (rev l ++ p) rest).
  { intros rest Hrest.
    destruct (Hr l p rest (or_introl eq_refl) Hp Hrest) as [[Hnil Hg]|[st' [F [Hs [Hpr Hf]]]]].
    - rewrite Hg. apply replace_pure_copy. intros u1 c u2 E.
      destruct u1 as [|c1 u1].
      + simpl in E. simpl. unfold match_at. cbn [m].
        destruct (at_bol true (MState p (c :: u2 ++ rest) [])); cbn [flat_map].
        * rewrite app_nil_r. simpl in Hnil. subst l. simpl in Hnil. now rewrite Hnil.
        * reflexivity.
      + apply Hinside with (u1 := c1 :: u1); [exact E | discriminate].
    - assert (F' : first true (Seq Bol r') (MState p (l ++ rest) []) st').
      { eapply first_seq; [apply first_bol; exact Hp | exact F]. }
      rewrite (replace_pure_match true _ f p (l ++ rest) st' F').
      + rewrite (span_app p l rest [] st' Hs), Hs, Hpr, Hf. reflexivity.
      + rewrite Hs, length_app. destruct l; [contradiction | simpl; lia]. }
  assert (Hend : at_bol true (MState (rev l ++ p) [] []) = false)
    by now apply at_bol_last.
  destruct ls as [|l' ls].
  - simpl. rewrite <- (app_nil_r l) at 1. rewrite Hline by now left.
    rewrite replace_pure_nil; [now rewrite app_nil_r|].
    now apply match_at_bol_nil.
  - rewrite join_cons, Hline by (right; eexists; reflexivity).
    rewrite replace_pure_skip by now apply match_at_bol_nil.
    rewrite IH.
    + reflexivity.
    + discriminate.
    + intros l0 H0. apply Hls. now right.
    + intros l0 q rest H0. apply Hr. now right.
    + reflexivity.
Qed.

Lemma apply_rule_pure rl s :
  apply_rule rl s = replace_pure (flag_m rl) (pattern rl) (rule_out rl) [] s.
Proof. unfold apply_rule, rule_out, replace_tpl. now destruct (repl rl). Qed.

Lemma apply_rule_linewise rl r' g ls :
  pattern rl = Seq Bol r' -> flag_m rl = true ->
  ls <> [] ->
  (forall l, In l ls -> l <> [] /\ all dot l) ->
  (forall l q rest, In l ls -> line_start q -> line_end rest ->
     (m true r' (MState q (l ++ rest) []) = [] /\ g l = l)
     \/ (exists st', first true r' (MState q (l ++ rest) []) st'
                     /\ suf st' = rest /\ pre st' = rev l ++ q
                     /\ rule_out rl l st' = g l)) ->
  apply_rule rl (join ls) = join (map g ls).
Proof.
  intros Hp Hm Hne Hls Hr. rewrite apply_rule_pure, Hp, Hm.
  apply linewise; auto. reflexivity.
Qed.

Lemma apply_rule_no_line_match rl r' ls :
  pattern rl = Seq Bol r' -> flag_m rl = true ->
  ls <> [] ->
  (forall l, In l ls -> l <> [] /\ all dot l) ->
  (forall l q rest, In l ls -> line_end rest ->
     m true r' (MState q (l ++ rest) []) = []) ->
  apply_rule rl (join ls) = join ls.
Proof.
  intros Hp Hm Hne Hls Hr.
  rewrite (apply_rule_linewise rl r' (fun l => l) ls Hp Hm Hne Hls).
  - now rewrite map_id.
  - intros l q rest Hl _ Hrest. left. split; [now apply Hr | reflexivity].
Qed.

Lemma first_cls ml neg items c p s cs :
  class_mem neg items c = true ->
  first ml (Cls neg items) (MState p (c :: s) cs) (MState (c :: p) s cs).
Proof. intros H. exists []. cbn [m]. unfold eat. cbn [suf pre caps]. now rewrite H. Qed.

Lemma m_neglook_nil ml r st st' : first ml r st st' -> m ml (NegLook r) st = [].
Proof. intros [l H]. cbn [m]. now rewrite H. Qed.

Lemma trim_start_id a s : isSpace a = false -> trim_start (a :: s) = a :: s.
Proof. intros H. simpl. now rewrite H. Qed.

Lemma trim_id a s b :
  isSpace a = false -> isSpace b = false -> trim (a :: s ++ [b]) = a :: s ++ [b].
Proof.
  intros Ha Hb. unfold trim, trim_end. rewrite trim_start_id by exact Ha.
  assert (E : rev (a :: s ++ [b]) = b :: rev (a :: s)).
  { change (a :: s ++ [b]) with ((a :: s) ++ [b]). now rewrite rev_app_distr. }
  rewrite E, trim_start_id by exact Hb. rewrite <- E. apply rev_involutive.
Qed.

End Runtime.

(* ===================================================================== *)
(** ** Protection of code spans *)
(* ===================================================================== *)

Section CodeSpans.

(** C1 (the code departs from the claim).  The content of a code span is
    not rendered verbatim: the placeholder that stands for it is itself of
    the form ___x___, the bold-italic rule rewrites it before the
    restoration step looks for it, and the content is lost.  On the input
    of one inline code span holding <tag>, parse returns the mangled
    placeholder and not <code>&lt;tag&gt;</code>. *)
Theorem parse_inline_code_lost :
  parse (lit "`<tag>`") = lit "<strong><em>INLINE<em>CODE</em>0</em></strong>"
  /\ parse (lit "`<tag>`") <> lit "<code>&lt;tag&gt;</code>"
  /\ restore_inline (lit "`<tag>`") = lit "<code>&lt;tag&gt;</code>".
Proof. vm_compute. repeat split. discriminate. Qed.

(** C2 (the code departs from the claim).  Placeholders are matched by an
    inline rule between protection and restoration: the pattern
    /___(.+?)___/g of the rule list rewrites both kinds of placeholder, so
    that no placeholder is left for the restoration to replace, for
    fenced blocks as for inline spans. *)
Theorem placeholder_rewritten_by_rule :
  let fence := lit "```js" ++ [nl] ++ lit "x<y" ++ [nl] ++ lit "```" in
  protect re_fence "CODE_BLOCK" fence = (lit "___CODE_BLOCK_0___", [fence])
  /\ protect re_tick "INLINE_CODE" (lit "`a`") = (lit "___INLINE_CODE_0___", [lit "`a`"])
  /\ apply_rule (span_rule "___" "<strong><em>" "</em></strong>") (lit "___CODE_BLOCK_0___")
     = lit "<strong><em>CODE_BLOCK_0</em></strong>"
  /\ apply_rule (span_rule "___" "<strong><em>" "</em></strong>") (lit "___INLINE_CODE_0___")
     = lit "<strong><em>INLINE_CODE_0</em></strong>"
  /\ occursb (lit "___CODE_BLOCK_0___")
       (fold_left (fun html rl => apply_rule rl html) initializeRules
                  (lit "___CODE_BLOCK_0___")) = false
  /\ parse fence = lit "<strong><em>CODE<em>BLOCK</em>0</em></strong>".
Proof. vm_compute. repeat split. Qed.

End CodeSpans.

(* ===================================================================== *)
(** ** Links, images and task items *)
(* ===================================================================== *)

Section InlineAndTasks.

(** C3 (the code departs from the claim).  The link rule runs before the
    image rule and has no guard against a preceding exclamation mark: it
    rewrites the bracket text of an image, and the image rule finds
    nothing left to match.  Only an image with an empty alt text, which
    the link pattern cannot match, is rendered as <img>. *)
Theorem image_rendered_as_link :
  parse (lit "![alt](url)")
  = lit "<p>!<a href=" ++ [dq] ++ lit "url" ++ [dq] ++ lit ">alt</a></p>"
  /\ apply_rule image_rule (lit "![alt](url)")
     = lit "<img src=" ++ [dq] ++ lit "url" ++ [dq] ++ lit " alt="
       ++ [dq] ++ lit "alt" ++ [dq] ++ lit ">"
  /\ parse (lit "![](url)")
     = lit "<img src=" ++ [dq] ++ lit "url" ++ [dq] ++ lit " alt="
       ++ [dq] ++ [dq] ++ lit ">".
Proof. vm_compute. repeat split. Qed.

(** C4 (the code departs from the claim).  The task pattern accepts a
    blank or a lower-case x between the brackets only, although its
    callback lower-cases the captured character before the comparison: a
    line with an upper-case X is rendered as a plain list item.  With the
    lower-case x and with a blank the rule applies as the claim says. *)
Theorem task_upper_case_x_not_matched :
  parse (lit "- [X] item") = lit "<ul><li>[X] item</li></ul>"
  /\ parse (lit "- [x] item") = task_item true (lit "item")
  /\ parse (lit "- [x] done" ++ [nl] ++ lit "- [ ] todo")
     = task_item true (lit "done") ++ [nl] ++ task_item false (lit "todo").
Proof. vm_compute. repeat split. Qed.

End InlineAndTasks.

(* ===================================================================== *)
(** ** Tables *)
(* ===================================================================== *)

Section Tables.

Lemma forEach_append_pieces body : forall xs i acc,
  forEach_append body i xs acc = acc ++ concat (forEach_pieces body i xs).
Proof.
  induction xs as [|x xs IH]; intros i acc; simpl.
  - now rewrite app_nil_r.
  - now rewrite IH, <- app_assoc.
Qed.

Lemma forEach_pieces_length body : forall xs i,
  length (forEach_pieces body i xs) = length xs.
Proof. induction xs as [|x xs IH]; intros i; simpl; [reflexivity | now rewrite IH]. Qed.

Lemma forEach_pieces_nth body : forall xs i k x,
  nth_error xs k = Some x ->
  nth_error (forEach_pieces body i xs) k = Some (body (i + k)%nat x).
Proof.
  induction xs as [|y xs IH]; intros i k x; destruct k as [|k]; simpl; try discriminate.
  - intros [= ->]. now rewrite Nat.add_0_r.
  - intros H. rewrite (IH (S i) k x H). now rewrite Nat.add_succ_r.
Qed.

Lemma row_html_acc alignments row acc :
  row_html alignments row acc = acc ++ row_html alignments row [].
Proof.
  destruct row as [|c row]; [now rewrite app_nil_r|].
  unfold row_html. rewrite !forEach_append_pieces. now rewrite <- !app_assoc.
Qed.

Lemma fold_rows alignments : forall rows acc,
  fold_left (fun acc row => row_html alignments row acc) rows acc
  = acc ++ flat_map (fun row => row_html alignments row []) rows.
Proof.
  induction rows as [|row rows IH]; intros acc; simpl.
  - now rewrite app_nil_r.
  - rewrite IH, (row_html_acc alignments row acc). now rewrite <- app_assoc.
Qed.

(** C5, the counterexample: a body row with three cells under a header of
    two columns is rendered with three <td> elements. *)
Lemma extra_cells_not_dropped :
  ~ (count_sub (lit "<td>") (parseTables wide_row_table)
     <= count_sub (lit "<th>") (parseTables wide_row_table))%nat.
Proof.
  assert (E : count_sub (lit "<td>") (parseTables wide_row_table) = 3%nat)
    by (vm_compute; reflexivity).
  assert (E' : count_sub (lit "<th>") (parseTables wide_row_table) = 2%nat)
    by (vm_compute; reflexivity).
  rewrite E, E'. lia.
Qed.

(** The body of a table is the concatenation of its rows, and a row is
    rendered cell by cell, whatever the headers are. *)
Lemma table_html_rows (headers alignments : list str) (rows : list (list str)) :
  table_html headers alignments rows
  = table_head headers alignments
    ++ flat_map (body_row alignments) rows
    ++ lit "</tbody>" ++ [nl] ++ lit "</table>".
Proof.
  unfold table_html, table_head.
  rewrite fold_rows, forEach_append_pieces.
  rewrite (flat_map_ext (fun row => row_html alignments row []) (body_row alignments)).
  - now rewrite <- !app_assoc.
  - intros [|c row]; [reflexivity|].
    unfold row_html, body_row. rewrite forEach_append_pieces. now rewrite <- !app_assoc.
Qed.

(** *** Runs of rows *)

Lemma row_shape_inv l :
  row_shape l = true -> exists body, l = 124 :: body ++ [124] /\ all dot body.
Proof.
  destruct l as [|c0 l]; [discriminate|]. unfold row_shape.
  destruct (N.eqb_spec c0 124) as [->|Hc].
  2:{ intros H. exfalso. destruct c0 as [|c0]; [discriminate|].
      do 7 (destruct c0 as [c0|c0|]; try discriminate). now apply Hc. }
  destruct l as [|c rest]; [discriminate|].
  rewrite andb_true_iff, N.eqb_eq. intros [Hdot Hlast].
  destruct (exists_last (l := c :: rest)) as [body [x E]]; [discriminate|].
  rewrite E in *. rewrite last_last in Hlast. subst x.
  exists body. split; [reflexivity|].
  cbn [forallb] in Hdot. apply andb_true_iff in Hdot. destruct Hdot as [_ Hdot].
  rewrite forallb_app in Hdot. now apply andb_true_iff in Hdot.
Qed.

End Tables.

(* ===================================================================== *)
(** ** Inline code in table cells *)
(* ===================================================================== *)

Section CellCode.

Lemma inert_not_in c x :
  inline_inert c = true -> existsb (N.eqb x) (lit "`*_~[") = true -> ~ In x c.
Proof.
  unfold inline_inert. rewrite forallb_forall. intros H Hx Hin.
  apply H in Hin. now rewrite Hx in Hin.
Qed.

Lemma not_in_all_but x c : ~ In x c -> all (class_mem true [CChar x]) c.
Proof.
  unfold all. rewrite forallb_forall. intros H y Hy. unfold class_mem; simpl.
  rewrite orb_false_r. destruct (N.eqb_spec y x) as [->|]; [contradiction | reflexivity].
Qed.

Lemma code_rule_on_span c :
  c <> [] -> ~ In 96 c ->
  apply_rule inline_code_rule (96 :: c ++ [96]) = lit "<code>" ++ c ++ lit "</code>".
Proof.
  intros Hne Hno. destruct c as [|c0 run]; [contradiction|].
  set (c := c0 :: run) in *.
  pose proof (first_plus_run false true [CChar 96] c0 run [96] [96] []
                (not_in_all_but 96 c Hno) eq_refl) as F.
  apply (first_group false 1) in F. cbn [pre suf caps] in F.
  rewrite (span_app [96] c [96] []) in F by reflexivity.
  assert (M : match_at false re_inline_code [] (96 :: c ++ [96])
              = Some (MState (96 :: rev c ++ [96]) [] [(1%nat, c)])).
  { apply first_match_at.
    change re_inline_code
      with (Seq (Str [96]) (Seq (Group 1 (Plus true (Cls true [CChar 96]))) (Str [96]))).
    eapply first_seq; [apply (first_str false [96] [] (c ++ [96]) [])|].
    eapply first_seq; [exact F|].
    apply (first_str false [96] (rev c ++ [96]) [] [(1%nat, c)]). }
  unfold apply_rule, replace_tpl, replace_fn, replace_st. cbn [repl inline_code_rule pattern flag_m].
  rewrite (replace_from_match _ _ _ _ _ _ _ _ 96 (c ++ [96]) M).
  - cbn [fst snd pre suf]. rewrite replace_from_nil by reflexivity.
    cbn [fst]. unfold expand, cap. cbn [caps flat_map assoc Nat.eqb].
    now rewrite !app_nil_r.
  - now apply span_all.
Qed.

(** C9, the counterexample: the emphasis rules run before the code rule
    and rewrite the content of the span. *)
Lemma parseInline_code_not_verbatim :
  parseInline (lit "`" ++ lit "*a*" ++ lit "`") <> lit "<code>" ++ lit "*a*" ++ lit "</code>".
Proof. vm_compute. discriminate. Qed.

(** C9, as amended.  For every cell text made of a backtick, a nonempty
    content without backtick, asterisk, underscore, tilde or opening
    bracket, and a backtick, parseInline returns the content between
    <code> tags as it is: nothing is escaped, whichever of the characters
    & < > and the two quotes the content holds. *)
Theorem parseInline_code_unescaped :
  forall c : str,
    c <> [] -> inline_inert c = true ->
    parseInline (lit "`" ++ c ++ lit "`") = lit "<code>" ++ c ++ lit "</code>".
Proof.
  intros c Hne Hin.
  assert (N96 : ~ In 96 c) by (apply (inert_not_in c 96 Hin); reflexivity).
  assert (N42 : ~ In 42 (96 :: c ++ [96])).
  { cbn [In]. rewrite in_app_iff. cbn [In].
    pose proof (inert_not_in c 42 Hin eq_refl). intros [?|[?|[?|[]]]]; try discriminate. tauto. }
  assert (N95 : ~ In 95 (96 :: c ++ [96])).
  { cbn [In]. rewrite in_app_iff. cbn [In].
    pose proof (inert_not_in c 95 Hin eq_refl). intros [?|[?|[?|[]]]]; try discriminate. tauto. }
  assert (N126 : ~ In 126 (96 :: c ++ [96])).
  { cbn [In]. rewrite in_app_iff. cbn [In].
    pose proof (inert_not_in c 126 Hin eq_refl). intros [?|[?|[?|[]]]]; try discriminate. tauto. }
  assert (N91 : ~ In 91 (lit "<code>" ++ c ++ lit "</code>")).
  { rewrite !in_app_iff. pose proof (inert_not_in c 91 Hin eq_refl).
    intros [H1|[H1|H1]]; [|tauto|]; vm_compute in H1; intuition discriminate. }
  change (lit "`" ++ c ++ lit "`") with (96 :: c ++ [96]).
  unfold parseInline, inlineRules. cbn [fold_left].
  rewrite (apply_rule_no_char 42 (span_rule "***" _ _)); [|reflexivity|exact N42].
  rewrite (apply_rule_no_char 95 (span_rule "___" _ _)); [|reflexivity|exact N95].
  rewrite (apply_rule_no_char 42 (span_rule "**" _ _)); [|reflexivity|exact N42].
  rewrite (apply_rule_no_char 95 (span_rule "__" _ _)); [|reflexivity|exact N95].
  rewrite (apply_rule_no_char 42 (span_rule "*" _ _)); [|reflexivity|exact N42].
  rewrite (apply_rule_no_char 95 (span_rule "_" _ _)); [|reflexivity|exact N95].
  rewrite (apply_rule_no_char 126 (span_rule "~~" _ _)); [|reflexivity|exact N126].
  rewrite (code_rule_on_span c Hne N96).
  apply (apply_rule_no_char 91 link_rule); [reflexivity | exact N91].
Qed.

Lemma parseInline_code_unescaped_witness :
  parseInline (lit "`" ++ lit "<a&b>" ++ lit "`") = lit "<code>" ++ lit "<a&b>" ++ lit "</code>".
Proof.
  apply (parseInline_code_unescaped (lit "<a&b>")); [discriminate | reflexivity].
Defined.

End CellCode.

(* ===================================================================== *)
(** ** Lists *)
(* ===================================================================== *)

Ltac in_list := cbn [In]; repeat (first [left; reflexivity | right]).

Section Lists.

Lemma plain_item_inv it :
  plain_item it = true ->
  exists c run, it = c :: run /\ isSpace c = false /\ forallb plain_char it = true.
Proof.
  destruct it as [|c run]; [discriminate|]. unfold plain_item.
  rewrite andb_true_iff, negb_true_iff. intros [H1 H2]. now exists c, run.
Qed.

Lemma plain_dot it : forallb plain_char it = true -> all dot it.
Proof.
  unfold all. rewrite !forallb_forall. intros H x Hx. apply H in Hx.
  unfold plain_char in Hx. now apply andb_true_iff in Hx.
Qed.

Lemma plain_not_in x it :
  existsb (N.eqb x) (lit "`*_~[]|<") = true ->
  forallb plain_char it = true -> ~ In x it.
Proof.
  rewrite forallb_forall. intros Hx H Hin. apply H in Hin.
  unfold plain_char in Hin. apply andb_true_iff in Hin. destruct Hin as [_ Hin].
  now rewrite Hx in Hin.
Qed.

Lemma plain_first_other x it :
  existsb (N.eqb x) (lit "`*_~[]|<") = true ->
  forallb plain_char it = true ->
  forallb (fun c => negb (x =? c)) it = true.
Proof.
  intros Hx H. apply forallb_forall. intros c Hc.
  destruct (N.eqb_spec x c) as [->|]; [|reflexivity].
  exfalso. now apply (plain_not_in c it Hx H).
Qed.

Lemma plain_items_ok items :
  Forall (fun it => plain_item it = true) items ->
  forall it, In it items ->
    exists c run, it = c :: run /\ isSpace c = false /\ forallb plain_char it = true.
Proof. rewrite Forall_forall. intros H it Hit. apply plain_item_inv. now apply H. Qed.

(** *** The text of the bullet lines *)

Lemma bullet_lines_no_char x items :
  Forall (fun it => plain_item it = true) items ->
  existsb (N.eqb x) (lit "`*_~[]|<") = true ->
  ~ In x (join (map bullet_line items)).
Proof.
  intros Hit Hx Hin. apply In_join in Hin. destruct Hin as [->|[l [Hl Hin]]].
  - discriminate.
  - apply in_map_iff in Hl. destruct Hl as [it [<- Hl]].
    destruct (plain_items_ok items Hit it Hl) as [c [run [_ [_ Hp]]]].
    unfold bullet_line in Hin. apply in_app_or in Hin. destruct Hin as [Hin|Hin].
    + vm_compute in Hin. destruct Hin as [<-|[<-|[]]]; discriminate.
    + now apply (plain_not_in x it Hx Hp).
Qed.

Lemma bullet_lines_ok items :
  Forall (fun it => plain_item it = true) items ->
  forall l, In l (map bullet_line items) -> l <> [] /\ all dot l.
Proof.
  intros Hit l Hl. apply in_map_iff in Hl. destruct Hl as [it [<- Hl]].
  destruct (plain_items_ok items Hit it Hl) as [c [run [_ [_ Hp]]]].
  split; [discriminate|]. unfold all, bullet_line. rewrite forallb_app.
  apply andb_true_iff. split; [reflexivity | now apply plain_dot].
Qed.

(** An anchored rule whose pattern fails on a hyphen followed by a blank
    does not change the bullet lines. *)
Lemma rule_skips_bullet_lines rl r' items :
  pattern rl = Seq Bol r' -> flag_m rl = true ->
  items <> [] ->
  Forall (fun it => plain_item it = true) items ->
  (forall q s, m true r' (MState q (45 :: 32 :: s) []) = []) ->
  apply_rule rl (join (map bullet_line items)) = join (map bullet_line items).
Proof.
  intros Hp Hm Hne Hit Hr.
  apply (apply_rule_no_line_match rl r' _ Hp Hm).
  - destruct items; [contradiction | discriminate].
  - now apply bullet_lines_ok.
  - intros l q rest Hl _. apply in_map_iff in Hl. destruct Hl as [it [<- _]].
    apply Hr.
Qed.

Lemma stops_space_plain c s : isSpace c = false -> stops (class_mem false [CSpace]) (c :: s).
Proof. intros H. unfold stops, class_mem. simpl. now rewrite H. Qed.

Lemma line_end_stops_dot rest : line_end rest -> stops dot rest.
Proof. intros [->|[more ->]]; reflexivity. Qed.

Lemma line_end_at_eol q rest cs : line_end rest -> at_eol true (MState q rest cs) = true.
Proof. intros [->|[more ->]]; reflexivity. Qed.

(** The task rule does not match a bullet line with a plain item. *)
Lemma task_rule_skips_bullet_lines items :
  items <> [] ->
  Forall (fun it => plain_item it = true) items ->
  apply_rule task_rule (join (map bullet_line items)) = join (map bullet_line items).
Proof.
  intros Hne Hit.
  apply (apply_rule_no_line_match task_rule
           (Seq bullet (Seq spaces1
              (cat [Chr (c_ "["); Group 1 (Cls false (set_ " x")); Chr (c_ "]");
                    spaces1; Group 2 (Plus true Dot); Eol])))
           _ eq_refl eq_refl).
  - destruct items; [contradiction | discriminate].
  - now apply bullet_lines_ok.
  - intros l q rest Hl _. apply in_map_iff in Hl. destruct Hl as [it [<- Hl]].
    destruct (plain_items_ok items Hit it Hl) as [c [run [-> [Hc Hp]]]].
    change (bullet_line (c :: run) ++ rest) with (45 :: 32 :: [] ++ c :: run ++ rest).
    rewrite (m_seq_single true bullet _ _ (MState (45 :: q) (32 :: [] ++ c :: run ++ rest) []))
      by reflexivity.
    rewrite (m_seq_single true spaces1 _ _ (MState (32 :: 45 :: q) (c :: run ++ rest) [])).
    + assert (E : (91 =? c) = false).
      { apply N.eqb_neq. intros <-.
        apply (plain_not_in 91 (91 :: run) eq_refl Hp). now left. }
      cbn [cat]. apply m_seq_nil, m_str_nil.
      change (prefixb [91] (c :: run ++ rest) = false).
      cbn [prefixb]. now rewrite E.
    + unfold spaces1.
      rewrite (m_plus_run true false [CSpace] 32 [] (45 :: q) (c :: run ++ rest) []);
        [reflexivity | reflexivity | now apply stops_space_plain].
Qed.

(** The list rule wraps every bullet line. *)
Lemma ul_rule_on_bullet_lines items :
  items <> [] ->
  Forall (fun it => plain_item it = true) items ->
  apply_rule ul_rule (join (map bullet_line items)) = join (map ul_item items).
Proof.
  intros Hne Hit. rewrite <- (map_map bullet_line (fun l => ul_item (skipn 2 l))).
  apply (apply_rule_linewise ul_rule (cat [bullet; spaces1; rest_of_line; Eol])
           (fun l => ul_item (skipn 2 l)) _ eq_refl eq_refl).
  - destruct items; [contradiction | discriminate].
  - now apply bullet_lines_ok.
  - intros l q rest Hl Hq Hrest. right.
    apply in_map_iff in Hl. destruct Hl as [it [<- Hl]].
    destruct (plain_items_ok items Hit it Hl) as [c [run [-> [Hc Hp]]]].
    change (bullet_line (c :: run) ++ rest) with (45 :: 32 :: [] ++ c :: run ++ rest).
    pose proof (first_plus_dot_run true c run (32 :: 45 :: q) rest []
                  (plain_dot _ Hp) (line_end_stops_dot rest Hrest)) as F.
    apply (first_group true 1) in F. cbn [pre suf caps] in F.
    rewrite (span_app (32 :: 45 :: q) (c :: run) rest []) in F by reflexivity.
    eexists. split; [|split; [|split]].
    + cbn [cat]. eapply first_seq; [apply first_cls; reflexivity|].
      eapply first_seq.
      { apply (first_plus_run true false [CSpace] 32 [] (45 :: q) (c :: run ++ rest) []);
          [reflexivity | now apply stops_space_plain]. }
      eapply first_seq; [exact F|].
      apply first_eol. now apply line_end_at_eol.
    + reflexivity.
    + cbn [pre]. unfold bullet_line. rewrite rev_app_distr, <- app_assoc. reflexivity.
    + reflexivity.
Qed.

(** The rules anchored at the start of the line that come before the list
    rule leave the bullet lines alone. *)
Lemma anchored_rules_skip_bullet_lines items rl :
  items <> [] ->
  Forall (fun it => plain_item it = true) items ->
  In rl [heading 6; heading 5; heading 4; heading 3; heading 2; heading 1;
         hr (c_ "-"); hr (c_ "*"); hr (c_ "_"); blockquote_rule] ->
  apply_rule rl (join (map bullet_line items)) = join (map bullet_line items).
Proof.
  intros Hne Hit Hin. cbn [In] in Hin.
  repeat (destruct Hin as [<-|Hin];
          [match goal with
           | |- apply_rule ?rl _ = _ =>
               apply (rule_skips_bullet_lines rl _ items eq_refl eq_refl Hne Hit)
           end; intros q s; reflexivity|]).
  destruct Hin.
Qed.

(** The rules that are not anchored need a character that the bullet
    lines do not have. *)
Lemma free_rules_skip_bullet_lines items rl :
  Forall (fun it => plain_item it = true) items ->
  In rl [span_rule "***" "<strong><em>" "</em></strong>";
         span_rule "___" "<strong><em>" "</em></strong>";
         span_rule "**" "<strong>" "</strong>";
         span_rule "__" "<strong>" "</strong>";
         span_rule "*" "<em>" "</em>";
         span_rule "_" "<em>" "</em>";
         span_rule "~~" "<del>" "</del>";
         code_block_rule; inline_code_rule; link_rule; image_rule] ->
  apply_rule rl (join (map bullet_line items)) = join (map bullet_line items).
Proof.
  intros Hit Hin. cbn [In] in Hin.
  assert (H : forall x, existsb (N.eqb x) (lit "`*_~[]|<") = true ->
                requires [x] (pattern rl) = true ->
                apply_rule rl (join (map bullet_line items)) = join (map bullet_line items)).
  { intros x Hx R. apply (apply_rule_no_char x rl _ R).
    now apply bullet_lines_no_char. }
  destruct Hin as [<-|Hin]; [now apply (H 42)|].
  destruct Hin as [<-|Hin]; [now apply (H 95)|].
  destruct Hin as [<-|Hin]; [now apply (H 42)|].
  destruct Hin as [<-|Hin]; [now apply (H 95)|].
  destruct Hin as [<-|Hin]; [now apply (H 42)|].
  destruct Hin as [<-|Hin]; [now apply (H 95)|].
  destruct Hin as [<-|Hin]; [now apply (H 126)|].
  destruct Hin as [<-|Hin]; [now apply (H 96)|].
  destruct Hin as [<-|Hin]; [now apply (H 96)|].
  destruct Hin as [<-|Hin]; [now apply (H 91)|].
  destruct Hin as [<-|Hin]; [now apply (H 91)|].
  destruct Hin.
Qed.

(** *** Consolidation of one-item lists *)

Lemma adjacent_ul : re_adjacent "ul" = adjacent 117.
Proof. reflexivity. Qed.

Lemma adjacent_ol : re_adjacent "ol" = adjacent 111.
Proof. reflexivity. Qed.

Lemma ul_item_list_item it : ul_item it = list_item 117 it.
Proof.
  unfold ul_item, list_item, li_item, open_tag, close_tag.
  change (lit "<ul><li>") with ([60; 117; 108; 62] ++ lit "<li>").
  change (lit "</li></ul>") with (lit "</li>" ++ [60; 47; 117; 108; 62]).
  now rewrite <- !app_assoc.
Qed.

Lemma ol_item_list_item it : ol_item it = list_item 111 it.
Proof.
  unfold ol_item, list_item, li_item, open_tag, close_tag.
  change (lit "<ol><li>") with ([60; 111; 108; 62] ++ lit "<li>").
  change (lit "</li></ol>") with (lit "</li>" ++ [60; 47; 111; 108; 62]).
  now rewrite <- !app_assoc.
Qed.

Lemma join_list_items t : forall items,
  items <> [] -> join (map (list_item t) items) = open_tag t ++ unmerged t items.
Proof.
  induction items as [|it items IH]; intros Hne; [contradiction|].
  destruct items as [|it' items].
  - cbn [map join unmerged]. unfold list_item. now rewrite app_nil_r.
  - cbn [map]. rewrite join_cons. cbn [map] in IH. rewrite IH by discriminate.
    cbn [unmerged]. unfold list_item. now rewrite <- !app_assoc.
Qed.

Lemma match_at_adjacent_other t p c s :
  (60 =? c) = false -> match_at false (adjacent t) p (c :: s) = None.
Proof.
  intros H. unfold match_at, adjacent, close_tag. cbn [m suf prefixb]. now rewrite H.
Qed.

Lemma adjacent_copy_plain t it p v :
  forallb plain_char it = true ->
  replace_pure false (adjacent t) (fun _ st => expand [] st) p (it ++ v)
  = it ++ replace_pure false (adjacent t) (fun _ st => expand [] st) (rev it ++ p) v.
Proof.
  intros Hp. apply replace_pure_copy. intros u1 c u2 E.
  apply match_at_adjacent_other. apply N.eqb_neq. intros <-.
  apply (plain_not_in 60 it eq_refl Hp). rewrite E. apply in_or_app. right. now left.
Qed.

Lemma adjacent_copy_li t it p v :
  (t =? 108) = false ->
  forallb plain_char it = true ->
  replace_pure false (adjacent t) (fun _ st => expand [] st) p (li_item it ++ v)
  = li_item it
    ++ replace_pure false (adjacent t) (fun _ st => expand [] st) (rev (li_item it) ++ p) v.
Proof.
  intros Ht Hp. unfold li_item. rewrite <- !app_assoc.
  change (lit "<li>" ++ it ++ lit "</li>" ++ v)
    with (60 :: 108 :: 105 :: 62 :: it ++ lit "</li>" ++ v).
  rewrite 4 replace_pure_skip by reflexivity.
  rewrite adjacent_copy_plain by exact Hp.
  change (lit "</li>" ++ v) with (60 :: 47 :: 108 :: 105 :: 62 :: v).
  rewrite replace_pure_skip.
  2:{ unfold match_at, adjacent, close_tag. cbn [m suf prefixb]. rewrite Ht.
      now rewrite !andb_false_r. }
  rewrite 4 replace_pure_skip by reflexivity.
  change (lit "<li>") with [60; 108; 105; 62]. change (lit "</li>") with [60; 47; 108; 105; 62].
  rewrite !rev_app_distr. cbn [rev app]. rewrite <- !app_assoc. reflexivity.
Qed.

Lemma match_at_adjacent_end t p :
  match_at false (adjacent t) p (close_tag t) = None.
Proof.
  unfold match_at, adjacent. rewrite m_group, m_seq.
  rewrite <- (app_nil_r (close_tag t)) at 2. rewrite m_str_app. cbn [flat_map].
  rewrite m_seq. unfold spaces0.
  pose proof (m_star_run false false [CSpace] [] (rev (close_tag t) ++ p) [] []
                eq_refl I) as E.
  cbn [app] in E. rewrite app_nil_r, E. reflexivity.
Qed.

Lemma adjacent_unmerged t :
  (t =? 108) = false -> (60 =? t) = false ->
  forall items p,
    items <> [] ->
    Forall (fun it => plain_item it = true) items ->
    replace_pure false (adjacent t) (fun _ st => expand [] st) p (unmerged t items)
    = flat_map li_item items ++ close_tag t.
Proof.
  intros Ht Ht60. induction items as [|it items IH]; intros p Hne Hit; [contradiction|].
  inversion Hit as [|x xs Hx Hxs]; subst.
  destruct (plain_item_inv it Hx) as [c [run [_ [_ Hp]]]].
  cbn [unmerged flat_map]. rewrite adjacent_copy_li by assumption.
  rewrite <- app_assoc. f_equal.
  set (q := rev (li_item it) ++ p).
  destruct items as [|it' items].
  - rewrite app_nil_r. cbn [flat_map app].
    pose proof (match_at_adjacent_end t q) as E. unfold close_tag in *.
    rewrite replace_pure_skip by exact E.
    rewrite replace_pure_skip by reflexivity.
    rewrite replace_pure_skip by now apply match_at_adjacent_other.
    rewrite 2 replace_pure_skip by reflexivity.
    now rewrite replace_pure_nil by reflexivity.
  - set (rest := unmerged t (it' :: items)).
    assert (F : first false (adjacent t)
                  (MState q (close_tag t ++ nl :: open_tag t ++ rest) [])
                  (MState (rev (open_tag t) ++ nl :: rev (close_tag t) ++ q) rest
                          [(1%nat, close_tag t ++ nl :: open_tag t)])).
    { unfold adjacent.
      assert (F0 : first false (Seq (Str (close_tag t)) (Seq spaces0 (Str (open_tag t))))
                     (MState q (close_tag t ++ nl :: open_tag t ++ rest) [])
                     (MState (rev (open_tag t) ++ nl :: rev (close_tag t) ++ q) rest [])).
      { eapply first_seq; [apply first_str|].
        eapply first_seq.
        - apply (first_star_run false false [CSpace] [nl] _ (open_tag t ++ rest) []);
            reflexivity.
        - apply first_str. }
      apply (first_group false 1) in F0. cbn [pre suf caps] in F0.
      replace (span (MState q (close_tag t ++ nl :: open_tag t ++ rest) [])
                    (MState (rev (open_tag t) ++ nl :: rev (close_tag t) ++ q) rest []))
        with (close_tag t ++ nl :: open_tag t) in F0; [exact F0|].
      symmetry.
      change (close_tag t ++ nl :: open_tag t ++ rest)
        with ((close_tag t ++ nl :: open_tag t) ++ rest).
      now apply span_app. }
    rewrite (replace_pure_match false _ _ q _ _ F).
    + cbn [pre suf]. unfold expand at 1. cbn [flat_map app].
      unfold rest. apply IH; [discriminate | exact Hxs].
    + cbn [suf]. rewrite !length_app. simpl. lia.
Qed.

(** consolidateLists merges the one-item lists of one kind that follow
    each other. *)
Lemma replace_adjacent_merges t items :
  (t =? 108) = false -> (47 =? t) = false -> (60 =? t) = false ->
  items <> [] ->
  Forall (fun it => plain_item it = true) items ->
  replace_tpl false (adjacent t) [] (join (map (list_item t) items))
  = open_tag t ++ flat_map li_item items ++ close_tag t.
Proof.
  intros Ht Ht' Ht60 Hne Hit. rewrite join_list_items by exact Hne.
  unfold replace_tpl. rewrite replace_fn_pure. unfold open_tag.
  cbn [app]. rewrite replace_pure_skip.
  2:{ unfold match_at, adjacent, close_tag. cbn [m suf prefixb]. rewrite Ht'.
      now rewrite !andb_false_r. }
  rewrite replace_pure_skip by now apply match_at_adjacent_other.
  rewrite 2 replace_pure_skip by reflexivity.
  now rewrite adjacent_unmerged.
Qed.

(** *** Lines that begin with a tag *)

Lemma rule_skips_tag_lines rl r' ls :
  pattern rl = Seq Bol r' -> flag_m rl = true ->
  ls <> [] ->
  (forall l, In l ls -> l <> [] /\ all dot l) ->
  (forall l, In l ls -> tag_line l) ->
  (forall q s, m true r' (MState q (60 :: s) []) = []) ->
  apply_rule rl (join ls) = join ls.
Proof.
  intros Hp Hm Hne Hls Htag Hr.
  apply (apply_rule_no_line_match rl r' _ Hp Hm Hne Hls).
  intros l q rest Hl _. destruct (Htag l Hl) as [c [run [s [-> _]]]]. apply Hr.
Qed.

Lemma paragraph_rule_skips_tag_lines ls :
  ls <> [] ->
  (forall l, In l ls -> l <> [] /\ all dot l) ->
  (forall l, In l ls -> tag_line l) ->
  apply_rule paragraph_rule (join ls) = join ls.
Proof.
  intros Hne Hls Htag.
  apply (apply_rule_no_line_match paragraph_rule
           (Seq (NegLook (cat [Chr (c_ "<"); Plus true (not_ ">"); Chr (c_ ">")]))
                (cat [Group 1 (Plus true (Cls true [CChar nl])); Eol]))
           _ eq_refl eq_refl Hne Hls).
  intros l q rest Hl _. destruct (Htag l Hl) as [c [run [s [-> Hall]]]].
  apply m_seq_nil.
  apply m_neglook_nil with (st' := MState (62 :: rev (c :: run) ++ 60 :: q) (s ++ rest) []).
  cbn [cat]. change (Chr (c_ "<")) with (Str [60]). change (Chr (c_ ">")) with (Str [62]).
  change (not_ ">") with (Cls true [CChar 62]).
  eapply first_seq.
  { apply (first_str true [60] q (((c :: run) ++ 62 :: s) ++ rest) []). }
  eapply first_seq.
  { rewrite <- app_assoc.
    apply (first_plus_run true true [CChar 62] c run (60 :: q) ((62 :: s) ++ rest) []);
      [exact Hall | reflexivity]. }
  apply (first_str true [62] (rev (c :: run) ++ 60 :: q) (s ++ rest) []).
Qed.

Lemma list_item_lines_ok t items :
  dot t = true -> (t =? 62) = false ->
  Forall (fun it => plain_item it = true) items ->
  forall l, In l (map (list_item t) items) -> (l <> [] /\ all dot l) /\ tag_line l.
Proof.
  intros Ht Ht' Hit l Hl. apply in_map_iff in Hl. destruct Hl as [it [<- Hl]].
  destruct (plain_items_ok items Hit it Hl) as [c [run [_ [_ Hp]]]].
  repeat split.
  - discriminate.
  - unfold all, list_item, li_item, open_tag, close_tag. rewrite !forallb_app.
    cbn [forallb]. rewrite Ht. change (forallb dot (lit "<li>")) with true.
    change (forallb dot (lit "</li>")) with true.
    pose proof (plain_dot it Hp) as Hd. unfold all in Hd. rewrite Hd. reflexivity.
  - exists t, [108], (li_item it ++ close_tag t). split; [reflexivity|].
    unfold all, class_mem. cbn [forallb existsb citem_mem]. now rewrite Ht'.
Qed.

(** *** Texts in which a pattern finds nothing to start from *)

Lemma scan_li w it :
  hd 0 w = 60 -> w <> [] ->
  scan w 0 (lit "<li>") = 0%nat -> scan w 0 (lit "</li>") = 0%nat ->
  forallb plain_char it = true ->
  scan w 0 (li_item it) = 0%nat.
Proof.
  intros Hw Hne H1 H2 Hp. unfold li_item. rewrite !scan_app, H1.
  rewrite scan_other; [exact H2 | | exact Hne].
  rewrite Hw. now apply plain_first_other.
Qed.

Lemma scan_items w items :
  hd 0 w = 60 -> w <> [] ->
  scan w 0 (lit "<li>") = 0%nat -> scan w 0 (lit "</li>") = 0%nat ->
  Forall (fun it => plain_item it = true) items ->
  scan w 0 (flat_map li_item items) = 0%nat.
Proof.
  intros Hw Hne H1 H2 Hit. induction Hit as [|it items Hx _ IH]; [reflexivity|].
  destruct (plain_item_inv it Hx) as [c [run [_ [_ Hp]]]].
  cbn [flat_map]. rewrite scan_app, scan_li by assumption. exact IH.
Qed.

Lemma merged_free w t items :
  recognises w = true ->
  hd 0 w = 60 -> w <> [] ->
  scan w 0 (open_tag t) = 0%nat ->
  scan w 0 (lit "<li>") = 0%nat -> scan w 0 (lit "</li>") = 0%nat ->
  scan w 0 (close_tag t) <> length w ->
  Forall (fun it => plain_item it = true) items ->
  ~ occurs w (open_tag t ++ flat_map li_item items ++ close_tag t).
Proof.
  intros R Hw Hne H0 H1 H2 H3 Hit. apply free_of_absent; [exact R|].
  unfold free_of. now rewrite !scan_app, H0, scan_items.
Qed.

(** *** The pipeline of parse on a nonempty document *)

Lemma parse_steps md html1 codeBlocks html2 inlineCode :
  md <> [] ->
  protect re_fence "CODE_BLOCK" md = (html1, codeBlocks) ->
  protect re_tick "INLINE_CODE" html1 = (html2, inlineCode) ->
  parse md
  = trim (consolidateBlockquotes (consolidateLists
      (restore "INLINE_CODE" restore_inline 0 inlineCode
         (restore "CODE_BLOCK" restore_block 0 codeBlocks
            (fold_left (fun html rl => apply_rule rl html) initializeRules
                       (parseTables html2)))))).
Proof.
  intros Hne H1 H2. destruct md as [|c md]; [contradiction|].
  unfold parse. now rewrite H1, H2.
Qed.

Lemma protect_no_tick re kind s :
  requires [96] re = true -> ~ In 96 s -> protect re kind s = (s, []).
Proof.
  intros R H. unfold protect. apply replace_st_absent with [96]; [exact R|].
  now rewrite occurs_single.
Qed.

Lemma parseTables_no_pipe s : ~ In 124 s -> parseTables s = s.
Proof.
  intros H. unfold parseTables. apply replace_fn_absent with [124]; [reflexivity|].
  now rewrite occurs_single.
Qed.

(** The rule list turns plain bullet lines into one-item lists. *)
Lemma rules_on_bullet_lines items :
  items <> [] ->
  Forall (fun it => plain_item it = true) items ->
  fold_left (fun html rl => apply_rule rl html) initializeRules
            (join (map bullet_line items))
  = join (map (list_item 117) items).
Proof.
  intros Hne Hit. unfold initializeRules. cbn [fold_left].
  rewrite (anchored_rules_skip_bullet_lines items (heading 6) Hne Hit) by in_list.
  rewrite (anchored_rules_skip_bullet_lines items (heading 5) Hne Hit) by in_list.
  rewrite (anchored_rules_skip_bullet_lines items (heading 4) Hne Hit) by in_list.
  rewrite (anchored_rules_skip_bullet_lines items (heading 3) Hne Hit) by in_list.
  rewrite (anchored_rules_skip_bullet_lines items (heading 2) Hne Hit) by in_list.
  rewrite (anchored_rules_skip_bullet_lines items (heading 1) Hne Hit) by in_list.
  rewrite (anchored_rules_skip_bullet_lines items (hr (c_ "-")) Hne Hit) by in_list.
  rewrite (anchored_rules_skip_bullet_lines items (hr (c_ "*")) Hne Hit) by in_list.
  rewrite (anchored_rules_skip_bullet_lines items (hr (c_ "_")) Hne Hit) by in_list.
  rewrite (free_rules_skip_bullet_lines items (span_rule "***" _ _) Hit) by in_list.
  rewrite (free_rules_skip_bullet_lines items (span_rule "___" _ _) Hit) by in_list.
  rewrite (free_rules_skip_bullet_lines items (span_rule "**" _ _) Hit) by in_list.
  rewrite (free_rules_skip_bullet_lines items (span_rule "__" _ _) Hit) by in_list.
  rewrite (free_rules_skip_bullet_lines items (span_rule "*" _ _) Hit) by in_list.
  rewrite (free_rules_skip_bullet_lines items (span_rule "_" _ _) Hit) by in_list.
  rewrite (free_rules_skip_bullet_lines items (span_rule "~~" _ _) Hit) by in_list.
  rewrite (free_rules_skip_bullet_lines items code_block_rule Hit) by in_list.
  rewrite (free_rules_skip_bullet_lines items inline_code_rule Hit) by in_list.
  rewrite (free_rules_skip_bullet_lines items link_rule Hit) by in_list.
  rewrite (free_rules_skip_bullet_lines items image_rule Hit) by in_list.
  rewrite (anchored_rules_skip_bullet_lines items blockquote_rule Hne Hit) by in_list.
  rewrite (task_rule_skips_bullet_lines items Hne Hit).
  rewrite (ul_rule_on_bullet_lines items Hne Hit).
  rewrite (map_ext ul_item (list_item 117) ul_item_list_item).
  assert (Hls : forall l, In l (map (list_item 117) items) ->
                          (l <> [] /\ all dot l) /\ tag_line l)
    by (apply list_item_lines_ok; [reflexivity | reflexivity | exact Hit]).
  assert (Hne' : map (list_item 117) items <> [])
    by (destruct items; [contradiction | discriminate]).
  rewrite (rule_skips_tag_lines ol_rule
             (cat [Plus true (Cls false [CDigit]); Chr (c_ "."); spaces1;
                   rest_of_line; Eol]) _ eq_refl eq_refl Hne');
    [| intros l Hl; apply (Hls l Hl) | intros l Hl; apply (Hls l Hl)
     | intros q s; reflexivity].
  apply paragraph_rule_skips_tag_lines;
    [exact Hne' | intros l Hl; apply (Hls l Hl) | intros l Hl; apply (Hls l Hl)].
Qed.

Lemma scan_join w ls :
  (forall l, In l ls -> scan w 0 l = 0%nat) -> scan w 0 [nl] = 0%nat ->
  scan w 0 (join ls) = 0%nat.
Proof.
  intros H Hnl. induction ls as [|l ls IH]; [reflexivity|].
  destruct ls as [|l' ls].
  - apply H. now left.
  - rewrite join_cons. change (l ++ nl :: join (l' :: ls)) with (l ++ [nl] ++ join (l' :: ls)).
    rewrite !scan_app, (H l (or_introl eq_refl)), Hnl. apply IH.
    intros l0 H0. apply H. now right.
Qed.

Lemma consolidateLists_ul items :
  items <> [] ->
  Forall (fun it => plain_item it = true) items ->
  consolidateLists (join (map (list_item 117) items))
  = open_tag 117 ++ flat_map li_item items ++ close_tag 117.
Proof.
  intros Hne Hit. unfold consolidateLists.
  rewrite adjacent_ul, (replace_adjacent_merges 117 items) by (reflexivity || assumption).
  unfold replace_tpl. apply replace_fn_absent with (lit "</o"); [reflexivity|].
  apply merged_free; try reflexivity; try discriminate; assumption.
Qed.

Lemma consolidateLists_ol items :
  items <> [] ->
  Forall (fun it => plain_item it = true) items ->
  consolidateLists (join (map (list_item 111) items))
  = open_tag 111 ++ flat_map li_item items ++ close_tag 111.
Proof.
  intros Hne Hit. unfold consolidateLists.
  assert (E : replace_tpl false (re_adjacent "ul") [] (join (map (list_item 111) items))
              = join (map (list_item 111) items)).
  { unfold replace_tpl. apply replace_fn_absent with (lit "</u"); [reflexivity|].
    apply free_of_absent; [reflexivity|]. unfold free_of.
    rewrite scan_join; [discriminate | | reflexivity].
    intros l Hl. apply in_map_iff in Hl. destruct Hl as [it [<- Hl]].
    destruct (plain_items_ok items Hit it Hl) as [c [run [_ [_ Hp]]]].
    unfold list_item. rewrite !scan_app.
    change (scan (lit "</u") 0 (open_tag 111)) with 0%nat.
    now rewrite scan_li. }
  rewrite E, adjacent_ol. apply replace_adjacent_merges; (reflexivity || assumption).
Qed.

Lemma consolidateBlockquotes_merged t items :
  scan (lit "</b") 0 (open_tag t) = 0%nat ->
  scan (lit "</b") 0 (close_tag t) <> 3%nat ->
  Forall (fun it => plain_item it = true) items ->
  consolidateBlockquotes (open_tag t ++ flat_map li_item items ++ close_tag t)
  = open_tag t ++ flat_map li_item items ++ close_tag t.
Proof.
  intros H0 H3 Hit. unfold consolidateBlockquotes, replace_tpl.
  apply replace_fn_absent with (lit "</b"); [reflexivity|].
  apply merged_free; try reflexivity; try discriminate; assumption.
Qed.

Lemma trim_merged t items :
  trim (open_tag t ++ flat_map li_item items ++ close_tag t)
  = open_tag t ++ flat_map li_item items ++ close_tag t.
Proof.
  replace (open_tag t ++ flat_map li_item items ++ close_tag t)
    with (60 :: ([t; 108; 62] ++ flat_map li_item items ++ [60; 47; t; 108]) ++ [62])
    by (unfold open_tag, close_tag; rewrite <- !app_assoc; reflexivity).
  now apply trim_id.
Qed.

Lemma bullet_lines_nonempty items :
  items <> [] -> join (map bullet_line items) <> [].
Proof.
  destruct items as [|it items]; [contradiction|]. intros _.
  destruct items; discriminate.
Qed.

Lemma parse_bullet_lines items :
  items <> [] ->
  Forall (fun it => plain_item it = true) items ->
  parse (join (map bullet_line items))
  = lit "<ul>" ++ flat_map li_item items ++ lit "</ul>".
Proof.
  intros Hne Hit.
  assert (H96 : ~ In 96 (join (map bullet_line items)))
    by now apply bullet_lines_no_char.
  assert (H124 : ~ In 124 (join (map bullet_line items)))
    by now apply bullet_lines_no_char.
  rewrite (parse_steps (join (map bullet_line items)) _ [] _ []
             (bullet_lines_nonempty items Hne)
             (protect_no_tick re_fence "CODE_BLOCK" _ eq_refl H96)
             (protect_no_tick re_tick "INLINE_CODE" _ eq_refl H96)).
  rewrite (parseTables_no_pipe _ H124), (rules_on_bullet_lines items Hne Hit).
  cbn [restore]. rewrite (consolidateLists_ul items Hne Hit).
  rewrite consolidateBlockquotes_merged by (reflexivity || discriminate || assumption).
  apply trim_merged.
Qed.



End Lists.

(* ===================================================================== *)
(** ** Task lists *)
(* ===================================================================== *)

Section TaskLists.








(** *** The rules on task lines *)




(** *** The rendered task lines *)






Lemma join_bracketed a b : forall ls,
  ls <> [] ->
  (forall l, In l ls -> exists s, l = a :: s ++ [b]) ->
  exists s, join ls = a :: s ++ [b].
Proof.
  induction ls as [|l ls IH]; intros Hne H; [contradiction|].
  destruct (H l (or_introl eq_refl)) as [s ->].
  destruct ls as [|l' ls].
  - now exists s.
  - destruct IH as [s' E]; [discriminate | intros l0 H0; apply H; now right|].
    rewrite join_cons, E. exists (s ++ [b] ++ nl :: a :: s').
    cbn [app]. now rewrite <- !app_assoc.
Qed.






End TaskLists.

(* ===================================================================== *)
(** ** Runs of table rows without a separator line *)
(* ===================================================================== *)

Section TableRuns.

Lemma greedy_stops_snoc : forall run p c rest cs,
  greedy_stops p (run ++ [c]) rest cs
  = MState (c :: rev run ++ p) rest cs :: greedy_stops p run (c :: rest) cs.
Proof.
  induction run as [|x run IH]; intros p c rest cs.
  - reflexivity.
  - cbn [app greedy_stops rev]. rewrite IH. rewrite <- !app_assoc. reflexivity.
Qed.

Lemma not_lt_chars c : dot c = true -> (10 =? c) = false /\ (13 =? c) = false.
Proof.
  unfold dot, isLineTerminator. rewrite negb_true_iff, !orb_false_iff.
  intros [[[H1 H2] _] _]. now rewrite !(N.eqb_sym _ c).
Qed.

(** The optional line break behind a row. *)
Lemma m_break_end p cs :
  m true (Opt (Alt (Seq (Opt (Chr cr)) (Chr nl)) (Chr cr))) (MState p [] cs)
  = [MState p [] cs].
Proof. reflexivity. Qed.

Lemma m_break_nl p more :
  exists l,
    m true (Opt (Alt (Seq (Opt (Chr cr)) (Chr nl)) (Chr cr))) (MState p (nl :: more) [])
    = MState (nl :: p) more [] :: l.
Proof.
  cbn [m groups app]. unfold clear_caps. cbn [pre suf caps filter].
  cbn [Chr m suf prefixb N.eqb Pos.eqb cr nl andb filter app flat_map progress].
  unfold step_over. cbn [advance pre suf caps].
  replace (progress (MState p (nl :: more) []) (MState (nl :: p) more [])) with true
    by (symmetry; unfold progress; apply Nat.ltb_lt; simpl; lia).
  eexists. reflexivity.
Qed.

(** A row pattern consumes a whole line of the shape of a row and the
    line feed behind it. *)
Lemma first_row_last body p :
  all dot body ->
  first true re_row (MState p (124 :: body ++ [124]) [])
        (MState (rev (124 :: body ++ [124]) ++ p) [] []).
Proof.
  intros Hb. unfold first.
  change re_row with (Seq (Str [124]) (Seq (Star true Dot) (Seq (Str [124])
           (Opt (Alt (Seq (Opt (Chr cr)) (Chr nl)) (Chr cr)))))).
  rewrite (m_seq_single true (Str [124]) _ _ (MState (124 :: p) (body ++ [124]) []))
    by reflexivity.
  rewrite m_seq.
  rewrite <- (app_nil_r (body ++ [124])).
  rewrite (m_star_dot_run true (body ++ [124]) (124 :: p) [] []).
  2:{ unfold all. rewrite forallb_app. unfold all in Hb. now rewrite Hb. }
  2:{ exact I. }
  rewrite greedy_stops_snoc.
  destruct (greedy_stops_hd body (124 :: p) [124] []) as [l ->].
  cbn [flat_map].
  rewrite (m_seq_nil true (Str [124])) by reflexivity.
  cbn [app].
  rewrite (m_seq_single true (Str [124]) _ _ (MState (124 :: rev body ++ 124 :: p) [] []))
    by reflexivity.
  rewrite m_break_end. cbn [app].
  eexists. f_equal. f_equal.
  rewrite ?app_nil_r. cbn [rev]. rewrite rev_app_distr. cbn [rev app].
  rewrite <- !app_assoc. reflexivity.
Qed.

Lemma first_row_nl body p more :
  all dot body ->
  first true re_row (MState p (124 :: body ++ 124 :: nl :: more) [])
        (MState (nl :: rev (124 :: body ++ [124]) ++ p) more []).
Proof.
  intros Hb. unfold first.
  change re_row with (Seq (Str [124]) (Seq (Star true Dot) (Seq (Str [124])
           (Opt (Alt (Seq (Opt (Chr cr)) (Chr nl)) (Chr cr)))))).
  rewrite (m_seq_single true (Str [124]) _ _
             (MState (124 :: p) (body ++ 124 :: nl :: more) []))
    by reflexivity.
  rewrite m_seq.
  change (body ++ 124 :: nl :: more) with (body ++ [124] ++ nl :: more).
  rewrite app_assoc.
  rewrite (m_star_dot_run true (body ++ [124]) (124 :: p) (nl :: more) []).
  2:{ unfold all. rewrite forallb_app. unfold all in Hb. now rewrite Hb. }
  2:{ reflexivity. }
  rewrite greedy_stops_snoc.
  destruct (greedy_stops_hd body (124 :: p) (124 :: nl :: more) []) as [l ->].
  cbn [flat_map].
  rewrite (m_seq_nil true (Str [124])) by reflexivity.
  cbn [app].
  rewrite (m_seq_single true (Str [124]) _ _
             (MState (124 :: rev body ++ 124 :: p) (nl :: more) []))
    by reflexivity.
  destruct (m_break_nl (124 :: rev body ++ 124 :: p) more) as [l' ->].
  cbn [app]. eexists. f_equal. f_equal. f_equal.
  cbn [rev]. rewrite rev_app_distr. cbn [rev app].
  rewrite <- !app_assoc. reflexivity.
Qed.

Lemma progress_shorter p s cs p' s' cs' :
  (length s' < length s)%nat -> progress (MState p s cs) (MState p' s' cs') = true.
Proof. intros H. unfold progress. now apply Nat.ltb_lt. Qed.

(** One row of a run and what follows it. *)
Lemma first_row_of_run l ls p :
  row_shape l = true ->
  first true re_row (MState p (join (l :: ls)) [])
        (MState (match ls with [] => rev l ++ p | _ :: _ => nl :: rev l ++ p end)
                (join ls) []).
Proof.
  intros Hl. destruct (row_shape_inv l Hl) as [body [-> Hb]].
  destruct ls as [|l' ls].
  - now apply first_row_last.
  - rewrite join_cons. cbn [app]. rewrite <- app_assoc. cbn [app].
    now apply first_row_nl.
Qed.

Lemma row_shape_length l : row_shape l = true -> (0 < length l)%nat.
Proof. destruct l; [discriminate | simpl; lia]. Qed.

Lemma join_length_cons l ls :
  row_shape l = true -> (length (join ls) < length (join (l :: ls)))%nat.
Proof.
  intros Hl. apply row_shape_length in Hl. destruct ls as [|l' ls].
  - simpl. exact Hl.
  - rewrite join_cons, length_app. simpl. lia.
Qed.

Lemma rev_join_cons l ls p :
  rev (join ls) ++ match ls with [] => rev l ++ p | _ :: _ => nl :: rev l ++ p end
  = rev (join (l :: ls)) ++ p.
Proof.
  destruct ls as [|l' ls].
  - reflexivity.
  - rewrite join_cons, rev_app_distr. cbn [rev]. now rewrite <- !app_assoc.
Qed.

(** The repetition of the row pattern runs to the end of a run of rows,
    up to the text [join post] that does not begin with a pipe. *)
Lemma m_row_nil p s cs : prefixb [124] s = false -> m true re_row (MState p s cs) = [].
Proof.
  intros H.
  change re_row with (Seq (Str [124]) (Seq (Star true Dot) (Seq (Str [124])
           (Opt (Alt (Seq (Opt (Chr cr)) (Chr nl)) (Chr cr)))))).
  now apply m_seq_nil, m_str_nil.
Qed.

Lemma join_length_app l ls post :
  row_shape l = true ->
  (length (join (ls ++ post)) < length (join ((l :: ls) ++ post)))%nat.
Proof. intros Hl. now apply (join_length_cons l (ls ++ post)). Qed.

Lemma rows_loop post : forall lines p fuel,
  Forall (fun l => row_shape l = true) lines ->
  prefixb [124] (join post) = false ->
  (length (join (lines ++ post)) < fuel)%nat ->
  exists p' l, repeat_loop true [] (m true re_row) fuel (MState p (join (lines ++ post)) [])
               = MState p' (join post) [] :: l.
Proof.
  induction lines as [|l0 lines IH]; intros p fuel Hrows Hpost Hfuel.
  - destruct fuel as [|fuel]; [simpl in Hfuel; lia|]. exists p, [].
    cbn [repeat_loop app]. rewrite clear_caps_nil, m_row_nil by exact Hpost.
    reflexivity.
  - destruct fuel as [|fuel]; [lia|].
    inversion Hrows as [|x xs Hl Hls]; subst.
    destruct (first_row_of_run l0 (lines ++ post) p Hl) as [l1 E1].
    pose proof (join_length_app l0 lines post Hl) as Hlen.
    destruct (IH (match lines ++ post with
                  | [] => rev l0 ++ p
                  | _ :: _ => nl :: rev l0 ++ p
                  end) fuel Hls Hpost ltac:(lia)) as [p' [l2 E2]].
    exists p'. cbn [repeat_loop]. change ((l0 :: lines) ++ post) with (l0 :: lines ++ post).
    rewrite clear_caps_nil, E1. cbn [flat_map].
    rewrite progress_shorter by exact Hlen.
    rewrite E2. eexists. reflexivity.
Qed.

Lemma first_rows lines post p :
  lines <> [] ->
  Forall (fun l => row_shape l = true) lines ->
  prefixb [124] (join post) = false ->
  exists p', first true (Plus true re_row) (MState p (join (lines ++ post)) [])
                   (MState p' (join post) []).
Proof.
  intros Hne Hrows Hpost. destruct lines as [|l0 lines]; [contradiction|].
  inversion Hrows as [|x xs Hl Hls]; subst.
  destruct (first_row_of_run l0 (lines ++ post) p Hl) as [l1 E1].
  pose proof (join_length_app l0 lines post Hl) as Hlen.
  destruct (rows_loop post lines
              (match lines ++ post with
               | [] => rev l0 ++ p
               | _ :: _ => nl :: rev l0 ++ p
               end)
              (S (length (join ((l0 :: lines) ++ post)))) Hls Hpost ltac:(lia))
    as [p' [l2 E2]].
  exists p'. unfold first. cbn [m]. change (groups re_row) with (@nil nat).
  change ((l0 :: lines) ++ post) with (l0 :: lines ++ post) in *.
  rewrite clear_caps_nil, E1. cbn [flat_map suf]. rewrite E2.
  eexists. reflexivity.
Qed.

(** What the run takes of the text: its lines, and the line feed behind
    the last one when something follows. *)
Lemma join_app_run lines post :
  lines <> [] ->
  join (lines ++ post)
  = (join lines ++ match post with [] => [] | _ :: _ => [nl] end) ++ join post.
Proof.
  intros Hne. induction lines as [|l lines IH]; [contradiction|].
  destruct lines as [|l' lines].
  - destruct post as [|a post].
    + cbn [app join]. now rewrite !app_nil_r.
    + cbn [app]. rewrite join_cons. cbn [join]. now rewrite <- app_assoc.
  - cbn [app] in *. rewrite !join_cons, IH by discriminate.
    now rewrite <- !app_assoc.
Qed.

(** The table pattern at the start of a run of rows, tried at the start of
    the document or at the line feed in front of the run. *)
Lemma first_group_rows lines post p :
  lines <> [] ->
  Forall (fun l => row_shape l = true) lines ->
  prefixb [124] (join post) = false ->
  exists p', first true (Group 1 (Plus true re_row)) (MState p (join (lines ++ post)) [])
               (MState p' (join post)
                  [(1%nat, join lines ++ match post with [] => [] | _ :: _ => [nl] end)]).
Proof.
  intros Hne Hrows Hpost.
  destruct (first_rows lines post p Hne Hrows Hpost) as [p' F].
  exists p'. apply (first_group true 1) in F. cbn [pre suf caps] in F.
  rewrite (join_app_run lines post Hne) in F at 2.
  rewrite span_app in F by reflexivity. exact F.
Qed.

Lemma first_table_at_start lines post :
  lines <> [] ->
  Forall (fun l => row_shape l = true) lines ->
  prefixb [124] (join post) = false ->
  exists p', first true tablePattern (MState [] (join (lines ++ post)) [])
               (MState p' (join post)
                  [(1%nat, join lines ++ match post with [] => [] | _ :: _ => [nl] end)]).
Proof.
  intros Hne Hrows Hpost.
  destruct (first_group_rows lines post [] Hne Hrows Hpost) as [p' F].
  exists p'.
  change tablePattern with (Seq (Alt Bol (Chr nl)) (Group 1 (Plus true re_row))).
  eapply first_seq; [|exact F].
  apply first_alt_l, first_bol. reflexivity.
Qed.

Lemma m_group_rows_nil p s cs :
  prefixb [124] s = false -> m true (Group 1 (Plus true re_row)) (MState p s cs) = [].
Proof.
  intros H. rewrite m_group. cbn [m]. change (groups re_row) with (@nil nat).
  now rewrite clear_caps_nil, m_row_nil.
Qed.

Lemma first_table_at_break lines post p :
  lines <> [] ->
  Forall (fun l => row_shape l = true) lines ->
  prefixb [124] (join post) = false ->
  exists p', first true tablePattern (MState p (nl :: join (lines ++ post)) [])
               (MState p' (join post)
                  [(1%nat, join lines ++ match post with [] => [] | _ :: _ => [nl] end)]).
Proof.
  intros Hne Hrows Hpost.
  destruct (first_group_rows lines post (nl :: p) Hne Hrows Hpost) as [p' [l F]].
  exists p'. unfold first.
  change tablePattern with (Seq (Alt Bol (Chr nl)) (Group 1 (Plus true re_row))).
  rewrite m_seq, m_alt, m_bol, flat_map_app.
  change (m true (Chr nl) (MState p (nl :: join (lines ++ post)) []))
    with (m true (Str [nl]) (MState p ([nl] ++ join (lines ++ post)) [])).
  rewrite m_str_app. cbn [flat_map rev app]. rewrite F.
  destruct (at_bol true (MState p (nl :: join (lines ++ post)) [])).
  - cbn [flat_map]. rewrite m_group_rows_nil by reflexivity.
    cbn [app]. eexists. reflexivity.
  - cbn [flat_map app]. eexists. reflexivity.
Qed.

(** No table begins in a text without pipes. *)
Lemma match_table_none p c c' s :
  (124 =? c) = false -> (124 =? c') = false ->
  match_at true tablePattern p (c :: c' :: s) = None.
Proof.
  intros Hc Hc'. unfold match_at.
  change tablePattern with (Seq (Alt Bol (Chr nl)) (Group 1 (Plus true re_row))).
  rewrite m_seq, m_alt, m_bol, flat_map_app.
  assert (G : forall q, m true (Group 1 (Plus true re_row)) (MState q (c :: c' :: s) []) = [])
    by (intros q; apply m_group_rows_nil; cbn [prefixb]; now rewrite Hc).
  assert (G' : forall q, m true (Group 1 (Plus true re_row)) (MState q (c' :: s) []) = [])
    by (intros q; apply m_group_rows_nil; cbn [prefixb]; now rewrite Hc').
  assert (E : flat_map (m true (Group 1 (Plus true re_row)))
                (m true (Chr nl) (MState p (c :: c' :: s) [])) = []).
  { rewrite m_chr. destruct (nl =? c); [|reflexivity].
    cbn [flat_map]. now rewrite G'. }
  rewrite E, app_nil_r.
  destruct (at_bol true (MState p (c :: c' :: s) [])); [|reflexivity].
  cbn [flat_map]. now rewrite G.
Qed.

Lemma replace_pure_absent ml w r f p s :
  requires w r = true -> ~ occurs w s -> replace_pure ml r f p s = s.
Proof.
  intros R H. rewrite <- (app_nil_r s) at 1. rewrite replace_pure_copy.
  - rewrite replace_pure_nil; [now rewrite app_nil_r|].
    apply match_at_absent with w; [exact R|]. intros [x [y E]].
    destruct x; [destruct w|]; try discriminate.
    apply H. now exists [], s.
  - intros u1 c u2 ->. rewrite app_nil_r. apply match_at_absent with w; [exact R|].
    intros O. apply H. now apply occurs_app_l.
Qed.

(** *** The callback recovers the lines of the run *)

Lemma match_newline_none p c s :
  dot c = true -> match_at false re_newline p (c :: s) = None.
Proof.
  intros Hc. destruct (not_lt_chars c Hc) as [H10 H13].
  unfold match_at, re_newline, Chr. cbn [m groups]. unfold clear_caps.
  cbn [pre suf caps filter prefixb]. change cr with 13. change nl with 10.
  rewrite H13. cbn [andb filter app flat_map m suf prefixb]. now rewrite H10.
Qed.

Lemma match_newline_some p more :
  match_at false re_newline p (nl :: more) = Some (MState (nl :: p) more []).
Proof. reflexivity. Qed.

Lemma split_loop_line : forall l piece p rest fuel,
  all dot l -> (length (l ++ rest) < fuel)%nat ->
  split_loop false re_newline fuel piece p (l ++ rest)
  = split_loop false re_newline (fuel - length l) (rev l ++ piece) (rev l ++ p) rest.
Proof.
  induction l as [|c l IH]; intros piece p rest fuel Hl Hfuel.
  - cbn [app rev length]. now rewrite Nat.sub_0_r.
  - destruct fuel as [|fuel]; [lia|].
    unfold all in Hl. cbn [forallb] in Hl. apply andb_true_iff in Hl.
    destruct Hl as [Hc Hl].
    cbn [app split_loop]. rewrite (match_newline_none p c (l ++ rest) Hc).
    rewrite IH; [|exact Hl|simpl in Hfuel; lia].
    cbn [length rev Nat.sub]. now rewrite <- !app_assoc.
Qed.

Lemma split_loop_lines : forall lines p fuel,
  lines <> [] ->
  Forall (fun l => all dot l) lines ->
  (length (join lines) < fuel)%nat ->
  split_loop false re_newline fuel [] p (join lines) = lines.
Proof.
  induction lines as [|l lines IH]; intros p fuel Hne Hls Hfuel; [contradiction|].
  inversion Hls as [|x xs Hl Hls']; subst.
  destruct lines as [|l' lines].
  - cbn [join] in *. rewrite <- (app_nil_r l) at 1.
    rewrite split_loop_line; [|exact Hl|now rewrite app_nil_r].
    destruct (fuel - length l)%nat as [|f] eqn:E; [lia|].
    cbn [split_loop]. now rewrite app_nil_r, rev_involutive.
  - rewrite join_cons in *. rewrite length_app in Hfuel. cbn [length] in Hfuel.
    rewrite split_loop_line; [|exact Hl|rewrite length_app; cbn [length]; lia].
    destruct (fuel - length l)%nat as [|f] eqn:E; [lia|].
    cbn [split_loop]. rewrite match_newline_some.
    replace (span (MState (rev l ++ p) (nl :: join (l' :: lines)) [])
                  (MState (nl :: rev l ++ p) (join (l' :: lines)) []))
      with [nl].
    2:{ symmetry. apply (span_app (rev l ++ p) [nl] (join (l' :: lines)) []). reflexivity. }
    cbn [pre suf]. rewrite app_nil_r, rev_involutive. f_equal.
    apply IH; [discriminate | exact Hls' | lia].
Qed.

Lemma split_newline_join lines :
  lines <> [] ->
  Forall (fun l => row_shape l = true) lines ->
  split_re false re_newline (join lines) = lines.
Proof.
  intros Hne Hrows. unfold split_re.
  assert (Hdot : Forall (fun l => all dot l) lines).
  { apply Forall_forall. intros l Hl. rewrite Forall_forall in Hrows.
    apply Hrows in Hl. destruct l as [|c0 l]; [discriminate|].
    unfold row_shape in Hl. destruct c0 as [|c0]; [discriminate|].
    do 7 (destruct c0 as [c0|c0|]; try discriminate).
    destruct l; [discriminate|]. now apply andb_true_iff in Hl. }
  destruct (join lines) eqn:E.
  - exfalso. destruct lines as [|l lines]; [contradiction|].
    inversion Hrows as [|x xs Hl _]; subst.
    pose proof (join_length_cons l lines Hl) as H. rewrite E in H. simpl in H. lia.
  - rewrite <- E. apply split_loop_lines; [exact Hne | exact Hdot | lia].
Qed.

Lemma trim_join_rows lines :
  lines <> [] ->
  Forall (fun l => row_shape l = true) lines ->
  trim (join lines) = join lines.
Proof.
  intros Hne Hrows.
  destruct (join_bracketed 124 124 lines Hne) as [s ->].
  - intros l Hl. rewrite Forall_forall in Hrows.
    destruct (row_shape_inv l (Hrows l Hl)) as [body [-> _]]. now exists body.
  - now apply trim_id.
Qed.

Lemma trim_trailing_nl a s b :
  isSpace a = false -> isSpace b = false ->
  trim ((a :: s ++ [b]) ++ [nl]) = a :: s ++ [b].
Proof.
  intros Ha Hb. unfold trim, trim_end. cbn [app]. rewrite trim_start_id by exact Ha.
  assert (E : rev (a :: (s ++ [b]) ++ [nl]) = nl :: b :: rev (a :: s)).
  { change (a :: (s ++ [b]) ++ [nl]) with ((a :: s ++ [b]) ++ [nl]).
    rewrite rev_app_distr. cbn [rev app].
    change (a :: s ++ [b]) with ((a :: s) ++ [b]). now rewrite rev_app_distr. }
  rewrite E. cbn [trim_start]. change (isSpace nl) with true. cbv iota.
  rewrite Hb.
  replace (b :: rev (a :: s)) with (rev ((a :: s) ++ [b]))
    by (rewrite rev_app_distr; reflexivity).
  apply rev_involutive.
Qed.


Lemma pipe_free_not_in s : pipe_free (Some s) = true -> ~ In 124 s.
Proof.
  unfold pipe_free. rewrite negb_true_iff. intros H Hin.
  assert (E : existsb (N.eqb 124) s = true)
    by (apply existsb_exists; exists 124; split; [exact Hin | apply N.eqb_refl]).
  now rewrite E in H.
Qed.





End TableRuns.

(* ===================================================================== *)
(** ** The parser keeps no state between calls *)
(* ===================================================================== *)

Section Stateless.
Import Instance.

Lemma scan_match_none ml r : forall s sk p,
  scan_match ml r sk p s = None ->
  forall u1 u2, s = u1 ++ u2 -> match_at ml r (rev u1 ++ p) u2 = None.
Proof.
  induction s as [|c s IH]; intros sk p H u1 u2 E; cbn [scan_match] in H.
  - destruct u1; [|discriminate]. destruct u2; [|discriminate].
    simpl. now destruct (match_at ml r p []).
  - destruct (match_at ml r p (c :: s)) eqn:M; [discriminate|].
    destruct u1 as [|c1 u1].
    + simpl in E. subst u2. exact M.
    + injection E as -> E. simpl. rewrite <- app_assoc. now apply (IH _ _ H).
Qed.

Lemma scan_match_some ml r : forall s sk p sk' st',
  scan_match ml r sk p s = Some (sk', st') ->
  exists u s1, sk' = rev u ++ sk /\ s = u ++ s1
    /\ match_at ml r (rev u ++ p) s1 = Some st'
    /\ (forall u1 c u2, u = u1 ++ c :: u2 ->
          match_at ml r (rev u1 ++ p) (c :: u2 ++ s1) = None).
Proof.
  induction s as [|c s IH]; intros sk p sk' st' H; cbn [scan_match] in H.
  - destruct (match_at ml r p []) eqn:M; [|discriminate].
    injection H as <- <-. exists [], []. repeat split; auto.
    intros u1 c u2 E. destruct u1; discriminate.
  - destruct (match_at ml r p (c :: s)) eqn:M.
    + injection H as <- <-. exists [], (c :: s). repeat split; auto.
      intros u1 c' u2 E. destruct u1; discriminate.
    + destruct (IH _ _ _ _ H) as [u [s1 [E1 [E2 [M' Hnone]]]]].
      exists (c :: u), s1. repeat split.
      * simpl. now rewrite <- app_assoc.
      * simpl. now rewrite E2.
      * simpl. now rewrite <- app_assoc.
      * intros u1 c' u2 E. destruct u1 as [|c1 u1].
        -- injection E as <- <-. simpl. now rewrite <- E2.
        -- injection E as <- E. simpl. rewrite <- app_assoc. now apply Hnone.
Qed.

Lemma match_at_first ml r p s st' :
  match_at ml r p s = Some st' -> first ml r (MState p s []) st'.
Proof.
  unfold match_at, first. intros H.
  destruct (m ml r (MState p s [])) as [|st l]; [discriminate|].
  injection H as ->. now exists l.
Qed.

(** An empty match. *)
Lemma replace_pure_empty_nil ml r f p st' :
  match_at ml r p [] = Some st' -> replace_pure ml r f p [] = f [] st'.
Proof.
  intros M. unfold replace_pure, replace_from. rewrite replace_loop_S, M.
  cbv zeta. unfold span. cbn [suf length Nat.sub firstn]. reflexivity.
Qed.

Lemma replace_pure_empty_cons ml r f p c s st' :
  match_at ml r p (c :: s) = Some st' ->
  span (MState p (c :: s) []) st' = [] ->
  replace_pure ml r f p (c :: s) = f [] st' ++ c :: replace_pure ml r f (c :: p) s.
Proof.
  intros M Sp. unfold replace_pure, replace_from.
  rewrite (replace_loop_S unit ml r _ (length (c :: s))), M. cbv zeta. rewrite Sp.
  cbn [length].
  now destruct (replace_loop ml r (fun (_ : unit) w st => (f w st, tt))
                             (S (length s)) tt (c :: p) s).
Qed.

Lemma replace_pure_none ml r f p s :
  (forall u1 u2, s = u1 ++ u2 -> match_at ml r (rev u1 ++ p) u2 = None) ->
  replace_pure ml r f p s = s.
Proof.
  intros H. rewrite <- (app_nil_r s) at 1. rewrite replace_pure_copy.
  - rewrite replace_pure_nil; [now rewrite app_nil_r|].
    apply (H s []). now rewrite app_nil_r.
  - intros u1 c u2 ->. rewrite app_nil_r. now apply H.
Qed.

Lemma skipn_length_app (a t : list N) : skipn (length a) (a ++ t) = t.
Proof. now rewrite skipn_app, skipn_all, Nat.sub_diag. Qed.

Lemma firstn_length_app (a t : list N) : firstn (length a) (a ++ t) = a.
Proof. now rewrite firstn_app, firstn_all, Nat.sub_diag, app_nil_r. Qed.

Lemma exec_at rx p0 pend s :
  lastIndex rx = (length p0 + length pend)%nat ->
  exec rx (rev p0 ++ pend ++ s)
  = match scan_match (multiline rx) (source rx) [] (rev pend ++ p0) s with
    | None => (None, set_lastIndex rx 0)
    | Some (skipped, st') =>
        (Some ((lastIndex rx + length skipped)%nat, st'),
         set_lastIndex rx (length (pre st')))
    end.
Proof.
  intros Hi. unfold exec.
  assert (Ei : lastIndex rx = length (rev p0 ++ pend))
    by (rewrite length_app, length_rev; exact Hi).
  replace (length (rev p0 ++ pend ++ s) <? lastIndex rx)%nat with false.
  2:{ symmetry. apply Nat.ltb_ge. rewrite Ei, !length_app. lia. }
  rewrite Ei, app_assoc, firstn_length_app, skipn_length_app.
  now rewrite rev_app_distr, rev_involutive.
Qed.

(** The loop over [exec] computes what the scan of [replace_pure] computes
    and leaves [lastIndex] at 0. *)
Lemma replace_exec_spec f : forall fuel rx p0 pend s acc,
  lastIndex rx = (length p0 + length pend)%nat ->
  (S (length s) < fuel)%nat ->
  replace_exec fuel rx f (rev p0 ++ pend ++ s) (length p0) acc
  = (acc ++ pend ++ replace_pure (multiline rx) (source rx) f (rev pend ++ p0) s,
     set_lastIndex rx 0).
Proof.
  induction fuel as [|fuel IH]; intros rx p0 pend s acc Hi Hfuel; [lia|].
  cbn [replace_exec]. rewrite (exec_at rx p0 pend s Hi).
  destruct (scan_match (multiline rx) (source rx) [] (rev pend ++ p0) s)
    as [[sk st']|] eqn:Sc.
  2:{ rewrite <- (length_rev p0), skipn_length_app.
      rewrite replace_pure_none; [reflexivity|].
      now apply (scan_match_none _ _ _ _ _ Sc). }
  destruct (scan_match_some _ _ _ _ _ _ _ Sc) as [u [s1 [-> [-> [M Hnone]]]]].
  rewrite app_nil_r, length_rev.
  destruct (match_at_extends _ _ _ _ _ M) as [w [Esuf Epre]]. cbn [pre suf] in Esuf, Epre.
  set (position := (lastIndex rx + length u)%nat).
  assert (Epos : position = length (rev p0 ++ pend ++ u))
    by (unfold position; rewrite Hi, !length_app, length_rev; lia).
  assert (Elen : (length (pre st') - position)%nat = length w)
    by (rewrite Epre, Epos, !length_app, !length_rev; lia).
  assert (Eskip : skipn position (rev p0 ++ pend ++ u ++ s1) = s1).
  { rewrite Epos. replace (rev p0 ++ pend ++ u ++ s1) with ((rev p0 ++ pend ++ u) ++ s1)
      by (now rewrite <- !app_assoc).
    apply skipn_length_app. }
  assert (Ematched : firstn (length (pre st') - position)
                            (skipn position (rev p0 ++ pend ++ u ++ s1)) = w).
  { rewrite Elen, Eskip, Esuf. apply firstn_length_app. }
  assert (Ebetween : firstn (position - length p0)
                            (skipn (length p0) (rev p0 ++ pend ++ u ++ s1)) = pend ++ u).
  { rewrite <- (length_rev p0) at 2. rewrite skipn_length_app.
    replace (position - length p0)%nat with (length (pend ++ u))
      by (rewrite Epos, !length_app, length_rev; lia).
    rewrite app_assoc. apply firstn_length_app. }
  rewrite Ematched, Ebetween.
  rewrite (replace_pure_copy _ _ f u (rev pend ++ p0) s1 Hnone).
  assert (Espan : span (MState (rev u ++ rev pend ++ p0) s1 []) st' = w)
    by (rewrite Esuf; now apply span_app).
  destruct w as [|x w].
  - (* an empty match *)
    cbn [app rev] in Esuf, Epre. cbn [length]. rewrite Nat.add_0_r.
    destruct s1 as [|c s2].
    + rewrite (replace_pure_empty_nil _ _ f _ st' M).
      destruct fuel as [|fuel]; [rewrite length_app in Hfuel; simpl in Hfuel; lia|].
      cbn [replace_exec]. unfold exec. cbn [lastIndex set_lastIndex].
      replace (length (rev p0 ++ pend ++ u ++ []) <? S (length (pre st')))%nat with true.
      2:{ symmetry. apply Nat.ltb_lt. rewrite Epre, !length_app, !length_rev.
          simpl. lia. }
      rewrite Epos. replace (rev p0 ++ pend ++ u ++ []) with ((rev p0 ++ pend ++ u) ++ [])
        by (now rewrite <- !app_assoc).
      rewrite skipn_length_app. cbn [set_lastIndex source multiline].
      rewrite !app_nil_r, <- !app_assoc. reflexivity.
    + rewrite (replace_pure_empty_cons _ _ f _ c s2 st' M Espan).
      specialize (IH (set_lastIndex (set_lastIndex rx (length (pre st')))
                                    (S (length (pre st'))))
                     (rev u ++ rev pend ++ p0) [c] s2
                     (acc ++ (pend ++ u) ++ f [] st')).
      cbn [lastIndex set_lastIndex source multiline length app rev] in IH.
      rewrite !rev_app_distr, !rev_involutive, <- !app_assoc in IH.
      cbn [app] in IH.
      replace position with (length (rev u ++ rev pend ++ p0))
        by (rewrite Epos, !length_app, !length_rev; lia).
      cbn [lastIndex set_lastIndex]. rewrite <- !app_assoc.
      rewrite IH.
      * rewrite <- ?app_assoc. reflexivity.
      * rewrite Epre. lia.
      * rewrite length_app in Hfuel. simpl in Hfuel. lia.
  - (* a nonempty match *)
    assert (Hshort : (length (suf st') < length s1)%nat)
      by (rewrite Esuf, length_app; simpl; lia).
    rewrite (replace_pure_match _ _ f _ s1 st' (match_at_first _ _ _ _ _ M) Hshort).
    rewrite Espan.
    specialize (IH (set_lastIndex rx (length (pre st'))) (pre st') [] (suf st')
                   (acc ++ (pend ++ u) ++ f (x :: w) st')).
    cbn [lastIndex set_lastIndex source multiline length app rev] in IH.
    replace (rev (pre st') ++ suf st') with (rev p0 ++ pend ++ u ++ s1) in IH.
    2:{ rewrite Epre, Esuf, !rev_app_distr, !rev_involutive, <- !app_assoc.
        reflexivity. }
    replace (position + length (x :: w))%nat with (length (pre st'))
      by (rewrite Epre, Epos, !length_app, !length_rev; simpl; lia).
    rewrite IH.
    + rewrite <- ?app_assoc. reflexivity.
    + lia.
    + rewrite length_app in Hfuel. lia.
Qed.

(** [replace] with a global regular expression does not depend on the
    [lastIndex] it finds, and leaves it at 0. *)
Lemma regexp_replace_spec rx f subj :
  regexp_replace rx f subj
  = (replace_fn (multiline rx) (source rx) f subj, set_lastIndex rx 0).
Proof.
  unfold regexp_replace.
  pose proof (replace_exec_spec f (S (S (length subj))) (set_lastIndex rx 0)
                [] [] subj [] eq_refl ltac:(lia)) as H.
  cbn [rev app length lastIndex set_lastIndex source multiline] in H.
  rewrite H. reflexivity.
Qed.

Lemma apply_rule_callback ro html :
  apply_rule (rule_of ro) html
  = replace_fn (multiline (rule_pattern ro)) (source (rule_pattern ro))
               (callback (rule_replacement ro)) html.
Proof.
  unfold apply_rule, rule_of, callback, replace_tpl. cbn [repl flag_m pattern].
  now destruct (rule_replacement ro).
Qed.

Lemma apply_rules_spec : forall rs html,
  fst (apply_rules rs html)
  = fold_left (fun html rl => apply_rule rl html) (map rule_of rs) html
  /\ map rule_of (snd (apply_rules rs html)) = map rule_of rs.
Proof.
  induction rs as [|ro rs IH]; intros html; [now split|].
  cbn [apply_rules map fold_left]. rewrite regexp_replace_spec, <- apply_rule_callback.
  destruct (IH (apply_rule (rule_of ro) html)) as [IH1 IH2].
  destruct (apply_rules rs (apply_rule (rule_of ro) html)) as [html'' rs''].
  cbn [fst snd] in *. split; [exact IH1|].
  cbn [map]. now rewrite IH2.
Qed.

(** A call of [parse] on a parser with the rules of the constructor
    returns what the function [Parser.parse] returns and leaves such a
    parser. *)
Lemma parse_spec this d :
  well_formed this ->
  fst (Instance.parse this d) = Parser.parse d
  /\ well_formed (snd (Instance.parse this d)).
Proof.
  intros Hwf. destruct d as [|c d]; [now split|].
  unfold Instance.parse, Parser.parse.
  destruct (protect re_fence "CODE_BLOCK" (c :: d)) as [html1 codeBlocks].
  destruct (protect re_tick "INLINE_CODE" html1) as [html2 inlineCode].
  destruct (apply_rules_spec (rules this) (parseTables html2)) as [H1 H2].
  destruct (apply_rules (rules this) (parseTables html2)) as [html3 rs].
  cbn [fst snd] in *. unfold well_formed in *. cbn [rules].
  rewrite H1, H2, Hwf. now split.
Qed.

Lemma constructor_well_formed : well_formed constructor.
Proof. reflexivity. Qed.

Lemma parse_all_well_formed : forall docs this,
  well_formed this -> well_formed (snd (parse_all this docs)).
Proof.
  induction docs as [|d docs IH]; intros this Hwf; [exact Hwf|].
  cbn [parse_all]. destruct (parse_spec this d Hwf) as [_ Hwf'].
  destruct (Instance.parse this d) as [out this']. cbn [snd] in Hwf'.
  specialize (IH this' Hwf').
  destruct (parse_all this' docs) as [outs this'']. exact IH.
Qed.

(** C8.  The output of parse depends on the document only: whatever
    documents a parser has parsed before, it renders a document as a new
    parser does, which is what the function [Parser.parse] returns; the
    outputs of a sequence of calls are the renderings of the documents one
    by one. *)
Theorem parse_keeps_no_state :
  forall (docs1 docs2 : list str) (d : str),
    fst (Instance.parse (snd (parse_all constructor docs1)) d)
    = fst (Instance.parse (snd (parse_all constructor docs2)) d)
    /\ fst (Instance.parse (snd (parse_all constructor docs1)) d) = Parser.parse d
    /\ fst (parse_all constructor docs1) = map Parser.parse docs1.
Proof.
  intros docs1 docs2 d.
  assert (H : forall docs, fst (Instance.parse (snd (parse_all constructor docs)) d)
                           = Parser.parse d).
  { intros docs. apply parse_spec, parse_all_well_formed, constructor_well_formed. }
  split; [now rewrite !H | split; [apply H|]].
  assert (G : forall docs this, well_formed this ->
                fst (parse_all this docs) = map Parser.parse docs).
  { induction docs as [|d0 docs IH]; intros this Hwf; [reflexivity|].
    cbn [parse_all map]. destruct (parse_spec this d0 Hwf) as [Hout Hwf'].
    destruct (Instance.parse this d0) as [out this']. cbn [fst snd] in *.
    specialize (IH this' Hwf').
    destruct (parse_all this' docs) as [outs this'']. cbn [fst] in *.
    now rewrite Hout, IH. }
  apply G, constructor_well_formed.
Qed.

End Stateless.

(* ===================================================================== *)
(** ** Every inline code span is lost *)
(* ===================================================================== *)

Section LostSpans.

Lemma replace_first_absent pat new : forall s,
  occursb pat s = false -> replace_first pat new s = s.
Proof.
  induction s as [|c s IH]; cbn [occursb replace_first]; intros H.
  - rewrite orb_false_r in H. now rewrite H.
  - apply orb_false_iff in H. destruct H as [H1 H2]. rewrite H1. now rewrite IH.
Qed.

Lemma span_no_fence c : c <> [] -> ~ In 96 c -> ~ occurs (lit "```") (96 :: c ++ [96]).
Proof.
  intros Hne Hno. apply free_of_absent; [reflexivity|]. unfold free_of.
  destruct c as [|x c]; [contradiction|].
  assert (Hx : (96 =? x) = false).
  { apply N.eqb_neq. intros <-. apply Hno. now left. }
  rewrite scan_cons. change (scan_step (lit "```") 0 96) with 1%nat.
  cbn [app]. rewrite scan_cons.
  replace (scan_step (lit "```") 1 x) with 0%nat
    by (unfold scan_step; cbn [length lit map list_ascii_of_string Nat.eqb nth hd];
        change (N_of_ascii "`") with 96; now rewrite Hx).
  rewrite scan_app, scan_other; [discriminate | | discriminate].
  apply forallb_forall. intros y Hy. apply negb_true_iff, N.eqb_neq.
  intros <-. apply Hno. now right.
Qed.

(** The protection step replaces a code span by the first placeholder. *)
Lemma protect_span c :
  c <> [] -> ~ In 96 c ->
  protect re_tick "INLINE_CODE" (96 :: c ++ [96])
  = (placeholder "INLINE_CODE" 0, [96 :: c ++ [96]]).
Proof.
  intros Hne Hno. destruct c as [|c0 run]; [contradiction|].
  set (c := c0 :: run) in *.
  pose proof (first_plus_run false true [CChar 96] c0 run [96] [96] []
                (not_in_all_but 96 c Hno) eq_refl) as F.
  assert (M : match_at false re_tick [] (96 :: c ++ [96])
              = Some (MState (96 :: rev c ++ [96]) [] [])).
  { apply first_match_at.
    change re_tick with (Seq (Str [96]) (Seq (Plus true (Cls true [CChar 96])) (Str [96]))).
    eapply first_seq; [apply (first_str false [96] [] (c ++ [96]) [])|].
    eapply first_seq; [exact F|].
    apply (first_str false [96] (rev c ++ [96]) [] []). }
  unfold protect, replace_st.
  rewrite (replace_from_match _ _ _ _ _ _ _ _ 96 (c ++ [96]) M) by now apply span_all.
  cbn [fst snd pre suf]. rewrite replace_from_nil by reflexivity. reflexivity.
Qed.

(** Whatever a code span holds, parse returns the placeholder, rewritten by
    the emphasis rules. *)
Lemma inline_code_span_always_lost c :
  c <> [] -> ~ In 96 c ->
  Parser.parse (96 :: c ++ [96]) = lit "<strong><em>INLINE<em>CODE</em>0</em></strong>".
Proof.
  intros Hne Hno.
  rewrite (parse_steps (96 :: c ++ [96]) (96 :: c ++ [96]) []
             (placeholder "INLINE_CODE" 0) [96 :: c ++ [96]]);
    [| discriminate
     | apply replace_st_absent with (lit "```"); [reflexivity | now apply span_no_fence]
     | now apply protect_span].
  assert (E : fold_left (fun html rl => apply_rule rl html) initializeRules
                        (parseTables (placeholder "INLINE_CODE" 0))
              = lit "<strong><em>INLINE<em>CODE</em>0</em></strong>")
    by (vm_compute; reflexivity).
  rewrite E. cbn [restore].
  rewrite replace_first_absent by (vm_compute; reflexivity).
  vm_compute. reflexivity.
Qed.

End LostSpans.

(* ===================================================================== *)
(** ** escapeHtml *)
(* ===================================================================== *)

Section EscapeHtml.

Lemma special_class c :
  class_mem false [CChar (c_ "&"); CChar (c_ "<"); CChar (c_ ">"); CChar dq; CChar sq] c
  = special c.
Proof. reflexivity. Qed.

Lemma escape_scan : forall s p,
  replace_pure false re_escape (fun chr _ => lookup (hd 0 chr) escapeMap) p s
  = flat_map escape_char s.
Proof.
  induction s as [|c s IH]; intros p.
  - now apply replace_pure_nil.
  - cbn [flat_map]. unfold escape_char at 1. destruct (special c) eqn:E.
    + rewrite (replace_pure_match false re_escape _ p (c :: s) (MState (c :: p) s [])).
      * cbn [pre suf]. rewrite IH.
        replace (span (MState p (c :: s) []) (MState (c :: p) s [])) with [c]; [reflexivity|].
        unfold span. cbn [suf length]. now rewrite Nat.sub_succ_l, Nat.sub_diag by lia.
      * apply first_cls. now rewrite special_class.
      * cbn [suf length]. lia.
    + rewrite replace_pure_skip; [now rewrite IH|].
      unfold match_at, re_escape. cbn [m eat suf]. now rewrite special_class, E.
Qed.

Lemma escapeHtml_flat_map s : escapeHtml s = flat_map escape_char s.
Proof. unfold escapeHtml. rewrite replace_fn_pure. apply escape_scan. Qed.

Lemma special_inv c : special c = true -> c = 38 \/ c = 60 \/ c = 62 \/ c = 34 \/ c = 39.
Proof.
  unfold special. cbn [existsb]. rewrite orb_false_r, !orb_true_iff, !N.eqb_eq.
  unfold dq, sq. tauto.
Qed.

Lemma escape_char_entity c :
  special c = true -> exists e, escape_char c = 38 :: e /\ forallb (fun x => negb (special x)) e = true.
Proof.
  intros H. destruct (special_inv c H) as [->|[->|[->|[->| ->]]]];
    eexists; (split; [reflexivity | reflexivity]).
Qed.

(** X1.  escapeHtml works character by character: its result is the
    concatenation, in order, of the entity of every ampersand, angle
    bracket, double quote and single quote, and of every other character as
    it is. *)
Theorem escapeHtml_char_by_char :
  forall s : str, escapeHtml s = flat_map escape_char s.
Proof. exact escapeHtml_flat_map. Qed.

Lemma escapeHtml_concat a b : escapeHtml (a ++ b) = escapeHtml a ++ escapeHtml b.
Proof. rewrite !escapeHtml_flat_map. apply flat_map_app. Qed.

Lemma escapeHtml_app :
  forall a b : str, escapeHtml (a ++ b) = escapeHtml a ++ escapeHtml b.
Proof. exact escapeHtml_concat. Qed.

(** X2.  Whatever the text, the result of escapeHtml holds no angle bracket,
    no double quote and no single quote. *)
Theorem escapeHtml_output_safe :
  forall s : str,
    forallb (fun c => negb (existsb (N.eqb c) [60; 62; dq; sq])) (escapeHtml s) = true.
Proof.
  intros s. rewrite escapeHtml_flat_map. induction s as [|c s IH]; [reflexivity|].
  cbn [flat_map]. rewrite forallb_app, IH, andb_true_r.
  unfold escape_char. destruct (special c) eqn:E.
  - destruct (special_inv c E) as [->|[->|[->|[->| ->]]]]; reflexivity.
  - cbn [forallb]. rewrite andb_true_r. apply negb_true_iff.
    unfold special in E. cbn [existsb] in E. apply orb_false_iff in E. apply E.
Qed.

(** X3.  escapeHtml is not idempotent: applied to its own result it rewrites
    the ampersand of every entity, so that a special character of the text
    ends as its entity with &amp; in front (a less-than sign as &amp;lt;),
    while the other characters stay as they are. *)
Theorem escapeHtml_twice :
  forall s : str, escapeHtml (escapeHtml s) = flat_map escape_char_twice s.
Proof.
  intros s. rewrite (escapeHtml_flat_map s). induction s as [|c s IH]; [reflexivity|].
  cbn [flat_map]. rewrite escapeHtml_concat, IH. f_equal.
  rewrite escapeHtml_flat_map. unfold escape_char_twice, escape_char at 2.
  destruct (special c) eqn:E.
  - destruct (special_inv c E) as [->|[->|[->|[->| ->]]]]; reflexivity.
  - cbn [flat_map]. unfold escape_char. now rewrite E.
Qed.

Lemma escape_char_nonempty c : escape_char c <> [].
Proof.
  unfold escape_char. destruct (special c) eqn:E; [|discriminate].
  destruct (special_inv c E) as [->|[->|[->|[->| ->]]]]; discriminate.
Qed.

Lemma escape_inj : forall a b,
  flat_map escape_char a = flat_map escape_char b -> a = b.
Proof.
  induction a as [|c a IH]; intros [|d b] H.
  - reflexivity.
  - cbn [flat_map] in H. destruct (escape_char d) eqn:E;
      [now apply escape_char_nonempty in E | discriminate].
  - cbn [flat_map] in H. destruct (escape_char c) eqn:E;
      [now apply escape_char_nonempty in E | discriminate].
  - cbn [flat_map] in H.
    remember (flat_map escape_char a) as A. remember (flat_map escape_char b) as B.
    unfold escape_char in H.
    destruct (special c) eqn:Ec, (special d) eqn:Ed.
    + destruct (special_inv c Ec) as [->|[->|[->|[->| ->]]]];
        destruct (special_inv d Ed) as [->|[->|[->|[->| ->]]]];
        try discriminate H;
        (f_equal; apply IH; subst A B; now apply app_inv_head in H).
    + destruct (special_inv c Ec) as [->|[->|[->|[->| ->]]]];
        injection H as <- _; discriminate.
    + destruct (special_inv d Ed) as [->|[->|[->|[->| ->]]]];
        injection H as -> _; discriminate.
    + injection H as -> H. f_equal. apply IH. now subst.
Qed.

(** X4.  escapeHtml loses nothing: two texts with the same escaped form are
    the same text. *)
Theorem escapeHtml_injective :
  forall a b : str, escapeHtml a = escapeHtml b -> a = b.
Proof. intros a b. rewrite !escapeHtml_flat_map. apply escape_inj. Qed.

Lemma escapeHtml_injective_witness : lit "a<b" = lit "a<b".
Proof. apply (escapeHtml_injective (lit "a<b") (lit "a<b")). reflexivity. Defined.

End EscapeHtml.

(* ===================================================================== *)
(** ** The ends of the output *)
(* ===================================================================== *)

Section Trimmed.

Lemma trim_start_hd : forall s, isSpace (hd 0 (trim_start s)) = false.
Proof.
  induction s as [|c s IH]; [reflexivity|].
  cbn [trim_start]. destruct (isSpace c) eqn:E; [exact IH | exact E].
Qed.

Lemma trim_start_suffix : forall s, exists y, s = y ++ trim_start s.
Proof.
  induction s as [|c s [y IH]]; [now exists []|].
  cbn [trim_start]. destruct (isSpace c).
  - exists (c :: y). cbn [app]. now rewrite <- IH.
  - now exists [].
Qed.

Lemma trim_end_prefix s : exists y, s = trim_end s ++ y.
Proof.
  unfold trim_end. destruct (trim_start_suffix (rev s)) as [y H].
  exists (rev y). rewrite <- rev_app_distr, <- H. now rewrite rev_involutive.
Qed.

Lemma hd_rev (s : list N) : hd 0 (rev s) = last s 0.
Proof.
  induction s as [|c s IH] using rev_ind; [reflexivity|].
  now rewrite rev_app_distr, last_last.
Qed.

Lemma trim_end_last s : isSpace (last (trim_end s) 0) = false.
Proof.
  unfold trim_end. rewrite <- hd_rev, rev_involutive. apply trim_start_hd.
Qed.

Lemma trim_end_hd s : isSpace (hd 0 s) = false -> isSpace (hd 0 (trim_end s)) = false.
Proof.
  intros H. destruct (trim_end_prefix s) as [y E].
  destruct (trim_end s) as [|c t]; [reflexivity|].
  rewrite E in H. exact H.
Qed.

Lemma trim_trimmed s : trimmed (trim s) = true.
Proof.
  unfold trimmed, trim. rewrite trim_end_last, trim_end_hd; [reflexivity|].
  apply trim_start_hd.
Qed.

Lemma trim_start_fixed s : isSpace (hd 0 s) = false -> trim_start s = s.
Proof. destruct s as [|c s]; [reflexivity|]. cbn [hd trim_start]. now intros ->. Qed.

Lemma trimmed_fixed s : trimmed s = true -> trim s = s.
Proof.
  unfold trimmed. rewrite andb_true_iff, !negb_true_iff. intros [H1 H2].
  unfold trim, trim_end. rewrite (trim_start_fixed s H1).
  rewrite trim_start_fixed by now rewrite hd_rev.
  apply rev_involutive.
Qed.

(** X5.  For every document the result of parse neither begins nor ends with
    white space, and trimming it again changes nothing. *)
Theorem parse_output_trimmed :
  forall md : str, trimmed (parse md) = true /\ trim (parse md) = parse md.
Proof.
  intros md.
  assert (H : trimmed (parse md) = true).
  { unfold parse. destruct md as [|c md]; [reflexivity|].
    destruct (protect re_fence "CODE_BLOCK" (c :: md)) as [html1 codeBlocks].
    destruct (protect re_tick "INLINE_CODE" html1) as [html2 inlineCode].
    apply trim_trimmed. }
  split; [exact H | now apply trimmed_fixed].
Qed.

End Trimmed.

(* ===================================================================== *)
(** ** Documents made of marked lines *)
(* ===================================================================== *)

Section Blocks.

Lemma may_start_sound ml : forall r c,
  may_start r c = false -> forall q s cs, m ml r (MState q (c :: s) cs) = [].
Proof.
  induction r as [w| |neg items|a IHa b IHb|a IHa b IHb|g r IH|g r IH|r IH|i r IH| | |r IH];
    intros c H q s cs; cbn [may_start] in H; try discriminate H.
  - destruct w as [|x w]; [discriminate|]. cbn [m suf prefixb]. now rewrite H.
  - cbn [m]. unfold eat. cbn [suf]. unfold dot in H. now rewrite H.
  - cbn [m]. unfold eat. cbn [suf]. now rewrite H.
  - cbn [m]. now rewrite (IHa c H).
  - apply orb_false_iff in H. destruct H as [Ha Hb].
    cbn [m]. now rewrite (IHa c Ha), (IHb c Hb).
  - cbn [m]. unfold clear_caps. cbn [pre suf caps]. now rewrite (IH c H).
  - cbn [m]. now rewrite (IH c H).
Qed.

(** An anchored rule leaves lines alone with whose first character no
    match of the rest of its pattern starts. *)
Lemma rule_skips_lines rl r' ls :
  pattern rl = Seq Bol r' -> flag_m rl = true ->
  ls <> [] ->
  (forall l, In l ls -> l <> [] /\ all dot l) ->
  (forall l, In l ls -> may_start r' (hd 0 l) = false) ->
  apply_rule rl (join ls) = join ls.
Proof.
  intros Hp Hm Hne Hls Hr.
  apply (apply_rule_no_line_match rl r' _ Hp Hm Hne Hls).
  intros l q rest Hl _. destruct (Hls l Hl) as [Hl0 _].
  specialize (Hr l Hl). destruct l as [|c l]; [contradiction|].
  now apply may_start_sound.
Qed.

Lemma fold_rules_skip s : forall rules,
  (forall rl, In rl rules -> apply_rule rl s = s) ->
  fold_left (fun html rl => apply_rule rl html) rules s = s.
Proof.
  induction rules as [|rl rules IH]; intros H; [reflexivity|].
  cbn [fold_left]. rewrite (H rl (or_introl eq_refl)). apply IH.
  intros r Hr. apply H. now right.
Qed.

Lemma fold_rules_split before rl after s s' :
  (forall r, In r before -> apply_rule r s = s) ->
  apply_rule rl s = s' ->
  (forall r, In r after -> apply_rule r s' = s') ->
  fold_left (fun html r => apply_rule r html) (before ++ rl :: after) s = s'.
Proof.
  intros Hb Hr Ha. rewrite fold_left_app. cbn [fold_left].
  rewrite (fold_rules_skip s before Hb), Hr. now apply fold_rules_skip.
Qed.

(** *** Marked lines *)

Lemma marked_lines_ok w items :
  all dot w ->
  Forall (fun it => plain_item it = true) items ->
  forall l, In l (map (marked w) items) -> l <> [] /\ all dot l.
Proof.
  intros Hw Hit l Hl. apply in_map_iff in Hl. destruct Hl as [it [<- Hl]].
  rewrite Forall_forall in Hit. destruct (plain_item_inv it (Hit it Hl)) as [c [run [_ [_ Hp]]]].
  split; [unfold marked; destruct w; discriminate|].
  unfold all, marked. rewrite forallb_app. cbn [forallb].
  unfold all in Hw. rewrite Hw. apply (plain_dot it Hp).
Qed.

Lemma marked_lines_no_char x w items :
  existsb (N.eqb x) (lit "`*_~[]|<") = true ->
  existsb (N.eqb x) w = false ->
  Forall (fun it => plain_item it = true) items ->
  ~ In x (join (map (marked w) items)).
Proof.
  intros Hx Hw Hit Hin. apply In_join in Hin. destruct Hin as [->|[l [Hl Hin]]].
  - discriminate.
  - apply in_map_iff in Hl. destruct Hl as [it [<- Hl]].
    rewrite Forall_forall in Hit.
    destruct (plain_item_inv it (Hit it Hl)) as [c [run [_ [_ Hp]]]].
    unfold marked in Hin. apply in_app_or in Hin. destruct Hin as [Hin|[<-|Hin]].
    + assert (E : existsb (N.eqb x) w = true)
        by (apply existsb_exists; exists x; split; [exact Hin | apply N.eqb_refl]).
      congruence.
    + discriminate.
    + now apply (plain_not_in x it Hx Hp).
Qed.

Lemma rule_skips_marked rl r' w items :
  pattern rl = Seq Bol r' -> flag_m rl = true ->
  all dot w -> items <> [] ->
  Forall (fun it => plain_item it = true) items ->
  (forall q s, m true r' (MState q (w ++ 32 :: s) []) = []) ->
  apply_rule rl (join (map (marked w) items)) = join (map (marked w) items).
Proof.
  intros Hp Hm Hw Hne Hit Hr.
  apply (apply_rule_no_line_match rl r' _ Hp Hm).
  - destruct items; [contradiction | discriminate].
  - now apply marked_lines_ok.
  - intros l q rest Hl _. apply in_map_iff in Hl. destruct Hl as [it [<- _]].
    unfold marked. rewrite <- app_assoc. apply Hr.
Qed.

Lemma free_rule_skips_marked x rl w items :
  existsb (N.eqb x) (lit "`*_~[]|<") = true ->
  existsb (N.eqb x) w = false ->
  requires [x] (pattern rl) = true ->
  Forall (fun it => plain_item it = true) items ->
  apply_rule rl (join (map (marked w) items)) = join (map (marked w) items).
Proof.
  intros Hx Hw R Hit. apply (apply_rule_no_char x rl _ R).
  now apply marked_lines_no_char.
Qed.

(** A rule whose pattern is a marker at the start of a line, white space,
    and the rest of the line wraps the item of every marked line. *)
Lemma marker_rule_on_lines rl w o c items :
  pattern rl = cat [Bol; Str w; spaces1; rest_of_line; Eol] -> flag_m rl = true ->
  repl rl = Template [TLit o; TGroup 1; TLit c] ->
  all dot w -> items <> [] ->
  Forall (fun it => plain_item it = true) items ->
  apply_rule rl (join (map (marked w) items)) = join (map (fun it => o ++ it ++ c) items).
Proof.
  intros Hp Hm Ht Hw Hne Hit.
  rewrite (map_ext (fun it => o ++ it ++ c)
                   (fun it => (fun l => o ++ skipn (S (length w)) l ++ c) (marked w it))).
  2:{ intros it. cbn beta. unfold marked.
      replace (S (length w)) with (length (w ++ [32])) by (rewrite length_app; simpl; lia).
      change (w ++ 32 :: it) with (w ++ [32] ++ it). rewrite (app_assoc w [32] it).
      now rewrite skipn_length_app. }
  rewrite <- (map_map (marked w) (fun l => o ++ skipn (S (length w)) l ++ c)).
  apply (apply_rule_linewise rl (cat [Str w; spaces1; rest_of_line; Eol])
           (fun l => o ++ skipn (S (length w)) l ++ c) _ Hp Hm).
  - destruct items; [contradiction | discriminate].
  - now apply marked_lines_ok.
  - intros l q rest Hl Hq Hrest. right.
    apply in_map_iff in Hl. destruct Hl as [it [<- Hl]].
    rewrite Forall_forall in Hit.
    destruct (plain_item_inv it (Hit it Hl)) as [c0 [run [-> [Hc Hp0]]]].
    unfold marked. rewrite <- app_assoc.
    change ((32 :: c0 :: run) ++ rest) with (32 :: [] ++ c0 :: run ++ rest).
    pose proof (first_plus_dot_run true c0 run (32 :: rev w ++ q) rest []
                  (plain_dot _ Hp0) (line_end_stops_dot rest Hrest)) as F.
    apply (first_group true 1) in F. cbn [pre suf caps] in F.
    rewrite (span_app (32 :: rev w ++ q) (c0 :: run) rest []) in F by reflexivity.
    eexists. split; [|split; [|split]].
    + cbn [cat]. eapply first_seq; [apply first_str|].
      eapply first_seq.
      { apply (first_plus_run true false [CSpace] 32 [] (rev w ++ q) (c0 :: run ++ rest) []);
          [reflexivity | now apply stops_space_plain]. }
      eapply first_seq; [exact F|].
      apply first_eol. now apply line_end_at_eol.
    + reflexivity.
    + cbn [pre]. rewrite rev_app_distr. cbn [rev app]. rewrite <- !app_assoc. reflexivity.
    + assert (E : skipn (S (length w)) (w ++ 32 :: c0 :: run) = c0 :: run).
      { replace (S (length w)) with (length (w ++ [32])) by (rewrite length_app; simpl; lia).
        change (w ++ 32 :: c0 :: run) with (w ++ [32] ++ c0 :: run).
        now rewrite (app_assoc w [32] (c0 :: run)), skipn_length_app. }
      rewrite E. unfold rule_out. rewrite Ht. cbn. now rewrite app_nil_r.
Qed.


(** *** Lines that are one element *)

Lemma element_lines_ok t0 tag items :
  all dot (t0 :: tag) -> all (class_mem true [CChar 62]) (t0 :: tag) ->
  Forall (fun it => plain_item it = true) items ->
  forall l, In l (map (element (t0 :: tag)) items) -> (l <> [] /\ all dot l) /\ tag_line l.
Proof.
  intros Hd Hgt Hit l Hl. apply in_map_iff in Hl. destruct Hl as [it [<- Hl]].
  rewrite Forall_forall in Hit.
  destruct (plain_item_inv it (Hit it Hl)) as [c [run [_ [_ Hp]]]].
  repeat split.
  - discriminate.
  - unfold all, element. rewrite !forallb_app.
    unfold all in Hd. rewrite Hd.
    pose proof (plain_dot it Hp) as Hi. unfold all in Hi. now rewrite Hi.
  - exists t0, tag, (it ++ lit "</" ++ (t0 :: tag) ++ lit ">").
    split; [reflexivity | exact Hgt].
Qed.

Lemma element_lines_no_char x tag items :
  existsb (N.eqb x) (lit "`*_~[") = true ->
  existsb (N.eqb x) tag = false ->
  Forall (fun it => plain_item it = true) items ->
  ~ In x (join (map (element tag) items)).
Proof.
  intros Hx Hw Hit Hin.
  assert (Hx' : existsb (N.eqb x) (lit "`*_~[]|<") = true).
  { apply existsb_exists in Hx. destruct Hx as [y [Hy E]]. apply existsb_exists.
    exists y. split; [|exact E]. cbn in Hy |- *. tauto. }
  assert (Htag : ~ In x tag).
  { intros H. assert (E : existsb (N.eqb x) tag = true)
      by (apply existsb_exists; exists x; split; [exact H | apply N.eqb_refl]).
    congruence. }
  apply In_join in Hin. destruct Hin as [->|[l [Hl Hin]]].
  - discriminate.
  - apply in_map_iff in Hl. destruct Hl as [it [<- Hl]].
    rewrite Forall_forall in Hit.
    destruct (plain_item_inv it (Hit it Hl)) as [c [run [_ [_ Hp]]]].
    unfold element in Hin. rewrite !in_app_iff in Hin.
    destruct Hin as [Hin|[Hin|[Hin|[Hin|[Hin|[Hin|Hin]]]]]];
      try contradiction;
      try (now apply (plain_not_in x it Hx' Hp));
      cbn in Hin; cbn in Hx; repeat (destruct Hin as [<-|Hin]; [discriminate Hx|]);
      destruct Hin.
Qed.

Lemma free_rule_skips_elements x rl tag items :
  existsb (N.eqb x) (lit "`*_~[") = true ->
  existsb (N.eqb x) tag = false ->
  requires [x] (pattern rl) = true ->
  Forall (fun it => plain_item it = true) items ->
  apply_rule rl (join (map (element tag) items)) = join (map (element tag) items).
Proof.
  intros Hx Hw R Hit. apply (apply_rule_no_char x rl _ R).
  now apply element_lines_no_char.
Qed.

Lemma scan_element w tag it :
  hd 0 w = 60 -> w <> [] ->
  scan w 0 (lit "<" ++ tag ++ lit ">") = 0%nat ->
  scan w 0 (lit "</" ++ tag ++ lit ">") = 0%nat ->
  forallb plain_char it = true ->
  scan w 0 (element tag it) = 0%nat.
Proof.
  intros Hw Hne H1 H2 Hp. unfold element.
  rewrite (app_assoc (lit "<")), (app_assoc (lit "<" ++ tag)).
  rewrite <- (app_assoc (lit "<") tag (lit ">")).
  rewrite scan_app, H1, scan_app.
  rewrite scan_other; [exact H2 | | exact Hne].
  rewrite Hw. now apply plain_first_other.
Qed.

(** A replacement whose pattern needs a text that begins with < and does
    not occur in the tags leaves lines of elements alone. *)
Lemma replace_skips_elements r t w tag items :
  requires w r = true -> recognises w = true ->
  hd 0 w = 60 -> w <> [] -> (0 <> length w)%nat ->
  scan w 0 (lit "<" ++ tag ++ lit ">") = 0%nat ->
  scan w 0 (lit "</" ++ tag ++ lit ">") = 0%nat ->
  scan w 0 [nl] = 0%nat ->
  Forall (fun it => plain_item it = true) items ->
  replace_tpl false r t (join (map (element tag) items)) = join (map (element tag) items).
Proof.
  intros R Hrec Hw Hne Hlen H1 H2 Hnl Hit. unfold replace_tpl.
  apply replace_fn_absent with w; [exact R|].
  apply free_of_absent; [exact Hrec|]. unfold free_of.
  rewrite scan_join; [exact Hlen | | exact Hnl].
  intros l Hl. apply in_map_iff in Hl. destruct Hl as [it [<- Hl]].
  rewrite Forall_forall in Hit.
  destruct (plain_item_inv it (Hit it Hl)) as [c [run [_ [_ Hp]]]].
  now apply scan_element.
Qed.

Lemma trim_elements tag items :
  items <> [] -> trim (join (map (element tag) items)) = join (map (element tag) items).
Proof.
  intros Hne.
  destruct (join_bracketed 60 62 (map (element tag) items)) as [s ->].
  - destruct items; [contradiction | discriminate].
  - intros l Hl. apply in_map_iff in Hl. destruct Hl as [it [<- _]].
    exists (tag ++ lit ">" ++ it ++ lit "</" ++ tag). unfold element.
    change (lit "<" ++ tag ++ lit ">" ++ it ++ lit "</" ++ tag ++ lit ">")
      with (60 :: tag ++ lit ">" ++ it ++ lit "</" ++ tag ++ [62]).
    now rewrite <- !app_assoc.
  - now apply trim_id.
Qed.

Lemma marked_lines_nonempty w items :
  items <> [] -> join (map (marked w) items) <> [].
Proof.
  destruct items as [|it items]; [contradiction|]. intros _.
  cbn [map]. destruct (map (marked w) items); unfold marked; cbn [join];
    destruct w; discriminate.
Qed.

(** The pipeline of parse on a text without backtick and pipe of which
    one rule of the list makes something that the later rules leave
    alone. *)
Lemma parse_rule_steps before rl after src out :
  initializeRules = before ++ rl :: after ->
  src <> [] -> ~ In 96 src -> ~ In 124 src ->
  (forall r, In r before -> apply_rule r src = src) ->
  apply_rule rl src = out ->
  (forall r, In r after -> apply_rule r out = out) ->
  parse src = trim (consolidateBlockquotes (consolidateLists out)).
Proof.
  intros Hsplit Hne H96 H124 Hb Hr Ha.
  rewrite (parse_steps src _ [] _ [] Hne
             (protect_no_tick re_fence "CODE_BLOCK" _ eq_refl H96)
             (protect_no_tick re_tick "INLINE_CODE" _ eq_refl H96)).
  rewrite (parseTables_no_pipe _ H124), Hsplit.
  now rewrite (fold_rules_split before rl after _ _ Hb Hr Ha).
Qed.

Lemma parse_marked_steps before rl after w tag items :
  initializeRules = before ++ rl :: after ->
  existsb (N.eqb 96) w = false -> existsb (N.eqb 124) w = false ->
  items <> [] ->
  Forall (fun it => plain_item it = true) items ->
  (forall r, In r before ->
     apply_rule r (join (map (marked w) items)) = join (map (marked w) items)) ->
  apply_rule rl (join (map (marked w) items)) = join (map (element tag) items) ->
  (forall r, In r after ->
     apply_rule r (join (map (element tag) items)) = join (map (element tag) items)) ->
  parse (join (map (marked w) items))
  = trim (consolidateBlockquotes (consolidateLists (join (map (element tag) items)))).
Proof.
  intros Hsplit H96w H124w Hne Hit Hb Hr Ha.
  apply (parse_rule_steps before rl after); try assumption.
  - now apply marked_lines_nonempty.
  - now apply marked_lines_no_char.
  - now apply marked_lines_no_char.
Qed.

(** The consolidation and [trim] leave alone elements that none of the
    consolidation patterns finds. *)
Lemma consolidate_elements tag items :
  items <> [] ->
  Forall (fun it => plain_item it = true) items ->
  (forall w', In w' [lit "</u"; lit "</o"; lit "</b"] ->
     scan w' 0 (lit "<" ++ tag ++ lit ">") = 0%nat
     /\ scan w' 0 (lit "</" ++ tag ++ lit ">") = 0%nat) ->
  trim (consolidateBlockquotes (consolidateLists (join (map (element tag) items))))
  = join (map (element tag) items).
Proof.
  intros Hne Hit Hscan.
  unfold consolidateLists, consolidateBlockquotes.
  rewrite (replace_skips_elements _ _ (lit "</u") tag items);
    try reflexivity; try discriminate; try assumption;
    try (apply Hscan; in_list).
  rewrite (replace_skips_elements _ _ (lit "</o") tag items);
    try reflexivity; try discriminate; try assumption;
    try (apply Hscan; in_list).
  rewrite (replace_skips_elements _ _ (lit "</b") tag items);
    try reflexivity; try discriminate; try assumption;
    try (apply Hscan; in_list).
  now apply trim_elements.
Qed.

(** The same when none of the consolidation patterns finds the elements. *)
Lemma parse_marked_lines before rl after w tag items :
  initializeRules = before ++ rl :: after ->
  existsb (N.eqb 96) w = false -> existsb (N.eqb 124) w = false ->
  items <> [] ->
  Forall (fun it => plain_item it = true) items ->
  (forall r, In r before ->
     apply_rule r (join (map (marked w) items)) = join (map (marked w) items)) ->
  apply_rule rl (join (map (marked w) items)) = join (map (element tag) items) ->
  (forall r, In r after ->
     apply_rule r (join (map (element tag) items)) = join (map (element tag) items)) ->
  (forall w', In w' [lit "</u"; lit "</o"; lit "</b"] ->
     scan w' 0 (lit "<" ++ tag ++ lit ">") = 0%nat
     /\ scan w' 0 (lit "</" ++ tag ++ lit ">") = 0%nat) ->
  parse (join (map (marked w) items)) = join (map (element tag) items).
Proof.
  intros Hsplit H96w H124w Hne Hit Hb Hr Ha Hscan.
  rewrite (parse_marked_steps before rl after w tag items) by assumption.
  now apply consolidate_elements.
Qed.

(** *** Elements of one kind that follow each other *)

Lemma match_at_may_start ml r p c s :
  may_start r c = false -> match_at ml r p (c :: s) = None.
Proof. intros H. unfold match_at. now rewrite may_start_sound. Qed.

Lemma replace_pure_copy_other ml r f x u p v :
  (forall c, may_start r c = true -> c = x) -> ~ In x u ->
  replace_pure ml r f p (u ++ v) = u ++ replace_pure ml r f (rev u ++ p) v.
Proof.
  intros Hr Hu. apply replace_pure_copy. intros u1 c u2 E.
  apply match_at_may_start. destruct (may_start r c) eqn:M; [|reflexivity].
  exfalso. apply Hu. rewrite E, <- (Hr c M). apply in_or_app. right. now left.
Qed.

End Blocks.

(* ===================================================================== *)
(** ** Headings *)
(* ===================================================================== *)

Ltac skip_marked Hne Hit :=
  idtac;
  match goal with
  | |- apply_rule ?rl _ = _ =>
      first
        [ apply (rule_skips_marked rl _ _ _ eq_refl eq_refl);
          [ reflexivity | exact Hne | exact Hit | intros q s; reflexivity ]
        | apply (free_rule_skips_marked 42 rl); [reflexivity | reflexivity | reflexivity | exact Hit]
        | apply (free_rule_skips_marked 95 rl); [reflexivity | reflexivity | reflexivity | exact Hit]
        | apply (free_rule_skips_marked 126 rl); [reflexivity | reflexivity | reflexivity | exact Hit]
        | apply (free_rule_skips_marked 96 rl); [reflexivity | reflexivity | reflexivity | exact Hit]
        | apply (free_rule_skips_marked 91 rl); [reflexivity | reflexivity | reflexivity | exact Hit] ]
  end.

Ltac skip_elements Hne Hit Hok :=
  idtac;
  match goal with
  | |- apply_rule ?rl _ = _ =>
      first
        [ apply (rule_skips_tag_lines rl _ _ eq_refl eq_refl Hne);
          [ intros l Hl; apply (Hok l Hl) | intros l Hl; apply (Hok l Hl)
          | intros q s; reflexivity ]
        | apply (paragraph_rule_skips_tag_lines _ Hne);
          [ intros l Hl; apply (Hok l Hl) | intros l Hl; apply (Hok l Hl) ]
        | apply (free_rule_skips_elements 42 rl); [reflexivity | reflexivity | reflexivity | exact Hit]
        | apply (free_rule_skips_elements 95 rl); [reflexivity | reflexivity | reflexivity | exact Hit]
        | apply (free_rule_skips_elements 126 rl); [reflexivity | reflexivity | reflexivity | exact Hit]
        | apply (free_rule_skips_elements 96 rl); [reflexivity | reflexivity | reflexivity | exact Hit]
        | apply (free_rule_skips_elements 91 rl); [reflexivity | reflexivity | reflexivity | exact Hit] ]
  end.

Ltac each_rule tac :=
  let r := fresh "r" in
  let Hin := fresh "Hin" in
  intros r Hin; cbn [In firstn skipn initializeRules] in Hin;
  repeat (destruct Hin as [<-|Hin]; [tac|]);
  destruct Hin.

Section Headings.

Lemma heading_lines_parsed :
  forall (n : nat) (items : list str),
    (1 <= n <= 6)%nat ->
    items <> [] ->
    Forall (fun it => plain_item it = true) items ->
    parse (join (map (marked (repeat (c_ "#") n)) items))
    = join (map (element (lit "h" ++ decimal n)) items).
Proof.
  intros n items Hn Hne Hit.
  assert (Hne' : forall tag, map (element tag) items <> [])
    by (intros tag; destruct items; [contradiction | discriminate]).
  assert (Hok : forall d, (d <? 10) = true ->
            forall l, In l (map (element [104; 48 + d]) items) ->
                      (l <> [] /\ all dot l) /\ tag_line l).
  { intros d Hd. apply element_lines_ok; [| | exact Hit].
    - unfold all. cbn [forallb]. rewrite andb_true_r. apply andb_true_iff; split; [reflexivity|].
      apply N.ltb_lt in Hd. unfold dot, isLineTerminator.
      repeat (rewrite (proj2 (N.eqb_neq _ _)) by lia). reflexivity.
    - unfold all. cbn [forallb]. rewrite andb_true_r. apply andb_true_iff; split; [reflexivity|].
      apply N.ltb_lt in Hd. unfold class_mem. cbn [existsb citem_mem].
      rewrite (proj2 (N.eqb_neq _ _)) by lia. reflexivity. }
  destruct n as [|[|[|[|[|[|[|n]]]]]]]; try lia.
  - apply (parse_marked_lines
             [heading 6; heading 5; heading 4; heading 3; heading 2] (heading 1)
             (skipn 6 initializeRules) (lit "#") [104; 49] items eq_refl eq_refl eq_refl Hne Hit).
    + each_rule ltac:(skip_marked Hne Hit).
    + apply (marker_rule_on_lines (heading 1) (lit "#") (lit "<h1>") (lit "</h1>") items
               eq_refl eq_refl eq_refl eq_refl Hne Hit).
    + each_rule ltac:(skip_elements (Hne' (lit "h1")) Hit (Hok 1 eq_refl)).
    + each_rule ltac:(split; reflexivity).
  - apply (parse_marked_lines
             [heading 6; heading 5; heading 4; heading 3] (heading 2)
             (skipn 5 initializeRules) (lit "##") [104; 50] items eq_refl eq_refl eq_refl Hne Hit).
    + each_rule ltac:(skip_marked Hne Hit).
    + apply (marker_rule_on_lines (heading 2) (lit "##") (lit "<h2>") (lit "</h2>") items
               eq_refl eq_refl eq_refl eq_refl Hne Hit).
    + each_rule ltac:(skip_elements (Hne' (lit "h2")) Hit (Hok 2 eq_refl)).
    + each_rule ltac:(split; reflexivity).
  - apply (parse_marked_lines
             [heading 6; heading 5; heading 4] (heading 3)
             (skipn 4 initializeRules) (lit "###") [104; 51] items eq_refl eq_refl eq_refl Hne Hit).
    + each_rule ltac:(skip_marked Hne Hit).
    + apply (marker_rule_on_lines (heading 3) (lit "###") (lit "<h3>") (lit "</h3>") items
               eq_refl eq_refl eq_refl eq_refl Hne Hit).
    + each_rule ltac:(skip_elements (Hne' (lit "h3")) Hit (Hok 3 eq_refl)).
    + each_rule ltac:(split; reflexivity).
  - apply (parse_marked_lines
             [heading 6; heading 5] (heading 4)
             (skipn 3 initializeRules) (lit "####") [104; 52] items eq_refl eq_refl eq_refl Hne Hit).
    + each_rule ltac:(skip_marked Hne Hit).
    + apply (marker_rule_on_lines (heading 4) (lit "####") (lit "<h4>") (lit "</h4>") items
               eq_refl eq_refl eq_refl eq_refl Hne Hit).
    + each_rule ltac:(skip_elements (Hne' (lit "h4")) Hit (Hok 4 eq_refl)).
    + each_rule ltac:(split; reflexivity).
  - apply (parse_marked_lines
             [heading 6] (heading 5)
             (skipn 2 initializeRules) (lit "#####") [104; 53] items eq_refl eq_refl eq_refl Hne Hit).
    + each_rule ltac:(skip_marked Hne Hit).
    + apply (marker_rule_on_lines (heading 5) (lit "#####") (lit "<h5>") (lit "</h5>") items
               eq_refl eq_refl eq_refl eq_refl Hne Hit).
    + each_rule ltac:(skip_elements (Hne' (lit "h5")) Hit (Hok 5 eq_refl)).
    + each_rule ltac:(split; reflexivity).
  - apply (parse_marked_lines
             [] (heading 6)
             (skipn 1 initializeRules) (lit "######") [104; 54] items eq_refl eq_refl eq_refl Hne Hit).
    + each_rule ltac:(skip_marked Hne Hit).
    + apply (marker_rule_on_lines (heading 6) (lit "######") (lit "<h6>") (lit "</h6>") items
               eq_refl eq_refl eq_refl eq_refl Hne Hit).
    + each_rule ltac:(skip_elements (Hne' (lit "h6")) Hit (Hok 6 eq_refl)).
    + each_rule ltac:(split; reflexivity).
Qed.

(** X6.  A document of one or more lines, each made of n number signs with n
    from 1 to 6, a blank and a plain item, is rendered as one element hn per
    line with the item as its content, the elements separated by line feeds.
    A plain item is a nonempty text that does not begin with white space and
    holds no line terminator and none of the characters that an inline rule,
    a table or a tag starts from. *)
Theorem parse_heading_lines :
  forall (n : nat) (items : list str),
    (1 <= n <= 6)%nat ->
    items <> [] ->
    Forall (fun it => plain_item it = true) items ->
    parse (join (map (marked (repeat (c_ "#") n)) items))
    = join (map (element (lit "h" ++ decimal n)) items).
Proof. exact heading_lines_parsed. Qed.

Lemma parse_heading_lines_witness :
  parse (join (map (marked (repeat (c_ "#") 2)) [lit "Title"; lit "Next"]))
  = join (map (element (lit "h" ++ decimal 2)) [lit "Title"; lit "Next"]).
Proof.
  apply (parse_heading_lines 2 [lit "Title"; lit "Next"]).
  - lia.
  - discriminate.
  - repeat constructor.
Defined.


End Headings.

(* ===================================================================== *)
(** ** Blockquotes *)
(* ===================================================================== *)

Section Blockquotes.

Variable tag : str.
Hypothesis tag_first : (47 =? hd 0 tag) = false.
Hypothesis tag_no_lt : ~ In 60 tag.

Local Abbreviation op := (lit "<" ++ tag ++ lit ">").
Local Abbreviation cl := (lit "</" ++ tag ++ lit ">").
Local Abbreviation f := (fun (_ : list N) st => expand [TLit [nl]] st).

Lemma join_elements : forall items,
  items <> [] -> join (map (element tag) items) = op ++ elements_tail tag items.
Proof.
  induction items as [|it items IH]; intros Hne; [contradiction|].
  destruct items as [|it' items].
  - cbn [map join elements_tail]. unfold element. now rewrite <- !app_assoc, app_nil_r.
  - cbn [map]. rewrite join_cons. cbn [map] in IH. rewrite IH by discriminate.
    cbn [elements_tail]. unfold element. now rewrite <- !app_assoc.
Qed.

Lemma adjacent_starts c : may_start (adjacent_tags tag) c = true -> c = 60.
Proof.
  change (may_start (adjacent_tags tag) c) with (60 =? c). intros H.
  apply N.eqb_eq in H. now subst.
Qed.

Lemma match_at_adjacent_open p v :
  match_at false (adjacent_tags tag) p (op ++ v) = None.
Proof.
  unfold match_at, adjacent_tags. rewrite m_group. cbn [cat]. rewrite m_seq_nil; [reflexivity|].
  apply m_str_nil. cbn [suf]. destruct tag as [|t0 tr].
  - reflexivity.
  - cbn [hd] in tag_first.
    change (prefixb (lit "</" ++ (t0 :: tr) ++ lit ">") ((lit "<" ++ (t0 :: tr) ++ lit ">") ++ v))
      with ((60 =? 60) && ((47 =? t0)
            && prefixb ((t0 :: tr) ++ lit ">") ((tr ++ lit ">") ++ v))).
    now rewrite tag_first.
Qed.

Lemma match_at_adjacent_close p :
  match_at false (adjacent_tags tag) p cl = None.
Proof.
  unfold match_at, adjacent_tags. rewrite m_group. cbn [cat]. rewrite m_seq.
  rewrite <- (app_nil_r cl) at 2. rewrite m_str_app. cbn [flat_map].
  rewrite m_seq. unfold spaces0.
  pose proof (m_star_run false false [CSpace] [] (rev cl ++ p) [] [] eq_refl I) as E.
  cbn [app] in E. rewrite app_nil_r, E. reflexivity.
Qed.

Lemma tag_rest_no_lt : ~ In 60 (tag ++ lit ">").
Proof. intros H. apply in_app_or in H. destruct H as [H|[H|[]]]; [auto | discriminate]. Qed.

Lemma close_rest_no_lt : ~ In 60 (47 :: tag ++ lit ">").
Proof. intros [H|H]; [discriminate | now apply tag_rest_no_lt]. Qed.

Lemma merge_tail : forall items p,
  items <> [] ->
  Forall (fun it => plain_item it = true) items ->
  replace_pure false (adjacent_tags tag) f p (elements_tail tag items)
  = join items ++ cl.
Proof.
  induction items as [|it items IH]; intros p Hne Hit; [contradiction|].
  inversion Hit as [|x xs Hx Hxs]; subst.
  destruct (plain_item_inv it Hx) as [c [run [_ [_ Hp]]]].
  cbn [elements_tail].
  rewrite (replace_pure_copy_other false _ f 60 it p _ adjacent_starts
             (plain_not_in 60 it eq_refl Hp)).
  set (q := rev it ++ p).
  destruct items as [|it' items].
  - rewrite app_nil_r. cbn [join]. f_equal.
    change cl with (60 :: (47 :: tag ++ lit ">")) at 1.
    rewrite replace_pure_skip by (apply match_at_adjacent_close).
    rewrite <- (app_nil_r (47 :: tag ++ lit ">")) at 1.
    rewrite (replace_pure_copy_other false _ f 60 _ _ _ adjacent_starts close_rest_no_lt).
    rewrite replace_pure_nil by reflexivity. now rewrite app_nil_r.
  - set (rest := elements_tail tag (it' :: items)).
    assert (F : first false (adjacent_tags tag)
                  (MState q (cl ++ nl :: op ++ rest) [])
                  (MState (rev op ++ nl :: rev cl ++ q) rest
                          [(1%nat, cl ++ nl :: op)])).
    { unfold adjacent_tags.
      assert (F0 : first false (Seq (Str cl) (Seq spaces0 (Str op)))
                     (MState q (cl ++ nl :: op ++ rest) [])
                     (MState (rev op ++ nl :: rev cl ++ q) rest [])).
      { eapply first_seq; [apply first_str|].
        eapply first_seq.
        - apply (first_star_run false false [CSpace] [nl] _ (op ++ rest) []);
            reflexivity.
        - apply first_str. }
      apply (first_group false 1) in F0. cbn [pre suf caps] in F0.
      replace (span (MState q (cl ++ nl :: op ++ rest) [])
                    (MState (rev op ++ nl :: rev cl ++ q) rest []))
        with (cl ++ nl :: op) in F0; [exact F0|].
      symmetry.
      replace (cl ++ nl :: op ++ rest) with ((cl ++ nl :: op) ++ rest)
        by (now rewrite <- app_assoc).
      now apply span_app. }
    rewrite (replace_pure_match false _ _ q _ _ F).
    + cbn [pre suf]. unfold expand at 1. cbn [flat_map app].
      unfold rest. rewrite IH; [|discriminate | exact Hxs].
      rewrite join_cons. now rewrite <- app_assoc.
    + cbn [suf]. repeat (rewrite length_app || cbn [length]). lia.
Qed.

(** The replacement of consolidateBlockquotes joins the elements of one
    kind that follow each other line by line into one element. *)
Lemma merge_elements items :
  items <> [] ->
  Forall (fun it => plain_item it = true) items ->
  replace_tpl false (adjacent_tags tag) [TLit [nl]] (join (map (element tag) items))
  = op ++ join items ++ cl.
Proof.
  intros Hne Hit. rewrite join_elements by exact Hne.
  unfold replace_tpl. rewrite replace_fn_pure.
  change (op ++ elements_tail tag items) with (60 :: (tag ++ lit ">") ++ elements_tail tag items).
  rewrite replace_pure_skip by (apply (match_at_adjacent_open [] (elements_tail tag items))).
  rewrite (replace_pure_copy_other false _ f 60 _ _ _ adjacent_starts tag_rest_no_lt).
  now rewrite merge_tail.
Qed.

End Blockquotes.

Section BlockquoteLines.

Lemma blockquote_lines_parsed :
  forall items : list str,
    items <> [] ->
    Forall (fun it => plain_item it = true) items ->
    parse (join (map (marked (lit ">")) items))
    = lit "<blockquote>" ++ join items ++ lit "</blockquote>".
Proof.
  intros items Hne Hit.
  assert (Hne' : map (element (lit "blockquote")) items <> [])
    by (destruct items; [contradiction | discriminate]).
  assert (Hok : forall l, In l (map (element (lit "blockquote")) items) ->
                          (l <> [] /\ all dot l) /\ tag_line l)
    by (apply element_lines_ok; [reflexivity | reflexivity | exact Hit]).
  rewrite (parse_marked_steps (firstn 20 initializeRules) blockquote_rule
             (skipn 21 initializeRules) (lit ">") (lit "blockquote") items
             eq_refl eq_refl eq_refl Hne Hit).
  - unfold consolidateLists, consolidateBlockquotes.
    rewrite (replace_skips_elements _ _ (lit "</u") (lit "blockquote") items);
      try reflexivity; try discriminate; try assumption.
    rewrite (replace_skips_elements _ _ (lit "</o") (lit "blockquote") items);
      try reflexivity; try discriminate; try assumption.
    change (re_adjacent "blockquote") with (adjacent_tags (lit "blockquote")).
    rewrite (merge_elements (lit "blockquote") eq_refl) by
      (assumption || (intros H; cbn in H; intuition discriminate)).
    change ((lit "<" ++ lit "blockquote" ++ lit ">") ++ join items
            ++ lit "</" ++ lit "blockquote" ++ lit ">")
      with (lit "<blockquote>" ++ join items ++ lit "</blockquote>").
    replace (lit "<blockquote>" ++ join items ++ lit "</blockquote>")
      with (60 :: (lit "blockquote>" ++ join items ++ lit "</blockquote") ++ [62])
      by (rewrite <- !app_assoc; reflexivity).
    apply trim_id; reflexivity.
  - each_rule ltac:(skip_marked Hne Hit).
  - apply (marker_rule_on_lines blockquote_rule (lit ">") (lit "<blockquote>")
             (lit "</blockquote>") items eq_refl eq_refl eq_refl eq_refl Hne Hit).
  - each_rule ltac:(skip_elements Hne' Hit Hok).
Qed.

(** X7.  One or more consecutive quote lines, each a greater-than sign, a
    blank and a plain item, are rendered as a single blockquote element
    whose content is the items separated by line feeds: the rule wraps every
    line, and consolidateBlockquotes puts a line feed in for every closing
    tag that an opening tag follows. *)
Theorem parse_blockquote_lines :
  forall items : list str,
    items <> [] ->
    Forall (fun it => plain_item it = true) items ->
    parse (join (map (marked (lit ">")) items))
    = lit "<blockquote>" ++ join items ++ lit "</blockquote>".
Proof. exact blockquote_lines_parsed. Qed.

Lemma parse_blockquote_lines_witness :
  parse (join (map (marked (lit ">")) [lit "one"; lit "two"]))
  = lit "<blockquote>" ++ join [lit "one"; lit "two"] ++ lit "</blockquote>".
Proof.
  apply (parse_blockquote_lines [lit "one"; lit "two"]).
  - discriminate.
  - repeat constructor.
Defined.


End BlockquoteLines.

(* ===================================================================== *)
(** ** Paragraphs *)
(* ===================================================================== *)

Ltac skip_text facts :=
  idtac;
  match goal with
  | |- apply_rule ?rl _ = _ =>
      first
        [ apply (rule_skips_lines rl _ _ eq_refl eq_refl);
          [ assumption | assumption
          | let l := fresh "l" in
            let Hl := fresh "Hl" in
            intros l Hl;
            destruct (facts l Hl)
              as [? [? [-> [_ [_ [F35 [F45 [F42 [F95 [F62 [F60 [Fb Fd]]]]]]]]]]]];
            cbn [hd];
            first [exact F35 | exact F45 | exact F42 | exact F95 | exact F62
                  | exact Fb | exact Fd] ]
        | apply (apply_rule_no_char 42 rl); [reflexivity | assumption]
        | apply (apply_rule_no_char 95 rl); [reflexivity | assumption]
        | apply (apply_rule_no_char 126 rl); [reflexivity | assumption]
        | apply (apply_rule_no_char 96 rl); [reflexivity | assumption]
        | apply (apply_rule_no_char 91 rl); [reflexivity | assumption] ]
  end.

Section Paragraphs.

Lemma text_line_inv l :
  text_line l = true ->
  exists c run, l = c :: run /\ isSpace c = false /\ forallb plain_char l = true
    /\ (35 =? c) = false /\ (45 =? c) = false /\ (42 =? c) = false
    /\ (95 =? c) = false /\ (62 =? c) = false /\ (60 =? c) = false
    /\ class_mem false (set_ "*-+") c = false
    /\ class_mem false [CDigit] c = false.
Proof.
  unfold text_line. rewrite !andb_true_iff, !negb_true_iff. intros [[Hp Hm] Hd].
  destruct (plain_item_inv l Hp) as [c [run [-> [Hc Hpl]]]].
  exists c, run. cbn [hd] in Hm, Hd.
  assert (Hx : forall x, existsb (N.eqb x) (lit "`*_~[]|<") = true -> (x =? c) = false).
  { intros x Hx. apply N.eqb_neq. intros <-.
    apply (plain_not_in x (x :: run) Hx Hpl). now left. }
  cbn [existsb lit map list_ascii_of_string] in Hm.
  rewrite !orb_false_iff in Hm. destruct Hm as [H35 [H45 [H43 [H62 _]]]].
  rewrite N.eqb_sym in H35, H45, H43, H62.
  change (N_of_ascii "#") with 35 in H35. change (N_of_ascii "-") with 45 in H45.
  change (N_of_ascii "+") with 43 in H43. change (N_of_ascii ">") with 62 in H62.
  repeat split; try assumption; try (apply Hx; reflexivity).
  - unfold class_mem. cbn [existsb set_ lit map list_ascii_of_string citem_mem xorb].
    change (N_of_ascii "*") with 42. change (N_of_ascii "-") with 45.
    change (N_of_ascii "+") with 43.
    rewrite (N.eqb_sym c 42), (N.eqb_sym c 45), (N.eqb_sym c 43).
    now rewrite (Hx 42 eq_refl), H45, H43.
  - unfold class_mem. cbn [existsb citem_mem xorb]. now rewrite Hd.
Qed.

Lemma text_lines_ok lines :
  Forall (fun l => text_line l = true) lines ->
  forall l, In l lines -> l <> [] /\ all dot l.
Proof.
  rewrite Forall_forall. intros H l Hl.
  destruct (text_line_inv l (H l Hl)) as [c [run [-> [_ [Hp _]]]]].
  split; [discriminate | now apply plain_dot].
Qed.

Lemma text_lines_no_char x lines :
  Forall (fun l => text_line l = true) lines ->
  existsb (N.eqb x) (lit "`*_~[]|<") = true ->
  ~ In x (join lines).
Proof.
  rewrite Forall_forall. intros H Hx Hin.
  apply In_join in Hin. destruct Hin as [->|[l [Hl Hin]]]; [discriminate|].
  destruct (text_line_inv l (H l Hl)) as [c [run [_ [_ [Hp _]]]]].
  now apply (plain_not_in x l Hx Hp).
Qed.

Lemma trim_start_snoc c : forall x,
  isSpace c = false -> exists y, trim_start (x ++ [c]) = y ++ [c].
Proof.
  intros x Hc. induction x as [|a x [y IH]].
  - exists []. cbn. now rewrite Hc.
  - cbn [app trim_start]. destruct (isSpace a); [now exists y | now exists (a :: x)].
Qed.

Lemma trim_keeps_head c run :
  isSpace c = false -> exists t, trim (c :: run) = c :: t.
Proof.
  intros Hc. unfold trim. rewrite trim_start_id by exact Hc.
  destruct (trim_end_prefix (c :: run)) as [y E].
  unfold trim_end in *. cbn [rev] in *.
  destruct (exists_last (l := rev run ++ [c])) as [x [d Ex]];
    [now destruct (rev run)|].
  apply app_inj_tail in Ex as Ex'.
  destruct (trim_start_snoc c (rev run) Hc) as [z Hz].
  rewrite Hz in E |- *. rewrite rev_app_distr in E |- *. cbn [rev app] in E |- *.
  now exists (rev z).
Qed.

Lemma first_neglook ml r st : m ml r st = [] -> first ml (NegLook r) st st.
Proof. intros H. exists []. cbn [m]. now rewrite H. Qed.

Lemma not_nl_of_dot l : all dot l -> all (class_mem true [CChar nl]) l.
Proof.
  unfold all. rewrite !forallb_forall. intros H x Hx. apply H in Hx.
  unfold dot, isLineTerminator in Hx. unfold class_mem. cbn [existsb citem_mem].
  rewrite orb_false_r. cbn [xorb]. apply negb_true_iff in Hx.
  rewrite !orb_false_iff in Hx. apply negb_true_iff. apply Hx.
Qed.

Lemma line_end_stops_nl rest : line_end rest -> stops (class_mem true [CChar nl]) rest.
Proof. intros [->|[more ->]]; reflexivity. Qed.

(** The paragraph rule wraps every line that begins with a character
    other than white space and <. *)
Lemma paragraph_rule_on_lines lines :
  lines <> [] ->
  (forall l, In l lines ->
     exists c run, l = c :: run /\ isSpace c = false /\ (60 =? c) = false /\ all dot l) ->
  apply_rule paragraph_rule (join lines) = join (map (element (lit "p")) lines).
Proof.
  intros Hne Hit.
  apply (apply_rule_linewise paragraph_rule
           (cat [NegLook (cat [Chr (c_ "<"); Plus true (not_ ">"); Chr (c_ ">")]);
                 Group 1 (Plus true (Cls true [CChar nl])); Eol])
           (element (lit "p")) _ eq_refl eq_refl Hne).
  - intros l Hl. destruct (Hit l Hl) as [c [run [-> [_ [_ Hd]]]]].
    split; [discriminate | exact Hd].
  - intros l q rest Hl Hq Hrest. right.
    destruct (Hit l Hl) as [c [run [-> [Hc [H60 Hd]]]]].
    pose proof (first_plus_run true true [CChar nl] c run q rest []
                  (not_nl_of_dot _ Hd) (line_end_stops_nl rest Hrest)) as F.
    apply (first_group true 1) in F. cbn [pre suf caps] in F.
    rewrite (span_app q (c :: run) rest []) in F by reflexivity.
    eexists. split; [|split; [|split]].
    + cbn [cat]. eapply first_seq.
      { apply first_neglook. apply may_start_sound. exact H60. }
      eapply first_seq; [exact F|].
      apply first_eol. now apply line_end_at_eol.
    + reflexivity.
    + reflexivity.
    + unfold rule_out. cbn [repl paragraph_rule]. unfold arg, cap. cbn [caps assoc Nat.eqb].
      destruct (trim_keeps_head c run Hc) as [t ->].
      unfold startsWith. change (lit "<") with [60]. cbn [prefixb]. rewrite H60.
      reflexivity.
Qed.

Lemma paragraph_rule_on_text_lines lines :
  lines <> [] ->
  Forall (fun l => text_line l = true) lines ->
  apply_rule paragraph_rule (join lines) = join (map (element (lit "p")) lines).
Proof.
  intros Hne Hit. apply paragraph_rule_on_lines; [exact Hne|].
  intros l Hl. rewrite Forall_forall in Hit.
  destruct (text_line_inv l (Hit l Hl))
    as [c [run [-> [Hc [Hp [_ [_ [_ [_ [_ [H60 _]]]]]]]]]]].
  exists c, run. repeat split; try assumption. now apply plain_dot.
Qed.

(** X8.  A document of lines of plain text, none of which begins with a
    number sign, a hyphen, a plus sign, a greater-than sign or a digit, is
    rendered as one p element per line: consecutive lines are not gathered
    into one paragraph. *)
Theorem parse_text_lines :
  forall lines : list str,
    lines <> [] ->
    Forall (fun l => text_line l = true) lines ->
    parse (join lines) = join (map (element (lit "p")) lines).
Proof.
  intros lines Hne Hit.
  assert (Hok : forall l, In l lines -> l <> [] /\ all dot l)
    by now apply text_lines_ok.
  assert (Hplain : Forall (fun it => plain_item it = true) lines).
  { rewrite Forall_forall in Hit |- *. intros l Hl. specialize (Hit l Hl).
    unfold text_line in Hit. rewrite !andb_true_iff in Hit. tauto. }
  assert (facts : forall l, In l lines ->
            exists c run, l = c :: run /\ isSpace c = false /\ forallb plain_char l = true
              /\ (35 =? c) = false /\ (45 =? c) = false /\ (42 =? c) = false
              /\ (95 =? c) = false /\ (62 =? c) = false /\ (60 =? c) = false
              /\ class_mem false (set_ "*-+") c = false
              /\ class_mem false [CDigit] c = false).
  { rewrite Forall_forall in Hit. intros l Hl. now apply text_line_inv, Hit. }
  assert (H42 : ~ In 42 (join lines)) by now apply text_lines_no_char.
  assert (H95 : ~ In 95 (join lines)) by now apply text_lines_no_char.
  assert (H126 : ~ In 126 (join lines)) by now apply text_lines_no_char.
  assert (H96 : ~ In 96 (join lines)) by now apply text_lines_no_char.
  assert (H91 : ~ In 91 (join lines)) by now apply text_lines_no_char.
  assert (H124 : ~ In 124 (join lines)) by now apply text_lines_no_char.
  rewrite (parse_rule_steps (firstn 24 initializeRules) paragraph_rule [] (join lines)
             (join (map (element (lit "p")) lines)) eq_refl).
  - apply consolidate_elements; [exact Hne | exact Hplain|].
    each_rule ltac:(split; reflexivity).
  - destruct lines as [|l lines]; [contradiction|].
    destruct (Hok l (or_introl eq_refl)) as [Hl _].
    destruct lines; [exact Hl|]. rewrite join_cons. destruct l; [contradiction | discriminate].
  - exact H96.
  - exact H124.
  - each_rule ltac:(skip_text facts).
  - now apply paragraph_rule_on_text_lines.
  - intros r [].
Qed.

Lemma parse_text_lines_witness :
  parse (join [lit "Hello world"; lit "a second line"])
  = join (map (element (lit "p")) [lit "Hello world"; lit "a second line"]).
Proof.
  apply (parse_text_lines [lit "Hello world"; lit "a second line"]).
  - discriminate.
  - repeat constructor.
Defined.


End Paragraphs.

(* ===================================================================== *)
(** ** Horizontal rules *)
(* ===================================================================== *)

Ltac skip_tags Hne Hok :=
  idtac;
  match goal with
  | |- apply_rule ?rl _ = _ =>
      first
        [ apply (rule_skips_tag_lines rl _ _ eq_refl eq_refl Hne);
          [ intros l Hl; apply (Hok l Hl) | intros l Hl; apply (Hok l Hl)
          | intros q s; reflexivity ]
        | apply (paragraph_rule_skips_tag_lines _ Hne);
          [ intros l Hl; apply (Hok l Hl) | intros l Hl; apply (Hok l Hl) ]
        | apply (apply_rule_no_char 42 rl); [reflexivity | assumption]
        | apply (apply_rule_no_char 95 rl); [reflexivity | assumption]
        | apply (apply_rule_no_char 126 rl); [reflexivity | assumption]
        | apply (apply_rule_no_char 96 rl); [reflexivity | assumption]
        | apply (apply_rule_no_char 91 rl); [reflexivity | assumption] ]
  end.

Ltac skip_first Hne Hok Hhd :=
  idtac;
  match goal with
  | |- apply_rule ?rl _ = _ =>
      apply (rule_skips_lines rl _ _ eq_refl eq_refl Hne Hok);
      let l := fresh "l" in
      let Hl := fresh "Hl" in
      intros l Hl; rewrite (Hhd l Hl); reflexivity
  end.

Section Rules.

Lemma m_chr_eat ml c st : m ml (Chr c) st = eat (N.eqb c) st.
Proof.
  destruct st as [p s cs]. unfold Chr, eat. cbn [m suf pre caps].
  destruct s as [|x s]; [reflexivity|].
  cbn [prefixb]. rewrite andb_true_r. destruct (c =? x); reflexivity.
Qed.

Lemma m_plus_chr_run ml c x run pr rest cs :
  all (N.eqb c) (x :: run) -> stops (N.eqb c) rest ->
  m ml (Plus true (Chr c)) (MState pr (x :: run ++ rest) cs)
  = greedy_stops (x :: pr) run rest cs.
Proof.
  intros Hall Hstop.
  change (m ml (Plus true (Chr c)) (MState pr (x :: run ++ rest) cs))
    with (flat_map (repeat_loop true [] (m ml (Chr c)) (S (length (x :: run ++ rest))))
                   (m ml (Chr c) (clear_caps [] (MState pr (x :: run ++ rest) cs)))).
  rewrite clear_caps_nil, m_chr_eat. unfold eat. cbn [suf pre caps].
  unfold all in Hall. cbn [forallb] in Hall.
  apply andb_true_iff in Hall. destruct Hall as [Hc Hall]. rewrite Hc.
  cbn [flat_map]. rewrite app_nil_r.
  apply repeat_greedy_run with (p := N.eqb c); auto using m_chr_eat.
Qed.

Lemma first_plus_chr_run ml c x run pr rest cs :
  all (N.eqb c) (x :: run) -> stops (N.eqb c) rest ->
  first ml (Plus true (Chr c)) (MState pr (x :: run ++ rest) cs)
        (MState (rev (x :: run) ++ pr) rest cs).
Proof.
  intros Hall Hstop. unfold first. rewrite m_plus_chr_run by assumption.
  destruct (greedy_stops_hd run (x :: pr) rest cs) as [l ->].
  exists l. simpl. now rewrite <- app_assoc.
Qed.

Lemma all_repeat c n : all (N.eqb c) (repeat c n).
Proof.
  unfold all. induction n as [|n IH]; [reflexivity|].
  cbn [repeat forallb]. now rewrite N.eqb_refl, IH.
Qed.

Lemma rule_lines_ok c ns :
  dot c = true ->
  Forall (fun n => (3 <= n)%nat) ns ->
  forall l, In l (map (repeat c) ns) -> l <> [] /\ all dot l.
Proof.
  intros Hc Hns l Hl. apply in_map_iff in Hl. destruct Hl as [n [<- Hn]].
  rewrite Forall_forall in Hns. specialize (Hns n Hn).
  split.
  - destruct n; [lia | discriminate].
  - unfold all. apply forallb_forall. intros x Hx. apply repeat_spec in Hx. now subst.
Qed.

Lemma rule_lines_char x c ns :
  In x (join (map (repeat c) ns)) -> x = nl \/ x = c.
Proof.
  intros H. apply In_join in H. destruct H as [->|[l [Hl Hin]]]; [now left|].
  apply in_map_iff in Hl. destruct Hl as [n [<- _]]. right. now apply repeat_spec in Hin.
Qed.

(** The rule for a horizontal rule replaces every line of three or more
    of its characters. *)
Lemma hr_on_rule_lines c ns :
  dot c = true ->
  ns <> [] ->
  Forall (fun n => (3 <= n)%nat) ns ->
  apply_rule (hr c) (join (map (repeat c) ns)) = join (map (fun _ => lit "<hr>") ns).
Proof.
  intros Hc Hne Hns.
  rewrite <- (map_map (repeat c) (fun _ => lit "<hr>")).
  apply (apply_rule_linewise (hr c) (cat [Str [c; c]; Plus true (Chr c); Eol])
           (fun _ => lit "<hr>") _ eq_refl eq_refl).
  - destruct ns; [contradiction | discriminate].
  - now apply rule_lines_ok.
  - intros l q rest Hl Hq Hrest. right.
    apply in_map_iff in Hl. destruct Hl as [n [<- Hn]].
    rewrite Forall_forall in Hns. specialize (Hns n Hn).
    destruct n as [|[|[|n]]]; try lia.
    change (repeat c (S (S (S n))) ++ rest) with ([c; c] ++ c :: repeat c n ++ rest).
    eexists. split; [|split; [|split]].
    + cbn [cat]. eapply first_seq; [apply first_str|].
      eapply first_seq.
      { apply (first_plus_chr_run true c c (repeat c n) _ rest []).
        - apply (all_repeat c (S n)).
        - destruct Hrest as [->|[more ->]]; [exact I|]. cbn [stops].
          unfold dot, isLineTerminator in Hc. apply negb_true_iff in Hc.
          rewrite !orb_false_iff in Hc. apply Hc. }
      apply first_eol. now apply line_end_at_eol.
    + reflexivity.
    + cbn [pre repeat rev app]. rewrite <- !app_assoc. reflexivity.
    + reflexivity.
Qed.

(** The consolidation leaves alone lines in which none of its patterns
    finds a closing tag to start from. *)
Lemma consolidate_lines ls :
  (forall w l, In w [lit "</u"; lit "</o"; lit "</b"] -> In l ls -> scan w 0 l = 0%nat) ->
  consolidateBlockquotes (consolidateLists (join ls)) = join ls.
Proof.
  intros H.
  assert (E : forall r t w, In w [lit "</u"; lit "</o"; lit "</b"] ->
                requires w r = true -> replace_tpl false r t (join ls) = join ls).
  { intros r t w Hw R. unfold replace_tpl. apply replace_fn_absent with w; [exact R|].
    cbn [In] in Hw.
    destruct Hw as [<-|[<-|[<-|[]]]];
      (apply free_of_absent; [reflexivity|]; unfold free_of;
       rewrite scan_join; [discriminate | | reflexivity];
       intros l Hl; apply H; [in_list | exact Hl]). }
  unfold consolidateLists, consolidateBlockquotes.
  rewrite (E _ _ (lit "</u")) by (in_list || reflexivity).
  rewrite (E _ _ (lit "</o")) by (in_list || reflexivity).
  now rewrite (E _ _ (lit "</b")) by (in_list || reflexivity).
Qed.

(** X9.  A document whose lines are runs of three or more times the same
    character, a hyphen, an asterisk or an underscore, is rendered as one hr
    tag per line, whatever the lengths of the runs: the rules for horizontal
    rules come before the emphasis rules and leave these nothing to match. *)
Theorem parse_rule_lines :
  forall (c : N) (ns : list nat),
    In c (lit "-*_") ->
    ns <> [] ->
    Forall (fun n => (3 <= n)%nat) ns ->
    parse (join (map (repeat c) ns)) = join (map (fun _ => lit "<hr>") ns).
Proof.
  intros c ns Hc Hne Hns.
  assert (Hne1 : map (repeat c) ns <> []) by (destruct ns; [contradiction | discriminate]).
  assert (Hne2 : map (fun _ : nat => lit "<hr>") ns <> [])
    by (destruct ns; [contradiction | discriminate]).
  assert (Hhd : forall l, In l (map (repeat c) ns) -> hd 0 l = c).
  { intros l Hl. apply in_map_iff in Hl. destruct Hl as [n [<- Hn]].
    rewrite Forall_forall in Hns. specialize (Hns n Hn). destruct n; [lia | reflexivity]. }
  assert (Hsrc : join (map (repeat c) ns) <> []).
  { destruct ns as [|n ns]; [contradiction|]. inversion Hns as [|? ? Hn _]; subst.
    destruct n; [lia|]. cbn [map repeat]. destruct (map (repeat c) ns); discriminate. }
  assert (Hok2 : forall l, In l (map (fun _ : nat => lit "<hr>") ns) ->
                           (l <> [] /\ all dot l) /\ tag_line l).
  { intros l Hl. apply in_map_iff in Hl. destruct Hl as [n [<- _]].
    repeat split; [discriminate|]. now exists 104, [114], []. }
  assert (Hout : forall x, In x (join (map (fun _ : nat => lit "<hr>") ns)) ->
                           x = nl \/ In x (lit "<hr>")).
  { intros x H. apply In_join in H. destruct H as [->|[l [Hl Hin]]]; [now left|].
    apply in_map_iff in Hl. destruct Hl as [n [<- _]]. now right. }
  assert (Hfree : forall x, In x [42; 95; 126; 96; 91] ->
                            ~ In x (join (map (fun _ : nat => lit "<hr>") ns))).
  { intros x Hx H. apply Hout in H. cbn in Hx, H.
    intuition (subst; discriminate). }
  pose proof (Hfree 42 ltac:(in_list)) as N42.
  pose proof (Hfree 95 ltac:(in_list)) as N95.
  pose proof (Hfree 126 ltac:(in_list)) as N126.
  pose proof (Hfree 96 ltac:(in_list)) as N96.
  pose proof (Hfree 91 ltac:(in_list)) as N91.
  assert (Hend : trim (consolidateBlockquotes (consolidateLists
                   (join (map (fun _ : nat => lit "<hr>") ns))))
                 = join (map (fun _ : nat => lit "<hr>") ns)).
  { rewrite consolidate_lines.
    - destruct (join_bracketed 60 62 (map (fun _ : nat => lit "<hr>") ns)) as [s ->];
        [exact Hne2 | | now apply trim_id].
      intros l Hl. apply in_map_iff in Hl. destruct Hl as [n [<- _]]. now exists (lit "hr").
    - intros w l Hw Hl. apply in_map_iff in Hl. destruct Hl as [n [<- _]].
      cbn [In] in Hw. destruct Hw as [<-|[<-|[<-|[]]]]; reflexivity. }
  assert (Hsrc_char : forall x, x <> nl -> x <> c -> ~ In x (join (map (repeat c) ns))).
  { intros x H1 H2 H. apply rule_lines_char in H. tauto. }
  cbn [In lit map list_ascii_of_string] in Hc.
  destruct Hc as [<-|[<-|[<-|[]]]].
  - assert (Hok := rule_lines_ok 45 ns eq_refl Hns).
    rewrite (parse_rule_steps (firstn 6 initializeRules) (hr 45) (skipn 7 initializeRules)
               _ (join (map (fun _ => lit "<hr>") ns)) eq_refl Hsrc);
      [ exact Hend
      | apply Hsrc_char; discriminate | apply Hsrc_char; discriminate
      | each_rule ltac:(skip_first Hne1 Hok Hhd)
      | now apply (hr_on_rule_lines 45)
      | each_rule ltac:(skip_tags Hne2 Hok2) ].
  - assert (Hok := rule_lines_ok 42 ns eq_refl Hns).
    rewrite (parse_rule_steps (firstn 7 initializeRules) (hr 42) (skipn 8 initializeRules)
               _ (join (map (fun _ => lit "<hr>") ns)) eq_refl Hsrc);
      [ exact Hend
      | apply Hsrc_char; discriminate | apply Hsrc_char; discriminate
      | each_rule ltac:(skip_first Hne1 Hok Hhd)
      | now apply (hr_on_rule_lines 42)
      | each_rule ltac:(skip_tags Hne2 Hok2) ].
  - assert (Hok := rule_lines_ok 95 ns eq_refl Hns).
    rewrite (parse_rule_steps (firstn 8 initializeRules) (hr 95) (skipn 9 initializeRules)
               _ (join (map (fun _ => lit "<hr>") ns)) eq_refl Hsrc);
      [ exact Hend
      | apply Hsrc_char; discriminate | apply Hsrc_char; discriminate
      | each_rule ltac:(skip_first Hne1 Hok Hhd)
      | now apply (hr_on_rule_lines 95)
      | each_rule ltac:(skip_tags Hne2 Hok2) ].
Qed.

Lemma parse_rule_lines_witness :
  parse (join (map (repeat 42) [3; 5]%nat)) = join (map (fun _ => lit "<hr>") [3; 5]%nat).
Proof.
  apply (parse_rule_lines 42 [3; 5]%nat).
  - simpl. tauto.
  - discriminate.
  - repeat constructor.
Defined.


End Rules.

(* ===================================================================== *)
(** ** Ordered lists *)
(* ===================================================================== *)

Section OrderedLists.

Lemma digit_facts d :
  isDigit d = true ->
  dot d = true /\ isSpace d = false
  /\ (35 =? d) = false /\ (45 =? d) = false /\ (42 =? d) = false
  /\ (95 =? d) = false /\ (62 =? d) = false /\ (60 =? d) = false
  /\ class_mem false (set_ "*-+") d = false
  /\ negb (existsb (N.eqb d) (lit "`*_~[]|<")) = true.
Proof.
  unfold isDigit. rewrite andb_true_iff, !N.leb_le. intros [H1 H2].
  assert (E : forall x, (x < 48 \/ 57 < x) -> (x =? d) = false /\ (d =? x) = false)
    by (intros x Hx; split; apply N.eqb_neq; lia).
  repeat split; try (apply E; lia).
  - unfold dot, isLineTerminator.
    rewrite (proj2 (E 10 ltac:(lia))), (proj2 (E 13 ltac:(lia))),
            (proj2 (E 8232 ltac:(lia))), (proj2 (E 8233 ltac:(lia))). reflexivity.
  - unfold isSpace, isWhiteSpace, isLineTerminator.
    rewrite (proj2 (E 9 ltac:(lia))), (proj2 (E 11 ltac:(lia))), (proj2 (E 12 ltac:(lia))),
            (proj2 (E 32 ltac:(lia))), (proj2 (E 160 ltac:(lia))), (proj2 (E 5760 ltac:(lia))),
            (proj2 (E 8239 ltac:(lia))), (proj2 (E 8287 ltac:(lia))),
            (proj2 (E 12288 ltac:(lia))), (proj2 (E 65279 ltac:(lia))),
            (proj2 (E 10 ltac:(lia))), (proj2 (E 13 ltac:(lia))),
            (proj2 (E 8232 ltac:(lia))), (proj2 (E 8233 ltac:(lia))).
    replace (8192 <=? d) with false by (symmetry; apply N.leb_gt; lia). reflexivity.
  - unfold class_mem. cbn [existsb set_ lit map list_ascii_of_string citem_mem xorb].
    change (N_of_ascii "*") with 42. change (N_of_ascii "-") with 45.
    change (N_of_ascii "+") with 43.
    now rewrite (proj2 (E 42 ltac:(lia))), (proj2 (E 45 ltac:(lia))), (proj2 (E 43 ltac:(lia))).
  - apply negb_true_iff. cbn [existsb lit map list_ascii_of_string].
    change (N_of_ascii "`") with 96. change (N_of_ascii "*") with 42.
    change (N_of_ascii "_") with 95. change (N_of_ascii "~") with 126.
    change (N_of_ascii "[") with 91. change (N_of_ascii "]") with 93.
    change (N_of_ascii "|") with 124. change (N_of_ascii "<") with 60.
    now rewrite (proj2 (E 96 ltac:(lia))), (proj2 (E 42 ltac:(lia))), (proj2 (E 95 ltac:(lia))),
      (proj2 (E 126 ltac:(lia))), (proj2 (E 91 ltac:(lia))), (proj2 (E 93 ltac:(lia))),
      (proj2 (E 124 ltac:(lia))), (proj2 (E 60 ltac:(lia))).
Qed.

Lemma numbered_inv (e : list N * list N) :
  numbered e = true ->
  exists d ds c run, fst e = d :: ds /\ snd e = c :: run
    /\ forallb isDigit (d :: ds) = true
    /\ isSpace c = false /\ forallb plain_char (c :: run) = true.
Proof.
  unfold numbered, numeral. rewrite !andb_true_iff. intros [[Hn Hd] Hp].
  destruct (plain_item_inv _ Hp) as [c [run [E [Hc Hpl]]]].
  destruct (fst e) as [|d ds]; [discriminate|].
  exists d, ds, c, run. rewrite E in *. auto.
Qed.

Lemma digits_plain ds : forallb isDigit ds = true -> forallb plain_char ds = true.
Proof.
  rewrite !forallb_forall. intros H x Hx. specialize (H x Hx).
  destruct (digit_facts x H) as [Hd [_ [_ [_ [_ [_ [_ [_ [_ Hm]]]]]]]]].
  unfold plain_char. now rewrite Hd, Hm.
Qed.

Lemma numbered_line_plain (e : list N * list N) :
  numbered e = true -> forallb plain_char (numbered_line e) = true.
Proof.
  intros H. destruct (numbered_inv e H) as [d [ds [c [run [E1 [E2 [Hd [Hc Hp]]]]]]]].
  unfold numbered_line. rewrite E1, E2, !forallb_app.
  now rewrite (digits_plain _ Hd), Hp.
Qed.

Lemma numbered_lines_ok (entries : list (list N * list N)) :
  Forall (fun e => numbered e = true) entries ->
  forall l, In l (map numbered_line entries) -> l <> [] /\ all dot l.
Proof.
  rewrite Forall_forall. intros H l Hl. apply in_map_iff in Hl. destruct Hl as [e [<- He]].
  split.
  - destruct (numbered_inv e (H e He)) as [d [ds [c [run [E1 _]]]]].
    unfold numbered_line. rewrite E1. discriminate.
  - apply plain_dot, numbered_line_plain, H, He.
Qed.

Lemma numbered_lines_no_char x (entries : list (list N * list N)) :
  Forall (fun e => numbered e = true) entries ->
  existsb (N.eqb x) (lit "`*_~[]|<") = true ->
  ~ In x (join (map numbered_line entries)).
Proof.
  rewrite Forall_forall. intros H Hx Hin.
  apply In_join in Hin. destruct Hin as [->|[l [Hl Hin]]]; [discriminate|].
  apply in_map_iff in Hl. destruct Hl as [e [<- He]].
  now apply (plain_not_in x _ Hx (numbered_line_plain e (H e He))).
Qed.

Lemma after_numeral_line ds s :
  forallb isDigit ds = true -> after_numeral (ds ++ 46 :: 32 :: s) = s.
Proof.
  induction ds as [|d ds IH]; intros H; [reflexivity|].
  cbn [forallb] in H. apply andb_true_iff in H. destruct H as [Hd H].
  cbn [app after_numeral]. rewrite Hd. now apply IH.
Qed.

(** The rule for ordered lists wraps the item of every numbered line. *)
Lemma ol_rule_on_numbered_lines (entries : list (list N * list N)) :
  entries <> [] ->
  Forall (fun e => numbered e = true) entries ->
  apply_rule ol_rule (join (map numbered_line entries))
  = join (map (list_item 111) (map snd entries)).
Proof.
  intros Hne Hit.
  rewrite map_map.
  rewrite (map_ext_in (fun e => list_item 111 (snd e))
                      (fun e => (fun l => ol_item (after_numeral l)) (numbered_line e))).
  2:{ intros e He. rewrite Forall_forall in Hit.
      destruct (numbered_inv e (Hit e He)) as [d [ds [c [run [E1 [E2 [Hd _]]]]]]].
      cbn beta. unfold numbered_line. rewrite E1.
      change (lit ". " ++ snd e) with (46 :: 32 :: snd e).
      rewrite after_numeral_line by exact Hd. symmetry. apply ol_item_list_item. }
  rewrite <- (map_map numbered_line (fun l => ol_item (after_numeral l))).
  apply (apply_rule_linewise ol_rule
           (cat [Plus true (Cls false [CDigit]); Chr (c_ "."); spaces1; rest_of_line; Eol])
           (fun l => ol_item (after_numeral l)) _ eq_refl eq_refl).
  - destruct entries; [contradiction | discriminate].
  - now apply numbered_lines_ok.
  - intros l q rest Hl Hq Hrest. right.
    apply in_map_iff in Hl. destruct Hl as [e [<- He]].
    rewrite Forall_forall in Hit.
    destruct (numbered_inv e (Hit e He)) as [d [ds [c [run [E1 [E2 [Hd [Hc Hp]]]]]]]].
    unfold numbered_line. rewrite E1, E2.
    change (((d :: ds) ++ lit ". " ++ c :: run) ++ rest)
      with (d :: (ds ++ 46 :: 32 :: c :: run) ++ rest).
    rewrite <- app_assoc.
    change ((46 :: 32 :: c :: run) ++ rest) with ([46] ++ 32 :: [] ++ c :: run ++ rest).
    pose proof (first_plus_dot_run true c run (32 :: 46 :: rev (d :: ds) ++ q) rest []
                  (plain_dot _ Hp) (line_end_stops_dot rest Hrest)) as F.
    apply (first_group true 1) in F. cbn [pre suf caps] in F.
    rewrite (span_app (32 :: 46 :: rev (d :: ds) ++ q) (c :: run) rest []) in F by reflexivity.
    eexists. split; [|split; [|split]].
    + cbn [cat]. eapply first_seq.
      { apply (first_plus_run true false [CDigit] d ds q); [|reflexivity].
        unfold all. apply forallb_forall. intros x Hx.
        pose proof (proj1 (forallb_forall _ _) Hd x Hx) as Hx'.
        unfold class_mem. cbn [existsb citem_mem xorb]. now rewrite Hx'. }
      eapply first_seq; [apply (first_str true [46])|].
      eapply first_seq.
      { apply (first_plus_run true false [CSpace] 32 [] _ (c :: run ++ rest) []);
          [reflexivity | now apply stops_space_plain]. }
      eapply first_seq; [exact F|].
      apply first_eol. now apply line_end_at_eol.
    + reflexivity.
    + cbn [pre]. rewrite !rev_app_distr. cbn [rev app]. rewrite <- !app_assoc. reflexivity.
    + unfold rule_out. cbn [repl ol_rule]. unfold arg, cap. cbn [caps assoc Nat.eqb].
      change (lit ". " ++ c :: run) with (46 :: 32 :: c :: run).
      now rewrite after_numeral_line by exact Hd.
Qed.

Lemma numbered_lines_parsed :
  forall entries : list (str * str),
    entries <> [] ->
    Forall (fun e => numbered e = true) entries ->
    parse (join (map numbered_line entries))
    = lit "<ol>" ++ flat_map li_item (map snd entries) ++ lit "</ol>".
Proof.
  intros entries Hne Hit.
  assert (Hne1 : map numbered_line entries <> [])
    by (destruct entries; [contradiction | discriminate]).
  assert (Hne2 : map snd entries <> [])
    by (destruct entries; [contradiction | discriminate]).
  assert (Hitems : Forall (fun it => plain_item it = true) (map snd entries)).
  { rewrite Forall_forall in Hit |- *. intros it Hin. apply in_map_iff in Hin.
    destruct Hin as [e [<- He]]. specialize (Hit e He). unfold numbered in Hit.
    now apply andb_true_iff in Hit. }
  assert (Hok := numbered_lines_ok entries Hit).
  assert (facts : forall l, In l (map numbered_line entries) ->
            exists c run, l = c :: run /\ isSpace c = false /\ forallb plain_char l = true
              /\ (35 =? c) = false /\ (45 =? c) = false /\ (42 =? c) = false
              /\ (95 =? c) = false /\ (62 =? c) = false /\ (60 =? c) = false
              /\ class_mem false (set_ "*-+") c = false /\ True).
  { intros l Hl. apply in_map_iff in Hl. destruct Hl as [e [<- He]].
    rewrite Forall_forall in Hit.
    pose proof (numbered_line_plain e (Hit e He)) as Hpl.
    destruct (numbered_inv e (Hit e He)) as [d [ds [c [run [E1 [E2 [Hd _]]]]]]].
    cbn [forallb] in Hd. apply andb_true_iff in Hd. destruct Hd as [Hd _].
    destruct (digit_facts d Hd) as [_ [Hs [F35 [F45 [F42 [F95 [F62 [F60 [Fb _]]]]]]]]].
    exists d, (ds ++ lit ". " ++ snd e). unfold numbered_line in *. rewrite E1 in *.
    repeat split; assumption. }
  assert (N42 : ~ In 42 (join (map numbered_line entries))) by now apply numbered_lines_no_char.
  assert (N95 : ~ In 95 (join (map numbered_line entries))) by now apply numbered_lines_no_char.
  assert (N126 : ~ In 126 (join (map numbered_line entries))) by now apply numbered_lines_no_char.
  assert (N96 : ~ In 96 (join (map numbered_line entries))) by now apply numbered_lines_no_char.
  assert (N91 : ~ In 91 (join (map numbered_line entries))) by now apply numbered_lines_no_char.
  assert (N124 : ~ In 124 (join (map numbered_line entries))) by now apply numbered_lines_no_char.
  assert (Hls : forall l, In l (map (list_item 111) (map snd entries)) ->
                          (l <> [] /\ all dot l) /\ tag_line l)
    by (apply list_item_lines_ok; [reflexivity | reflexivity | exact Hitems]).
  rewrite (parse_rule_steps (firstn 23 initializeRules) ol_rule [paragraph_rule]
             (join (map numbered_line entries))
             (join (map (list_item 111) (map snd entries))) eq_refl).
  - rewrite (consolidateLists_ol _ Hne2 Hitems).
    rewrite consolidateBlockquotes_merged by (reflexivity || discriminate || assumption).
    apply trim_merged.
  - destruct entries as [|e entries]; [contradiction|].
    destruct (Hok (numbered_line e) (or_introl eq_refl)) as [Hl _].
    cbn [map]. destruct (map numbered_line entries); [exact Hl|].
    rewrite join_cons. destruct (numbered_line e); [contradiction | discriminate].
  - exact N96.
  - exact N124.
  - each_rule ltac:(skip_text facts).
  - now apply ol_rule_on_numbered_lines.
  - intros r [<-|[]]. apply paragraph_rule_skips_tag_lines.
    + destruct entries; [contradiction | discriminate].
    + intros l Hl. apply (Hls l Hl).
    + intros l Hl. apply (Hls l Hl).
Qed.

(** X10.  One or more consecutive numbered lines, each a numeral, a full
    stop, a blank and a plain item, are rendered as a single ol element with
    one li per line.  The numerals do not appear in the output, so the
    numbering of the source is lost. *)
Theorem parse_numbered_lines :
  forall entries : list (str * str),
    entries <> [] ->
    Forall (fun e => numbered e = true) entries ->
    parse (join (map numbered_line entries))
    = lit "<ol>" ++ flat_map li_item (map snd entries) ++ lit "</ol>".
Proof. exact numbered_lines_parsed. Qed.

Lemma parse_numbered_lines_witness :
  parse (join (map numbered_line [(lit "1", lit "one"); (lit "7", lit "two")]))
  = lit "<ol>" ++ flat_map li_item (map snd [(lit "1", lit "one"); (lit "7", lit "two")])
    ++ lit "</ol>".
Proof.
  apply (parse_numbered_lines [(lit "1", lit "one"); (lit "7", lit "two")]).
  - discriminate.
  - repeat constructor.
Defined.


End OrderedLists.

(* ===================================================================== *)
(** ** Rendering of a table *)
(* ===================================================================== *)

Section TableRendering.

(** The callback renders a run whose second line is a separator. *)
Lemma table_callback_table lines (post : list (list N)) match_ :
  (2 <= length lines)%nat ->
  Forall (fun l => row_shape l = true) lines ->
  regex_match false re_separator (nth 1 lines []) <> None ->
  table_callback match_ (join lines ++ match post with [] => [] | _ :: _ => [nl] end)
  = [nl] ++ table_html (cells (nth 0 lines [])) (map alignment (cells (nth 1 lines [])))
                       (map cells (skipn 2 lines)) ++ [nl].
Proof.
  intros Hlen Hrows Hsep.
  assert (Hne : lines <> []) by (destruct lines; [simpl in Hlen; lia | discriminate]).
  assert (Htrim : trim (join lines ++ match post with [] => [] | _ :: _ => [nl] end)
                  = join lines).
  { destruct post as [|a post].
    - rewrite app_nil_r. now apply trim_join_rows.
    - destruct (join_bracketed 124 124 lines Hne) as [s ->].
      + intros l Hl. rewrite Forall_forall in Hrows.
        destruct (row_shape_inv l (Hrows l Hl)) as [body [-> _]]. now exists body.
      + now apply trim_trailing_nl. }
  unfold table_callback. rewrite Htrim, (split_newline_join lines Hne Hrows).
  replace (length lines <? 2)%nat with false by (symmetry; apply Nat.ltb_ge; exact Hlen).
  destruct (regex_match false re_separator (nth 1 lines [])); [reflexivity | contradiction].
Qed.

Lemma pipe_free_text after :
  pipe_free after = true ->
  exists post, trail after = match post with [] => [] | _ :: _ => [nl] end ++ join post
               /\ prefixb [124] (join post) = false /\ ~ In 124 (join post)
               /\ join post = text_of after.
Proof.
  intros H. destruct after as [a|].
  - exists [a]. repeat split.
    + cbn [join prefixb]. destruct a as [|c a]; [reflexivity|].
      apply pipe_free_not_in in H. rewrite andb_true_r. apply N.eqb_neq.
      intros <-. apply H. now left.
    + now apply pipe_free_not_in.
  - exists []. repeat split. intros [].
Qed.

(** parseTables on a run whose second line is a separator. *)
Lemma run_with_separator_table :
  forall (before after : option (list N)) (lines : list str),
    (2 <= length lines)%nat ->
    Forall (fun l => row_shape l = true) lines ->
    regex_match false re_separator (nth 1 lines []) <> None ->
    pipe_free before = true -> pipe_free after = true ->
    parseTables (lead before ++ join lines ++ trail after)
    = text_of before ++ [nl]
      ++ table_html (cells (nth 0 lines [])) (map alignment (cells (nth 1 lines [])))
                    (map cells (skipn 2 lines))
      ++ [nl] ++ text_of after.
Proof.
  intros before after lines Hlen Hrows Hsep Hb Ha.
  assert (Hne : lines <> []) by (destruct lines; [simpl in Hlen; lia | discriminate]).
  destruct (pipe_free_text after Ha) as [post [Etrail [Hpost [Hfree Epost]]]].
  set (W := join lines ++ match post with [] => [] | _ :: _ => [nl] end).
  assert (Etext : join lines ++ trail after = join (lines ++ post)).
  { rewrite Etrail, (join_app_run lines post Hne). now rewrite <- app_assoc. }
  assert (EW : join (lines ++ post) = W ++ join post) by now apply join_app_run.
  assert (Hlen' : (length (join post) < length (join (lines ++ post)))%nat).
  { rewrite EW, length_app. unfold W. rewrite length_app.
    destruct lines as [|l lines]; [contradiction|].
    inversion Hrows as [|x xs Hl _]; subst.
    pose proof (join_length_cons l lines Hl). lia. }
  assert (Hrest : forall p', replace_pure true tablePattern
                    (fun match_ st => table_callback match_ (arg st 1)) p' (join post)
                  = join post).
  { intros p'. apply replace_pure_absent with [124]; [reflexivity|].
    now rewrite occurs_single. }
  rewrite Etext. unfold parseTables. rewrite replace_fn_pure.
  destruct before as [b|]; cbn [lead text_of app].
  - rewrite <- app_assoc. cbn [app].
    rewrite replace_pure_copy.
    2:{ intros u1 c u2 E. apply pipe_free_not_in in Hb.
        assert (Hc : (124 =? c) = false).
        { apply N.eqb_neq. intros <-. apply Hb. rewrite E.
          apply in_or_app. right. now left. }
        destruct u2 as [|c' u2].
        - now apply match_table_none.
        - apply match_table_none; [exact Hc|].
          apply N.eqb_neq. intros <-. apply Hb. rewrite E.
          apply in_or_app. right. right. now left. }
    f_equal.
    destruct (first_table_at_break lines post (rev b ++ []) Hne Hrows Hpost) as [p' F].
    rewrite (replace_pure_match true tablePattern _ _ _ _ F)
      by (cbn [suf length]; lia).
    cbn [pre suf]. rewrite Hrest.
    unfold arg, cap. cbn [caps assoc Nat.eqb].
    rewrite (table_callback_table lines post _ Hlen Hrows Hsep).
    rewrite Epost. cbn [app]. now rewrite <- !app_assoc.
  - destruct (first_table_at_start lines post Hne Hrows Hpost) as [p' F].
    rewrite (replace_pure_match true tablePattern _ _ _ _ F) by (cbn [suf]; exact Hlen').
    cbn [pre suf]. rewrite Hrest.
    unfold arg, cap. cbn [caps assoc Nat.eqb].
    rewrite (table_callback_table lines post _ Hlen Hrows Hsep).
    rewrite Epost. cbn [app]. now rewrite <- !app_assoc.
Qed.

(** X11.  A run of two or more row lines whose second line has the shape of
    a separator, standing between texts without a pipe, is replaced by
    parseTables with a table: the cells of the first line are the header,
    the cells of the second give the alignments and the remaining lines the
    body rows.  The text around the run is kept and is set off from the
    table by a line feed on either side. *)
Theorem run_with_separator_rendered :
  forall (before after : option (list N)) (lines : list str),
    (2 <= length lines)%nat ->
    Forall (fun l => row_shape l = true) lines ->
    regex_match false re_separator (nth 1 lines []) <> None ->
    pipe_free before = true -> pipe_free after = true ->
    parseTables (lead before ++ join lines ++ trail after)
    = text_of before ++ [nl]
      ++ table_html (cells (nth 0 lines [])) (map alignment (cells (nth 1 lines [])))
                    (map cells (skipn 2 lines))
      ++ [nl] ++ text_of after.
Proof. exact run_with_separator_table. Qed.

Lemma run_with_separator_rendered_witness :
  parseTables (lead (Some (lit "intro")) ++
               join [lit "|a|b|"; lit "|:--|--:|"; lit "|1|2|"] ++ trail (Some (lit "end")))
  = text_of (Some (lit "intro")) ++ [nl]
    ++ table_html (cells (lit "|a|b|")) (map alignment (cells (lit "|:--|--:|")))
                  (map cells [lit "|1|2|"])
    ++ [nl] ++ text_of (Some (lit "end")).
Proof.
  apply (run_with_separator_rendered (Some (lit "intro")) (Some (lit "end"))
           [lit "|a|b|"; lit "|:--|--:|"; lit "|1|2|"]).
  - simpl. lia.
  - repeat constructor.
  - vm_compute. discriminate.
  - reflexivity.
  - reflexivity.
Defined.

(** C5, as amended.  The header row does not fix the number of cells of a
    body row.  For every run that parseTables takes for a table, the body
    of the table is made of the lines behind the separator line, in order:
    a line is rendered as one <tr> element with one <td> element for each
    of its cells, the cells being the trimmed pieces between its pipes that
    are not empty, and a line without such a cell gets no row.  The number
    of cells of the header plays no part: a line with fewer cells gets
    fewer <td> elements (no padding), a line with more cells gets them all
    (nothing is dropped). *)
Theorem body_rows_render_every_cell :
  forall (before after : option (list N)) (lines : list str),
    (2 <= length lines)%nat ->
    Forall (fun l => row_shape l = true) lines ->
    regex_match false re_separator (nth 1 lines []) <> None ->
    pipe_free before = true -> pipe_free after = true ->
    parseTables (lead before ++ join lines ++ trail after)
    = text_of before ++ [nl]
      ++ table_head (cells (nth 0 lines [])) (map alignment (cells (nth 1 lines [])))
      ++ flat_map (fun line => body_row (map alignment (cells (nth 1 lines [])))
                                        (cells line))
                  (skipn 2 lines)
      ++ lit "</tbody>" ++ [nl] ++ lit "</table>" ++ [nl] ++ text_of after
    /\ (forall line : str,
          In line (skipn 2 lines) ->
          length (forEach_pieces
                    (cell_html (lit "td") (map alignment (cells (nth 1 lines []))))
                    0 (cells line))
          = length (cells line)
          /\ (forall (k : nat) (cell : str),
                nth_error (cells line) k = Some cell ->
                nth_error (forEach_pieces
                             (cell_html (lit "td") (map alignment (cells (nth 1 lines []))))
                             0 (cells line)) k
                = Some (lit "<td"
                        ++ style_of (align_at (map alignment (cells (nth 1 lines []))) k)
                        ++ lit ">" ++ parseInline cell ++ lit "</td>" ++ [nl]))).
Proof.
  intros before after lines Hlen Hrows Hsep Hb Ha. split.
  - rewrite (run_with_separator_table before after lines Hlen Hrows Hsep Hb Ha).
    rewrite table_html_rows, flat_map_concat_map, map_map, <- flat_map_concat_map.
    now rewrite <- !app_assoc.
  - intros line _. split.
    + apply forEach_pieces_length.
    + intros k cell H. now rewrite (forEach_pieces_nth _ _ 0 k cell H).
Qed.

Lemma body_rows_render_every_cell_witness :
  parseTables (lead None ++ join [lit "|a|b|"; lit "|---|---|"; lit "|1|2|3|"; lit "|4||6|"]
               ++ trail None)
  = text_of None ++ [nl]
    ++ table_head [lit "a"; lit "b"] [lit "left"; lit "left"]
    ++ flat_map (fun line => body_row [lit "left"; lit "left"] (cells line))
                [lit "|1|2|3|"; lit "|4||6|"]
    ++ lit "</tbody>" ++ [nl] ++ lit "</table>" ++ [nl] ++ text_of None
  /\ (forall line : str,
        In line [lit "|1|2|3|"; lit "|4||6|"] ->
        length (forEach_pieces (cell_html (lit "td") [lit "left"; lit "left"]) 0 (cells line))
        = length (cells line)
        /\ (forall (k : nat) (cell : str),
              nth_error (cells line) k = Some cell ->
              nth_error (forEach_pieces (cell_html (lit "td") [lit "left"; lit "left"])
                                        0 (cells line)) k
              = Some (lit "<td" ++ style_of (align_at [lit "left"; lit "left"] k)
                      ++ lit ">" ++ parseInline cell ++ lit "</td>" ++ [nl]))).
Proof.
  apply (body_rows_render_every_cell None None
           [lit "|a|b|"; lit "|---|---|"; lit "|1|2|3|"; lit "|4||6|"]).
  - simpl. lia.
  - repeat constructor.
  - vm_compute. discriminate.
  - reflexivity.
  - reflexivity.
Defined.


End TableRendering.

(* ===================================================================== *)
(** ** Cells and alignments *)
(* ===================================================================== *)

Section Cells.

Lemma split_char_cell sep : forall c s,
  ~ In sep c -> split_char sep (c ++ sep :: s) = c :: split_char sep s.
Proof.
  induction c as [|x c IH]; intros s H.
  - cbn [app split_char]. now rewrite N.eqb_refl.
  - cbn [app split_char].
    destruct (N.eqb_spec x sep) as [->|_]; [exfalso; apply H; now left|].
    rewrite IH by (intros Hin; apply H; now right). reflexivity.
Qed.

Lemma split_char_cells sep : forall cs,
  Forall (fun c => ~ In sep c) cs ->
  split_char sep (flat_map (fun c => c ++ [sep]) cs) = cs ++ [[]].
Proof.
  induction cs as [|c cs IH]; intros H; [reflexivity|].
  inversion H as [|x xs Hc Hcs]; subst.
  cbn [flat_map]. rewrite <- app_assoc. cbn [app].
  rewrite split_char_cell by exact Hc. now rewrite IH.
Qed.

(** X12.  The cells that parseTables reads from a row written with pipes
    around and between its cell texts are the trimmed cell texts with the
    empty ones left out: an empty cell does not keep its column, the cells
    behind it move one column to the left. *)
Theorem cells_of_pipe_row :
  forall cs : list str,
    Forall (fun c => ~ In 124 c) cs ->
    cells (pipe_row cs) = filter nonempty (map trim cs).
Proof.
  intros cs H. unfold cells, pipe_row. change (c_ "|") with 124.
  cbn [split_char]. rewrite N.eqb_refl, split_char_cells by exact H.
  cbn [map filter]. change (nonempty (trim [])) with false. cbv iota.
  rewrite map_app, filter_app. cbn [map filter].
  change (nonempty (trim [])) with false. cbv iota. apply app_nil_r.
Qed.

Lemma cells_of_pipe_row_witness :
  cells (pipe_row [lit " a "; lit ""; lit "b"]) = filter nonempty (map trim [lit " a "; lit ""; lit "b"]).
Proof.
  apply (cells_of_pipe_row [lit " a "; lit ""; lit "b"]).
  repeat constructor; intros H; vm_compute in H; intuition discriminate.
Defined.

Lemma rev_repeat (c : N) n : rev (repeat c n) = repeat c n.
Proof.
  induction n as [|n IH]; [reflexivity|].
  cbn [repeat rev]. rewrite IH. clear IH.
  induction n as [|n IH]; [reflexivity|]. cbn [repeat app]. now rewrite IH.
Qed.

(** X13.  A separator cell of one or more hyphens with optional colons is
    aligned to the right when a colon ends it and none begins it, centred
    when colons stand at both ends, and to the left otherwise; only centred
    and right-aligned columns get a style attribute. *)
Theorem alignment_of_separator_cell :
  forall (l r : bool) (n : nat),
    (1 <= n)%nat ->
    alignment (separator_cell l r n)
    = (if r then if l then lit "center" else lit "right" else lit "left")
    /\ style_of (alignment (separator_cell l r n))
       = (if r then lit " style=" ++ [dq] ++ lit "text-align: "
                    ++ (if l then lit "center" else lit "right") ++ [dq]
          else []).
Proof.
  intros l r n Hn. destruct n as [|n]; [lia|].
  assert (E : alignment (separator_cell l r (S n))
              = if r then if l then lit "center" else lit "right" else lit "left").
  { unfold alignment, separator_cell, startsWith, endsWith.
    rewrite !rev_app_distr, rev_repeat.
    destruct l, r; cbn; reflexivity. }
  split; [exact E|]. rewrite E. destruct l, r; reflexivity.
Qed.

Lemma alignment_of_separator_cell_witness :
  alignment (separator_cell true true 3) = lit "center"
  /\ style_of (alignment (separator_cell true true 3))
     = lit " style=" ++ [dq] ++ lit "text-align: " ++ lit "center" ++ [dq].
Proof. apply (alignment_of_separator_cell true true 3). lia. Defined.

End Cells.

(* ===================================================================== *)
(** ** Inline rules of table cells *)
(* ===================================================================== *)

Section InlineRules.

Lemma repeat_lazy_run body p :
  (forall st, body st = eat p st) ->
  forall run pr rest cs fuel,
    all p run -> stops p rest -> (length (run ++ rest) < fuel)%nat ->
    repeat_loop false [] body fuel (MState pr (run ++ rest) cs)
    = lazy_stops pr run rest cs.
Proof.
  intros Hb. induction run as [|c run IH]; intros pr rest cs fuel Hall Hstop Hlen.
  - destruct fuel as [|fuel]; [simpl in Hlen; lia|].
    cbn [repeat_loop]. rewrite clear_caps_nil, Hb. unfold eat. cbn [suf app].
    destruct rest as [|c rest]; [reflexivity|]. simpl in Hstop. now rewrite Hstop.
  - destruct fuel as [|fuel]; [simpl in Hlen; lia|].
    cbn [repeat_loop]. rewrite clear_caps_nil, Hb. unfold eat. cbn [suf pre caps app].
    unfold all in Hall. simpl in Hall. apply andb_true_iff in Hall. destruct Hall as [Hc Hall].
    rewrite Hc. cbn [flat_map]. unfold progress. cbn [suf].
    replace (length (run ++ rest) <? length (c :: run ++ rest))%nat with true
      by (symmetry; apply Nat.ltb_lt; simpl; lia).
    rewrite app_nil_r, IH; [reflexivity | exact Hall | exact Hstop | simpl in Hlen; lia].
Qed.

Lemma m_lazy_dot_run ml c run pr rest cs :
  all dot (c :: run) -> stops dot rest ->
  m ml (Plus false Dot) (MState pr (c :: run ++ rest) cs)
  = lazy_stops (c :: pr) run rest cs.
Proof.
  intros Hall Hstop. cbn [m groups]. rewrite clear_caps_nil. cbn [m]. unfold eat.
  cbn [suf pre caps]. unfold all in Hall. simpl in Hall.
  apply andb_true_iff in Hall. destruct Hall as [Hc Hall].
  change (negb (isLineTerminator c)) with (dot c). rewrite Hc.
  cbn [flat_map]. rewrite app_nil_r.
  apply repeat_lazy_run with (p := dot); auto; simpl; lia.
Qed.

Lemma lazy_stops_split cs rest b : forall a p,
  exists l1 l2,
    lazy_stops p (a ++ b) rest cs = l1 ++ MState (rev a ++ p) (b ++ rest) cs :: l2
    /\ Forall (fun st => exists x v, In x a /\ suf st = x :: v) l1.
Proof.
  induction a as [|x a IH]; intros p.
  - exists []. destruct b as [|y b].
    + exists []. split; [reflexivity | constructor].
    + eexists. split; [reflexivity | constructor].
  - destruct (IH (x :: p)) as [l1 [l2 [E F]]].
    exists (MState p (x :: (a ++ b) ++ rest) cs :: l1), l2. split.
    + cbn [app lazy_stops]. rewrite E. cbn [rev]. now rewrite <- !app_assoc.
    + constructor.
      * exists x, ((a ++ b) ++ rest). split; [now left | reflexivity].
      * eapply Forall_impl; [|exact F]. intros st [y [v [Hy Hv]]].
        exists y, v. split; [now right | exact Hv].
Qed.

Lemma flat_map_first {A B} (f : A -> list B) l1 x l2 z l' :
  Forall (fun y => f y = []) l1 -> f x = z :: l' ->
  exists l, flat_map f (l1 ++ x :: l2) = z :: l.
Proof.
  intros H1 Hx. induction H1 as [|y l1 Hy _ IH].
  - cbn [app flat_map]. rewrite Hx. eexists. reflexivity.
  - cbn [app flat_map]. rewrite Hy. exact IH.
Qed.

(** The pattern of an emphasis rule finds the text between two delimiters
    when the text does not hold the first character of the delimiter. *)
Lemma first_re_span ml d0 d c0 c p :
  all dot (c0 :: c) -> all dot (d0 :: d) -> ~ In d0 (c0 :: c) ->
  first ml (re_span (d0 :: d))
        (MState p ((d0 :: d) ++ (c0 :: c) ++ (d0 :: d)) [])
        (MState (rev (d0 :: d) ++ rev (c0 :: c) ++ rev (d0 :: d) ++ p) []
                [(1%nat, c0 :: c)]).
Proof.
  intros Hc Hd Hno. unfold first, re_span. cbn [cat]. rewrite m_seq, m_str_app.
  cbn [flat_map]. rewrite app_nil_r, m_seq. unfold lazy1. rewrite m_group.
  rewrite flat_map_concat_map, map_map, <- flat_map_concat_map.
  cbn [app].
  rewrite <- (app_nil_r (c ++ d0 :: d)).
  rewrite (m_lazy_dot_run ml c0 (c ++ d0 :: d) (rev (d0 :: d) ++ p) [] []).
  2:{ unfold all in *. cbn [forallb] in *. apply andb_true_iff in Hc. destruct Hc as [H0 Hc].
      rewrite H0, forallb_app, Hc. exact Hd. }
  2:{ exact I. }
  destruct (lazy_stops_split [] [] (d0 :: d) c (c0 :: rev (d0 :: d) ++ p))
    as [l1 [l2 [E F]]].
  rewrite E. apply flat_map_first with (l' := []).
  - eapply Forall_impl; [|exact F]. intros st [x [v [Hx Hv]]].
    apply m_str_nil. cbn [suf pre]. rewrite Hv. cbn [prefixb].
    destruct (N.eqb_spec d0 x) as [->|_]; [|reflexivity].
    exfalso. apply Hno. now right.
  - cbn [pre suf caps]. rewrite m_str_app. f_equal. f_equal.
    + cbn [rev]. now rewrite <- !app_assoc.
    + f_equal. f_equal. rewrite app_nil_r.
      change (c0 :: c ++ d0 :: d) with ((c0 :: c) ++ (d0 :: d)).
      rewrite <- (app_nil_r ((c0 :: c) ++ d0 :: d)) at 1.
      rewrite <- app_assoc. now apply span_app.
Qed.

(** An emphasis rule on a text between two of its delimiters. *)
Lemma span_rule_on_span delim open close d0 d c :
  lit delim = d0 :: d ->
  c <> [] -> all dot c -> all dot (d0 :: d) -> ~ In d0 c ->
  apply_rule (span_rule delim open close) (lit delim ++ c ++ lit delim)
  = lit open ++ c ++ lit close.
Proof.
  intros Ed Hne Hc Hd Hno. destruct c as [|c0 c]; [contradiction|].
  rewrite apply_rule_pure. cbn [flag_m pattern span_rule]. rewrite Ed.
  rewrite (replace_pure_match false _ _ [] _ _ (first_re_span false d0 d c0 c [] Hc Hd Hno)).
  - cbn [pre suf]. rewrite replace_pure_nil by reflexivity.
    unfold rule_out. cbn [repl span_rule]. unfold expand, cap.
    cbn [caps flat_map assoc Nat.eqb]. now rewrite !app_nil_r.
  - cbn [suf length]. rewrite length_app. cbn [length]. lia.
Qed.

Lemma scan_reset w c : forall q,
  w <> [] -> c <> [] -> (q < length w)%nat ->
  (forall x, In x w -> ~ In x c) ->
  scan w q c = 0%nat.
Proof.
  intros q Hw Hc Hq Hno. destruct c as [|c0 c]; [contradiction|].
  rewrite scan_cons.
  assert (E : scan_step w q c0 = 0%nat).
  { unfold scan_step.
    replace (Nat.eqb q (length w)) with false by (symmetry; apply Nat.eqb_neq; lia).
    destruct (N.eqb_spec (nth q w 0) c0) as [E|_].
    - exfalso. apply (Hno c0); [rewrite <- E; now apply nth_In | now left].
    - destruct (N.eqb_spec (hd 0 w) c0) as [E|_]; [|reflexivity].
      exfalso. apply (Hno c0); [|now left].
      destruct w; [contradiction|]. rewrite <- E. now left. }
  rewrite E. apply scan_other; [|exact Hw].
  apply forallb_forall. intros x Hx. apply negb_true_iff, N.eqb_neq. intros E'.
  apply (Hno x); [|now right]. destruct w; [contradiction|]. rewrite <- E'. now left.
Qed.

(** A rule whose pattern needs a run of the delimiter character that is
    longer than the delimiter finds nothing in a delimited text. *)
Lemma rule_skips_span w rl dl c :
  requires w (pattern rl) = true -> recognises w = true ->
  w <> [] -> c <> [] ->
  (scan w 0 dl <? length w)%nat = true ->
  (forall x, In x w -> ~ In x c) ->
  apply_rule rl (dl ++ c ++ dl) = dl ++ c ++ dl.
Proof.
  intros R Hrec Hw Hc Hq Hno.
  apply (apply_rule_absent w rl _ R). apply free_of_absent; [exact Hrec|].
  unfold free_of. apply Nat.ltb_lt in Hq.
  rewrite !scan_app, (scan_reset w c _ Hw Hc Hq Hno). lia.
Qed.

Lemma inert_chars c x :
  inline_inert c = true -> In x (lit "`*_~[") -> ~ In x c.
Proof.
  intros H Hx. apply (inert_not_in c x H). apply existsb_exists.
  exists x. split; [exact Hx | apply N.eqb_refl].
Qed.

(** X14.  parseInline returns a text unchanged when it holds no backtick,
    asterisk, underscore, tilde or opening bracket; in particular angle
    brackets and ampersands of a table cell are not escaped. *)
Theorem parseInline_inert :
  forall c : str, inline_inert c = true -> parseInline c = c.
Proof.
  intros c H. destruct c as [|c0 c]; [reflexivity|].
  unfold parseInline. apply fold_rules_skip.
  intros rl Hin. unfold inlineRules in Hin. cbn [In] in Hin.
  repeat (destruct Hin as [<-|Hin];
          [first [ apply (apply_rule_no_char 42); [reflexivity | apply (inert_chars _ 42 H); in_list]
                 | apply (apply_rule_no_char 95); [reflexivity | apply (inert_chars _ 95 H); in_list]
                 | apply (apply_rule_no_char 126); [reflexivity | apply (inert_chars _ 126 H); in_list]
                 | apply (apply_rule_no_char 96); [reflexivity | apply (inert_chars _ 96 H); in_list]
                 | apply (apply_rule_no_char 91); [reflexivity | apply (inert_chars _ 91 H); in_list] ]|]).
  destruct Hin.
Qed.

Lemma parseInline_inert_witness : parseInline (lit "a < b & c") = lit "a < b & c".
Proof. apply (parseInline_inert (lit "a < b & c")). reflexivity. Defined.

End InlineRules.

Ltac not_in_span H :=
  let Hin := fresh "Hin" in
  intros Hin; rewrite !in_app_iff in Hin;
  destruct Hin as [Hin|[Hin|Hin]];
  [ cbn in Hin; intuition discriminate
  | revert Hin; apply (inert_chars _ _ H); in_list
  | cbn in Hin; intuition discriminate ].

Ltac skip_span H Hne :=
  idtac;
  match goal with
  | |- apply_rule ?rl _ = _ =>
      first
        [ apply (apply_rule_no_char 42 rl); [reflexivity | not_in_span H]
        | apply (apply_rule_no_char 95 rl); [reflexivity | not_in_span H]
        | apply (apply_rule_no_char 126 rl); [reflexivity | not_in_span H]
        | apply (apply_rule_no_char 96 rl); [reflexivity | not_in_span H]
        | apply (apply_rule_no_char 91 rl); [reflexivity | not_in_span H]
        | apply (rule_skips_span (lit "***") rl);
          [ reflexivity | reflexivity | discriminate | exact Hne | reflexivity
          | intros x Hx; apply (inert_chars _ x H); revert Hx; cbn; tauto ]
        | apply (rule_skips_span (lit "___") rl);
          [ reflexivity | reflexivity | discriminate | exact Hne | reflexivity
          | intros x Hx; apply (inert_chars _ x H); revert Hx; cbn; tauto ]
        | apply (rule_skips_span (lit "**") rl);
          [ reflexivity | reflexivity | discriminate | exact Hne | reflexivity
          | intros x Hx; apply (inert_chars _ x H); revert Hx; cbn; tauto ]
        | apply (rule_skips_span (lit "__") rl);
          [ reflexivity | reflexivity | discriminate | exact Hne | reflexivity
          | intros x Hx; apply (inert_chars _ x H); revert Hx; cbn; tauto ] ]
  end.

Ltac each_inline tac :=
  let r := fresh "r" in
  let Hin := fresh "Hin" in
  intros r Hin; cbn [In firstn skipn inlineRules] in Hin;
  repeat (destruct Hin as [<-|Hin]; [tac|]);
  destruct Hin.

Section Emphasis.

Lemma inline_plain_inv c :
  inline_plain c = true -> c <> [] /\ inline_inert c = true /\ all dot c.
Proof.
  unfold inline_plain. rewrite !andb_true_iff. intros [[H1 H2] H3].
  repeat split; try assumption. now destruct c.
Qed.

Lemma parseInline_rules s :
  s <> [] -> parseInline s = fold_left (fun html rl => apply_rule rl html) inlineRules s.
Proof. destruct s; [contradiction | reflexivity]. Qed.

(** X15.  A cell text that consists of a plain text between two copies of
    one of the seven emphasis delimiters is rendered by parseInline as that
    text between the tags of the delimiter: three asterisks or underscores
    give strong and em, two give strong, one gives em, and two tildes give
    del. *)
Theorem parseInline_emphasis :
  forall (delim open close : string) (c : str),
    In (delim, open, close) emphasis ->
    inline_plain c = true ->
    parseInline (lit delim ++ c ++ lit delim) = lit open ++ c ++ lit close.
Proof.
  intros delim open close c Hin Hc.
  destruct (inline_plain_inv c Hc) as [Hne [H Hd]].
  assert (Hs : forall d0 d, (d0 :: d) ++ c ++ d0 :: d <> []) by discriminate.
  unfold emphasis in Hin. cbn [In] in Hin.
  destruct Hin as [E|[E|[E|[E|[E|[E|[E|[]]]]]]]]; injection E as <- <- <-;
    rewrite parseInline_rules by apply Hs.
  - apply (fold_rules_split (firstn 0 inlineRules) _ (skipn 1 inlineRules)).
    + each_inline ltac:(skip_span H Hne).
    + apply (span_rule_on_span "***" _ _ 42 [42; 42] c eq_refl Hne Hd eq_refl).
      apply (inert_chars _ 42 H). in_list.
    + each_inline ltac:(skip_span H Hne).
  - apply (fold_rules_split (firstn 1 inlineRules) _ (skipn 2 inlineRules)).
    + each_inline ltac:(skip_span H Hne).
    + apply (span_rule_on_span "___" _ _ 95 [95; 95] c eq_refl Hne Hd eq_refl).
      apply (inert_chars _ 95 H). in_list.
    + each_inline ltac:(skip_span H Hne).
  - apply (fold_rules_split (firstn 2 inlineRules) _ (skipn 3 inlineRules)).
    + each_inline ltac:(skip_span H Hne).
    + apply (span_rule_on_span "**" _ _ 42 [42] c eq_refl Hne Hd eq_refl).
      apply (inert_chars _ 42 H). in_list.
    + each_inline ltac:(skip_span H Hne).
  - apply (fold_rules_split (firstn 3 inlineRules) _ (skipn 4 inlineRules)).
    + each_inline ltac:(skip_span H Hne).
    + apply (span_rule_on_span "__" _ _ 95 [95] c eq_refl Hne Hd eq_refl).
      apply (inert_chars _ 95 H). in_list.
    + each_inline ltac:(skip_span H Hne).
  - apply (fold_rules_split (firstn 4 inlineRules) _ (skipn 5 inlineRules)).
    + each_inline ltac:(skip_span H Hne).
    + apply (span_rule_on_span "*" _ _ 42 [] c eq_refl Hne Hd eq_refl).
      apply (inert_chars _ 42 H). in_list.
    + each_inline ltac:(skip_span H Hne).
  - apply (fold_rules_split (firstn 5 inlineRules) _ (skipn 6 inlineRules)).
    + each_inline ltac:(skip_span H Hne).
    + apply (span_rule_on_span "_" _ _ 95 [] c eq_refl Hne Hd eq_refl).
      apply (inert_chars _ 95 H). in_list.
    + each_inline ltac:(skip_span H Hne).
  - apply (fold_rules_split (firstn 6 inlineRules) _ (skipn 7 inlineRules)).
    + each_inline ltac:(skip_span H Hne).
    + apply (span_rule_on_span "~~" _ _ 126 [126] c eq_refl Hne Hd eq_refl).
      apply (inert_chars _ 126 H). in_list.
    + each_inline ltac:(skip_span H Hne).
Qed.

Lemma parseInline_emphasis_witness :
  parseInline (lit "**" ++ lit "bold text" ++ lit "**")
  = lit "<strong>" ++ lit "bold text" ++ lit "</strong>".
Proof.
  apply (parseInline_emphasis "**" "<strong>" "</strong>" (lit "bold text")).
  - simpl. tauto.
  - reflexivity.
Defined.


End Emphasis.

(* ===================================================================== *)
(** ** Links in table cells *)
(* ===================================================================== *)

Section Links.

Lemma link_part_inv stop s :
  link_part stop s = true ->
  exists c0 c, s = c0 :: c /\ inline_inert s = true /\ ~ In stop s.
Proof.
  unfold link_part. rewrite !andb_true_iff, negb_true_iff. intros [[H1 H2] H3].
  destruct s as [|c0 c]; [discriminate|]. exists c0, c. repeat split; [exact H2|].
  intros Hin. assert (E : existsb (N.eqb stop) (c0 :: c) = true)
    by (apply existsb_exists; exists stop; split; [exact Hin | apply N.eqb_refl]).
  congruence.
Qed.

(** The link rule on a link. *)
Lemma link_rule_on_link t u :
  link_part 93 t = true -> link_part 41 u = true ->
  apply_rule link_rule (link_text t u) = anchor t u.
Proof.
  intros Ht Hu.
  destruct (link_part_inv 93 t Ht) as [t0 [t' [-> [_ Nt]]]].
  destruct (link_part_inv 41 u Hu) as [u0 [u' [-> [_ Nu]]]].
  set (t := t0 :: t') in *. set (u := u0 :: u') in *.
  pose proof (first_plus_run false true [CChar 93] t0 t' [91] (lit "](" ++ u ++ lit ")") []
                (not_in_all_but 93 t Nt) eq_refl) as F1.
  apply (first_group false 1) in F1. cbn [pre suf caps] in F1.
  rewrite (span_app [91] t (lit "](" ++ u ++ lit ")") []) in F1 by reflexivity.
  pose proof (first_plus_run false true [CChar 41] u0 u' (rev (lit "](") ++ rev t ++ [91])
                (lit ")") [(1%nat, t)] (not_in_all_but 41 u Nu) eq_refl) as F2.
  apply (first_group false 2) in F2. cbn [pre suf caps] in F2.
  rewrite (span_app (rev (lit "](") ++ rev t ++ [91]) u (lit ")") [(1%nat, t)]) in F2
    by reflexivity.
  assert (F : first false re_link (MState [] (link_text t u) [])
                (MState (41 :: rev u ++ rev (lit "](") ++ rev t ++ [91]) []
                        [(2%nat, u); (1%nat, t)])).
  { unfold re_link, link_text. cbn [cat].
    eapply first_seq; [apply (first_str false [91] [] _ [])|].
    eapply first_seq; [exact F1|].
    eapply first_seq; [apply (first_str false (lit "](") _ (u ++ lit ")") [(1%nat, t)])|].
    eapply first_seq; [exact F2|].
    apply (first_str false [41] _ [] _). }
  rewrite apply_rule_pure. cbn [flag_m pattern link_rule].
  rewrite (replace_pure_match false _ _ [] _ _ F).
  - cbn [pre suf]. rewrite replace_pure_nil by reflexivity.
    unfold rule_out. cbn [repl link_rule]. unfold expand, cap.
    cbn [caps flat_map assoc Nat.eqb]. unfold anchor. now rewrite !app_nil_r, <- !app_assoc.
  - cbn [suf]. unfold link_text. rewrite length_app.
    change (length (lit "[")) with 1%nat. cbn [length]. lia.
Qed.

Lemma link_text_chars x t u :
  In x (link_text t u) -> In x (lit "[]()") \/ In x t \/ In x u.
Proof.
  unfold link_text. rewrite !in_app_iff. cbn. tauto.
Qed.

(** X16.  parseInline renders a link, written as a text in brackets followed
    by an address in parentheses, as an anchor whose href is the address and
    whose content is the text, when the text and the address are nonempty,
    hold no inline marker and do not hold the bracket or parenthesis that
    ends them. *)
Theorem parseInline_link :
  forall t u : str,
    link_part 93 t = true -> link_part 41 u = true ->
    parseInline (link_text t u) = anchor t u.
Proof.
  intros t u Ht Hu.
  destruct (link_part_inv 93 t Ht) as [t0 [t' [Et [It Nt]]]].
  destruct (link_part_inv 41 u Hu) as [u0 [u' [Eu [Iu Nu]]]].
  assert (Hno : forall x, In x (lit "`*_~") -> ~ In x (link_text t u)).
  { intros x Hx Hin. apply link_text_chars in Hin. destruct Hin as [Hin|[Hin|Hin]].
    - cbn in Hx, Hin. intuition (subst; discriminate).
    - revert Hin. apply (inert_chars _ x It). cbn in Hx |- *. tauto.
    - revert Hin. apply (inert_chars _ x Iu). cbn in Hx |- *. tauto. }
  rewrite parseInline_rules by discriminate.
  apply (fold_rules_split (firstn 8 inlineRules) link_rule []).
  - each_inline ltac:(first
      [ apply (apply_rule_no_char 42); [reflexivity | apply Hno; in_list]
      | apply (apply_rule_no_char 95); [reflexivity | apply Hno; in_list]
      | apply (apply_rule_no_char 126); [reflexivity | apply Hno; in_list]
      | apply (apply_rule_no_char 96); [reflexivity | apply Hno; in_list] ]).
  - now apply link_rule_on_link.
  - intros r [].
Qed.

Lemma parseInline_link_witness :
  parseInline (link_text (lit "docs") (lit "https://example.org/a?b=1&c=2"))
  = anchor (lit "docs") (lit "https://example.org/a?b=1&c=2").
Proof. apply parseInline_link; reflexivity. Defined.

End Links.

(* ===================================================================== *)
(** ** Emphasis in a line of text *)
(* ===================================================================== *)

Section EmphasisInLine.

Lemma first_re_span_in ml d0 d c0 c post p :
  all dot (c0 :: c) -> all dot (d0 :: d) -> all dot post -> ~ In d0 (c0 :: c) ->
  first ml (re_span (d0 :: d))
        (MState p ((d0 :: d) ++ (c0 :: c) ++ (d0 :: d) ++ post) [])
        (MState (rev (d0 :: d) ++ rev (c0 :: c) ++ rev (d0 :: d) ++ p) post
                [(1%nat, c0 :: c)]).
Proof.
  intros Hc Hd Hpost Hno. unfold first, re_span. cbn [cat]. rewrite m_seq, m_str_app.
  cbn [flat_map]. rewrite app_nil_r, m_seq. unfold lazy1. rewrite m_group.
  rewrite flat_map_concat_map, map_map, <- flat_map_concat_map.
  cbn [app].
  replace (c ++ d0 :: d ++ post) with ((c ++ d0 :: d ++ post) ++ [])
    by apply app_nil_r.
  rewrite (m_lazy_dot_run ml c0 (c ++ d0 :: d ++ post) (rev (d0 :: d) ++ p) [] []).
  2:{ unfold all in *. cbn [forallb] in *. apply andb_true_iff in Hc. destruct Hc as [H0 Hc].
      rewrite H0, forallb_app, Hc. cbn [forallb andb].
      apply andb_true_iff in Hd. destruct Hd as [Hd0 Hd].
      now rewrite Hd0, forallb_app, Hd, Hpost. }
  2:{ exact I. }
  destruct (lazy_stops_split [] [] (d0 :: d ++ post) c (c0 :: rev (d0 :: d) ++ p))
    as [l1 [l2 [E F]]].
  rewrite E. apply flat_map_first with (l' := []).
  - eapply Forall_impl; [|exact F]. intros st [x [v [Hx Hv]]].
    apply m_str_nil. cbn [suf pre]. rewrite Hv. cbn [prefixb].
    destruct (N.eqb_spec d0 x) as [->|_]; [|reflexivity].
    exfalso. apply Hno. now right.
  - cbn [pre suf caps]. rewrite app_nil_r.
    change (d0 :: d ++ post) with ((d0 :: d) ++ post). rewrite m_str_app.
    f_equal. f_equal.
    + cbn [rev]. now rewrite <- !app_assoc.
    + f_equal. f_equal. rewrite !app_nil_r.
      change (c0 :: c ++ (d0 :: d) ++ post) with ((c0 :: c) ++ ((d0 :: d) ++ post)).
      now apply span_app.
Qed.

Lemma may_start_re_span d0 d x : may_start (re_span (d0 :: d)) x = true -> x = d0.
Proof. cbn. intros H. apply N.eqb_eq in H. now subst. Qed.

(** An emphasis rule on a line with one span between its delimiters. *)
Lemma span_rule_in_line delim open close d0 d front c back :
  lit delim = d0 :: d ->
  c <> [] -> all dot c -> all dot (d0 :: d) -> all dot back ->
  ~ In d0 front -> ~ In d0 c -> ~ In d0 back ->
  apply_rule (span_rule delim open close) (span_line front (lit delim) c back)
  = front ++ lit open ++ c ++ lit close ++ back.
Proof.
  intros Ed Hne Hc Hd Hback Nfront Nc Nback. destruct c as [|c0 c]; [contradiction|].
  rewrite apply_rule_pure. cbn [flag_m pattern span_rule]. rewrite Ed. unfold span_line.
  rewrite (replace_pure_copy_other false _ _ d0 front [] _ (may_start_re_span d0 d) Nfront).
  f_equal.
  rewrite (replace_pure_match false _ _ _ _ _
             (first_re_span_in false d0 d c0 c back (rev front ++ []) Hc Hd Hback Nc)).
  - cbn [pre suf].
    match goal with
    | |- context [replace_pure false ?r ?f ?p back] =>
        pose proof (replace_pure_copy_other false r f d0 back p []
                      (may_start_re_span d0 d) Nback) as E
    end.
    rewrite (app_nil_r back) in E. rewrite E, replace_pure_nil by reflexivity.
    unfold rule_out. cbn [repl span_rule]. unfold expand, cap.
    cbn [caps flat_map assoc Nat.eqb]. now rewrite !app_nil_r, <- !app_assoc.
  - cbn [suf]. rewrite !length_app. cbn [length]. lia.
Qed.

(** A rule whose pattern needs a longer run of the delimiter character
    finds nothing in the line. *)
Lemma rule_skips_span_line w rl front dl c back :
  requires w (pattern rl) = true -> recognises w = true ->
  w <> [] -> c <> [] ->
  (scan w 0 dl <? length w)%nat = true ->
  (forall x, In x w -> ~ In x front) ->
  (forall x, In x w -> ~ In x c) ->
  (forall x, In x w -> ~ In x back) ->
  apply_rule rl (span_line front dl c back) = span_line front dl c back.
Proof.
  intros R Hrec Hw Hc Hq Nfront Nc Nback.
  apply (apply_rule_absent w rl _ R). apply free_of_absent; [exact Hrec|].
  unfold free_of, span_line. apply Nat.ltb_lt in Hq.
  assert (E0 : scan w 0 front = 0%nat).
  { destruct front as [|a front]; [reflexivity|].
    apply scan_reset; [exact Hw | discriminate | | exact Nfront].
    destruct w; [contradiction | simpl; lia]. }
  rewrite !scan_app, E0, (scan_reset w c _ Hw Hc Hq Nc).
  destruct back as [|a back]; [cbn [scan fold_left]; lia|].
  rewrite (scan_reset w (a :: back) _ Hw ltac:(discriminate) Hq Nback).
  destruct w; [contradiction | simpl; lia].
Qed.

End EmphasisInLine.

Ltac skip_in_line HneS HokS factsS HnoS Hc Nf Nc Nb :=
  idtac;
  match goal with
  | |- apply_rule ?rl ?S = _ =>
      first
        [ apply (rule_skips_lines rl _ [S] eq_refl eq_refl HneS HokS);
          let l := fresh "l" in
          let Hl := fresh "Hl" in
          intros l Hl;
          destruct (factsS l Hl)
            as [? [? [-> [_ [_ [F35 [F45 [F42 [F95 [F62 [F60 [Fb Fd]]]]]]]]]]]];
          cbn [hd];
          first [exact F35 | exact F45 | exact F42 | exact F95 | exact F62
                | exact Fb | exact Fd]
        | apply (apply_rule_no_char 42 rl); [reflexivity | apply HnoS; [in_list | reflexivity]]
        | apply (apply_rule_no_char 95 rl); [reflexivity | apply HnoS; [in_list | reflexivity]]
        | apply (apply_rule_no_char 126 rl); [reflexivity | apply HnoS; [in_list | reflexivity]]
        | apply (apply_rule_no_char 96 rl); [reflexivity | apply HnoS; [in_list | reflexivity]]
        | apply (apply_rule_no_char 91 rl); [reflexivity | apply HnoS; [in_list | reflexivity]]
        | apply (rule_skips_span_line (lit "***") rl);
          [ reflexivity | reflexivity | discriminate | exact Hc | reflexivity
          | intros x Hx; apply Nf; revert Hx; cbn; tauto
          | intros x Hx; apply Nc; revert Hx; cbn; tauto
          | intros x Hx; apply Nb; revert Hx; cbn; tauto ]
        | apply (rule_skips_span_line (lit "___") rl);
          [ reflexivity | reflexivity | discriminate | exact Hc | reflexivity
          | intros x Hx; apply Nf; revert Hx; cbn; tauto
          | intros x Hx; apply Nc; revert Hx; cbn; tauto
          | intros x Hx; apply Nb; revert Hx; cbn; tauto ]
        | apply (rule_skips_span_line (lit "**") rl);
          [ reflexivity | reflexivity | discriminate | exact Hc | reflexivity
          | intros x Hx; apply Nf; revert Hx; cbn; tauto
          | intros x Hx; apply Nc; revert Hx; cbn; tauto
          | intros x Hx; apply Nb; revert Hx; cbn; tauto ]
        | apply (rule_skips_span_line (lit "__") rl);
          [ reflexivity | reflexivity | discriminate | exact Hc | reflexivity
          | intros x Hx; apply Nf; revert Hx; cbn; tauto
          | intros x Hx; apply Nc; revert Hx; cbn; tauto
          | intros x Hx; apply Nb; revert Hx; cbn; tauto ] ]
  end.

Section EmphasisInParagraph.

Lemma fold_rules_split2 before rl1 mid rl2 s s1 s2 :
  (forall r, In r before -> apply_rule r s = s) ->
  apply_rule rl1 s = s1 ->
  (forall r, In r mid -> apply_rule r s1 = s1) ->
  apply_rule rl2 s1 = s2 ->
  fold_left (fun html r => apply_rule r html) (before ++ rl1 :: mid ++ [rl2]) s = s2.
Proof.
  intros Hb H1 Hm H2. rewrite fold_left_app. cbn [fold_left].
  rewrite (fold_rules_skip s before Hb), H1, fold_left_app.
  rewrite (fold_rules_skip s1 mid Hm). cbn [fold_left]. exact H2.
Qed.

Lemma plain_text_no_char x s :
  existsb (N.eqb x) (lit "`*_~[]|<") = true -> plain_text s = true -> ~ In x s.
Proof. intros Hx H. now apply plain_not_in. Qed.

(** The pipeline of parse on a line of text with one emphasised span. *)
Lemma parse_span_line before rl mid front dl open close c back :
  initializeRules = before ++ rl :: mid ++ [paragraph_rule] ->
  text_line front = true -> plain_text c = true -> plain_text back = true ->
  existsb (N.eqb 96) dl = false -> existsb (N.eqb 124) dl = false ->
  forallb dot dl = true ->
  forallb dot open = true -> forallb dot close = true ->
  (forall r, In r before ->
     apply_rule r (span_line front dl c back) = span_line front dl c back) ->
  apply_rule rl (span_line front dl c back) = front ++ open ++ c ++ close ++ back ->
  (forall r, In r mid ->
     apply_rule r (front ++ open ++ c ++ close ++ back)
     = front ++ open ++ c ++ close ++ back) ->
  (forall w, In w [lit "</u"; lit "</o"; lit "</b"] ->
     hd 0 w = 60 /\ w <> [] /\ scan w 0 (lit "<p>") = 0%nat
     /\ scan w 0 open = 0%nat /\ scan w 0 close = 0%nat
     /\ scan w 0 (lit "</p>") = 0%nat) ->
  parse (span_line front dl c back)
  = element (lit "p") (front ++ open ++ c ++ close ++ back).
Proof.
  intros Hsplit Hf Hc Hb D96 D124 Ddl Dop Dcl Hbefore Hrule Hmid Hscan.
  destruct (text_line_inv front Hf)
    as [f0 [frun [Ef [Hs [Hp [_ [_ [_ [_ [_ [H60 _]]]]]]]]]]].
  assert (Hin : forall x, existsb (N.eqb x) (lit "`*_~[]|<") = true ->
                  existsb (N.eqb x) dl = false -> ~ In x (span_line front dl c back)).
  { intros x Hx Hd. unfold span_line. rewrite !in_app_iff.
    assert (Nd : ~ In x dl).
    { intros H. assert (E : existsb (N.eqb x) dl = true)
        by (apply existsb_exists; exists x; split; [exact H | apply N.eqb_refl]).
      congruence. }
    pose proof (plain_not_in x front Hx Hp). pose proof (plain_text_no_char x c Hx Hc).
    pose proof (plain_text_no_char x back Hx Hb). tauto. }
  rewrite (parse_steps (span_line front dl c back) (span_line front dl c back) []
             (span_line front dl c back) []).
  2:{ unfold span_line. rewrite Ef. discriminate. }
  2:{ apply protect_no_tick; [reflexivity | now apply Hin]. }
  2:{ apply protect_no_tick; [reflexivity | now apply Hin]. }
  rewrite parseTables_no_pipe by now apply Hin.
  rewrite Hsplit.
  rewrite (fold_rules_split2 before rl mid paragraph_rule _ _
             (element (lit "p") (front ++ open ++ c ++ close ++ back)) Hbefore Hrule Hmid).
  - cbn [restore].
    pose proof (consolidate_lines [element (lit "p") (front ++ open ++ c ++ close ++ back)])
      as CL.
    cbn [join] in CL. rewrite CL.
    + unfold element.
      change (lit "<" ++ lit "p" ++ lit ">" ++ (front ++ open ++ c ++ close ++ back)
              ++ lit "</" ++ lit "p" ++ lit ">")
        with (60 :: (lit "p>" ++ (front ++ open ++ c ++ close ++ back) ++ lit "</p>")).
      replace (lit "p>" ++ (front ++ open ++ c ++ close ++ back) ++ lit "</p>")
        with ((lit "p>" ++ (front ++ open ++ c ++ close ++ back) ++ lit "</p") ++ [62])
        by (rewrite <- !app_assoc; reflexivity).
      apply trim_id; reflexivity.
    + intros w l Hw [<-|[]]. destruct (Hscan w Hw) as [Hw0 [Hwne [S1 [S2 [S3 S4]]]]].
      assert (P : forall s, plain_text s = true -> scan w 0 s = 0%nat).
      { intros s Hs'. apply scan_other; [|exact Hwne]. rewrite Hw0.
        now apply plain_first_other. }
      unfold element.
      change (lit "<" ++ lit "p" ++ lit ">" ++ (front ++ open ++ c ++ close ++ back)
              ++ lit "</" ++ lit "p" ++ lit ">")
        with (lit "<p>" ++ (front ++ open ++ c ++ close ++ back) ++ lit "</p>").
      rewrite !scan_app, S1, (P front Hp), S2, (P c Hc), S3, (P back Hb). exact S4.
  - change (front ++ open ++ c ++ close ++ back)
      with (join [front ++ open ++ c ++ close ++ back]) at 1.
    rewrite paragraph_rule_on_lines; [reflexivity | discriminate|].
    intros l [<-|[]]. exists f0, (frun ++ open ++ c ++ close ++ back).
    rewrite Ef. repeat split; try assumption.
    unfold all. rewrite <- Ef, !forallb_app, Dop, Dcl.
    pose proof (plain_dot front Hp) as D1. pose proof (plain_dot c Hc) as D2.
    pose proof (plain_dot back Hb) as D3. unfold all in D1, D2, D3.
    now rewrite D1, D2, D3.
Qed.

Lemma emphasis_in_line_parsed :
  forall (delim open close : string) (front c back : str),
    In (delim, open, close) emphasis ->
    text_line front = true ->
    c <> [] -> plain_text c = true -> plain_text back = true ->
    parse (span_line front (lit delim) c back)
    = element (lit "p") (front ++ lit open ++ c ++ lit close ++ back).
Proof.
  intros delim open close front c back Hin Hf Hcne Hc Hb.
  pose proof (text_line_inv front Hf) as Hfacts.
  destruct Hfacts as [f0 [frun [Ef [Hs [Hp [G35 [G45 [G42 [G95 [G62 [G60 [Gb Gd]]]]]]]]]]]].
  assert (Hmark : forall x, In x (lit "`*_~[]|<") -> existsb (N.eqb x) (lit "`*_~[]|<") = true).
  { intros x Hx. apply existsb_exists. exists x. split; [exact Hx | apply N.eqb_refl]. }
  assert (Nf : forall x, In x (lit "`*_~[]|<") -> ~ In x front)
    by (intros x Hx; apply plain_not_in; [now apply Hmark | exact Hp]).
  assert (Nc : forall x, In x (lit "`*_~[]|<") -> ~ In x c)
    by (intros x Hx; apply plain_text_no_char; [now apply Hmark | exact Hc]).
  assert (Nb : forall x, In x (lit "`*_~[]|<") -> ~ In x back)
    by (intros x Hx; apply plain_text_no_char; [now apply Hmark | exact Hb]).
  assert (HneS : forall dl, [span_line front dl c back] <> []) by discriminate.
  assert (HneO : forall op cl, [front ++ op ++ c ++ cl ++ back] <> []) by discriminate.
  assert (HokS : forall dl, forallb dot dl = true ->
            forall l, In l [span_line front dl c back] -> l <> [] /\ all dot l).
  { intros dl Hd l [<-|[]]. split; [unfold span_line; rewrite Ef; discriminate|].
    unfold all, span_line. rewrite !forallb_app, Hd.
    pose proof (plain_dot front Hp) as D1. pose proof (plain_dot c Hc) as D2.
    pose proof (plain_dot back Hb) as D3. unfold all in D1, D2, D3.
    now rewrite D1, D2, D3. }
  assert (HokO : forall op cl, forallb dot op = true -> forallb dot cl = true ->
            forall l, In l [front ++ op ++ c ++ cl ++ back] -> l <> [] /\ all dot l).
  { intros op cl Ho Hcl l [<-|[]]. split; [rewrite Ef; discriminate|].
    unfold all. rewrite !forallb_app, Ho, Hcl.
    pose proof (plain_dot front Hp) as D1. pose proof (plain_dot c Hc) as D2.
    pose proof (plain_dot back Hb) as D3. unfold all in D1, D2, D3.
    now rewrite D1, D2, D3. }
  assert (factsS : forall dl l, In l [span_line front dl c back] ->
            exists c run, l = c :: run /\ isSpace c = false /\ True
              /\ (35 =? c) = false /\ (45 =? c) = false /\ (42 =? c) = false
              /\ (95 =? c) = false /\ (62 =? c) = false /\ (60 =? c) = false
              /\ class_mem false (set_ "*-+") c = false
              /\ class_mem false [CDigit] c = false).
  { intros dl l [<-|[]]. exists f0, (frun ++ dl ++ c ++ dl ++ back).
    unfold span_line. rewrite Ef. repeat split; assumption. }
  assert (factsO : forall op cl l, In l [front ++ op ++ c ++ cl ++ back] ->
            exists c run, l = c :: run /\ isSpace c = false /\ True
              /\ (35 =? c) = false /\ (45 =? c) = false /\ (42 =? c) = false
              /\ (95 =? c) = false /\ (62 =? c) = false /\ (60 =? c) = false
              /\ class_mem false (set_ "*-+") c = false
              /\ class_mem false [CDigit] c = false).
  { intros op cl l [<-|[]]. exists f0, (frun ++ op ++ c ++ cl ++ back).
    rewrite Ef. repeat split; assumption. }
  assert (Hmark5 : forall x, In x (lit "`*_~[") -> In x (lit "`*_~[]|<")).
  { intros x Hx. cbn in Hx |- *. tauto. }
  assert (Habs : forall x s, existsb (N.eqb x) s = false -> ~ In x s).
  { intros x s E H. assert (E' : existsb (N.eqb x) s = true)
      by (apply existsb_exists; exists x; split; [exact H | apply N.eqb_refl]).
    congruence. }
  assert (HnoS : forall dl x, In x (lit "`*_~[") -> existsb (N.eqb x) dl = false ->
                              ~ In x (span_line front dl c back)).
  { intros dl x Hx Hd. unfold span_line. rewrite !in_app_iff.
    pose proof (Nf x (Hmark5 x Hx)). pose proof (Nc x (Hmark5 x Hx)).
    pose proof (Nb x (Hmark5 x Hx)). pose proof (Habs x dl Hd). tauto. }
  assert (HnoO : forall op cl, existsb (fun x => existsb (N.eqb x) op) (lit "`*_~[") = false ->
                   existsb (fun x => existsb (N.eqb x) cl) (lit "`*_~[") = false ->
                   forall x, In x (lit "`*_~[") -> existsb (N.eqb x) [] = false ->
                             ~ In x (front ++ op ++ c ++ cl ++ back)).
  { intros op cl Ho Hcl x Hx _. rewrite !in_app_iff.
    pose proof (Nf x (Hmark5 x Hx)). pose proof (Nc x (Hmark5 x Hx)).
    pose proof (Nb x (Hmark5 x Hx)).
    assert (No : ~ In x op).
    { apply Habs. destruct (existsb (N.eqb x) op) eqn:E; [|reflexivity].
      assert (E' : existsb (fun x => existsb (N.eqb x) op) (lit "`*_~[") = true)
        by (apply existsb_exists; exists x; split; [exact Hx | exact E]).
      congruence. }
    assert (Ncl : ~ In x cl).
    { apply Habs. destruct (existsb (N.eqb x) cl) eqn:E; [|reflexivity].
      assert (E' : existsb (fun x => existsb (N.eqb x) cl) (lit "`*_~[") = true)
        by (apply existsb_exists; exists x; split; [exact Hx | exact E]).
      congruence. }
    tauto. }
  unfold emphasis in Hin. cbn [In] in Hin.
  destruct Hin as [E|[E|[E|[E|[E|[E|[E|[]]]]]]]]; injection E as <- <- <-.
  - apply (parse_span_line (firstn 9 initializeRules) (span_rule "***" "<strong><em>" "</em></strong>")
             (firstn 14 (skipn 10 initializeRules)) front (lit "***") (lit "<strong><em>") (lit "</em></strong>")
             c back eq_refl Hf Hc Hb eq_refl eq_refl eq_refl eq_refl eq_refl).
    + each_rule ltac:(skip_in_line (HneS (lit "***")) (HokS (lit "***") eq_refl)
                        (factsS (lit "***")) (HnoS (lit "***")) Hcne Nf Nc Nb).
    + apply (span_rule_in_line "***" "<strong><em>" "</em></strong>" 42 [42; 42] front c back eq_refl Hcne
               (plain_dot c Hc) eq_refl (plain_dot back Hb));
        [apply Nf | apply Nc | apply Nb]; in_list.
    + each_rule ltac:(skip_in_line (HneO (lit "<strong><em>") (lit "</em></strong>")) (HokO (lit "<strong><em>") (lit "</em></strong>") eq_refl eq_refl)
                        (factsO (lit "<strong><em>") (lit "</em></strong>")) (HnoO (lit "<strong><em>") (lit "</em></strong>") eq_refl eq_refl)
                        Hcne Nf Nc Nb).
    + intros w Hw; cbn [In] in Hw; destruct Hw as [<-|[<-|[<-|[]]]];
        repeat split; (reflexivity || discriminate).
  - apply (parse_span_line (firstn 10 initializeRules) (span_rule "___" "<strong><em>" "</em></strong>")
             (firstn 13 (skipn 11 initializeRules)) front (lit "___") (lit "<strong><em>") (lit "</em></strong>")
             c back eq_refl Hf Hc Hb eq_refl eq_refl eq_refl eq_refl eq_refl).
    + each_rule ltac:(skip_in_line (HneS (lit "___")) (HokS (lit "___") eq_refl)
                        (factsS (lit "___")) (HnoS (lit "___")) Hcne Nf Nc Nb).
    + apply (span_rule_in_line "___" "<strong><em>" "</em></strong>" 95 [95; 95] front c back eq_refl Hcne
               (plain_dot c Hc) eq_refl (plain_dot back Hb));
        [apply Nf | apply Nc | apply Nb]; in_list.
    + each_rule ltac:(skip_in_line (HneO (lit "<strong><em>") (lit "</em></strong>")) (HokO (lit "<strong><em>") (lit "</em></strong>") eq_refl eq_refl)
                        (factsO (lit "<strong><em>") (lit "</em></strong>")) (HnoO (lit "<strong><em>") (lit "</em></strong>") eq_refl eq_refl)
                        Hcne Nf Nc Nb).
    + intros w Hw; cbn [In] in Hw; destruct Hw as [<-|[<-|[<-|[]]]];
        repeat split; (reflexivity || discriminate).
  - apply (parse_span_line (firstn 11 initializeRules) (span_rule "**" "<strong>" "</strong>")
             (firstn 12 (skipn 12 initializeRules)) front (lit "**") (lit "<strong>") (lit "</strong>")
             c back eq_refl Hf Hc Hb eq_refl eq_refl eq_refl eq_refl eq_refl).
    + each_rule ltac:(skip_in_line (HneS (lit "**")) (HokS (lit "**") eq_refl)
                        (factsS (lit "**")) (HnoS (lit "**")) Hcne Nf Nc Nb).
    + apply (span_rule_in_line "**" "<strong>" "</strong>" 42 [42] front c back eq_refl Hcne
               (plain_dot c Hc) eq_refl (plain_dot back Hb));
        [apply Nf | apply Nc | apply Nb]; in_list.
    + each_rule ltac:(skip_in_line (HneO (lit "<strong>") (lit "</strong>")) (HokO (lit "<strong>") (lit "</strong>") eq_refl eq_refl)
                        (factsO (lit "<strong>") (lit "</strong>")) (HnoO (lit "<strong>") (lit "</strong>") eq_refl eq_refl)
                        Hcne Nf Nc Nb).
    + intros w Hw; cbn [In] in Hw; destruct Hw as [<-|[<-|[<-|[]]]];
        repeat split; (reflexivity || discriminate).
  - apply (parse_span_line (firstn 12 initializeRules) (span_rule "__" "<strong>" "</strong>")
             (firstn 11 (skipn 13 initializeRules)) front (lit "__") (lit "<strong>") (lit "</strong>")
             c back eq_refl Hf Hc Hb eq_refl eq_refl eq_refl eq_refl eq_refl).
    + each_rule ltac:(skip_in_line (HneS (lit "__")) (HokS (lit "__") eq_refl)
                        (factsS (lit "__")) (HnoS (lit "__")) Hcne Nf Nc Nb).
    + apply (span_rule_in_line "__" "<strong>" "</strong>" 95 [95] front c back eq_refl Hcne
               (plain_dot c Hc) eq_refl (plain_dot back Hb));
        [apply Nf | apply Nc | apply Nb]; in_list.
    + each_rule ltac:(skip_in_line (HneO (lit "<strong>") (lit "</strong>")) (HokO (lit "<strong>") (lit "</strong>") eq_refl eq_refl)
                        (factsO (lit "<strong>") (lit "</strong>")) (HnoO (lit "<strong>") (lit "</strong>") eq_refl eq_refl)
                        Hcne Nf Nc Nb).
    + intros w Hw; cbn [In] in Hw; destruct Hw as [<-|[<-|[<-|[]]]];
        repeat split; (reflexivity || discriminate).
  - apply (parse_span_line (firstn 13 initializeRules) (span_rule "*" "<em>" "</em>")
             (firstn 10 (skipn 14 initializeRules)) front (lit "*") (lit "<em>") (lit "</em>")
             c back eq_refl Hf Hc Hb eq_refl eq_refl eq_refl eq_refl eq_refl).
    + each_rule ltac:(skip_in_line (HneS (lit "*")) (HokS (lit "*") eq_refl)
                        (factsS (lit "*")) (HnoS (lit "*")) Hcne Nf Nc Nb).
    + apply (span_rule_in_line "*" "<em>" "</em>" 42 [] front c back eq_refl Hcne
               (plain_dot c Hc) eq_refl (plain_dot back Hb));
        [apply Nf | apply Nc | apply Nb]; in_list.
    + each_rule ltac:(skip_in_line (HneO (lit "<em>") (lit "</em>")) (HokO (lit "<em>") (lit "</em>") eq_refl eq_refl)
                        (factsO (lit "<em>") (lit "</em>")) (HnoO (lit "<em>") (lit "</em>") eq_refl eq_refl)
                        Hcne Nf Nc Nb).
    + intros w Hw; cbn [In] in Hw; destruct Hw as [<-|[<-|[<-|[]]]];
        repeat split; (reflexivity || discriminate).
  - apply (parse_span_line (firstn 14 initializeRules) (span_rule "_" "<em>" "</em>")
             (firstn 9 (skipn 15 initializeRules)) front (lit "_") (lit "<em>") (lit "</em>")
             c back eq_refl Hf Hc Hb eq_refl eq_refl eq_refl eq_refl eq_refl).
    + each_rule ltac:(skip_in_line (HneS (lit "_")) (HokS (lit "_") eq_refl)
                        (factsS (lit "_")) (HnoS (lit "_")) Hcne Nf Nc Nb).
    + apply (span_rule_in_line "_" "<em>" "</em>" 95 [] front c back eq_refl Hcne
               (plain_dot c Hc) eq_refl (plain_dot back Hb));
        [apply Nf | apply Nc | apply Nb]; in_list.
    + each_rule ltac:(skip_in_line (HneO (lit "<em>") (lit "</em>")) (HokO (lit "<em>") (lit "</em>") eq_refl eq_refl)
                        (factsO (lit "<em>") (lit "</em>")) (HnoO (lit "<em>") (lit "</em>") eq_refl eq_refl)
                        Hcne Nf Nc Nb).
    + intros w Hw; cbn [In] in Hw; destruct Hw as [<-|[<-|[<-|[]]]];
        repeat split; (reflexivity || discriminate).
  - apply (parse_span_line (firstn 15 initializeRules) (span_rule "~~" "<del>" "</del>")
             (firstn 8 (skipn 16 initializeRules)) front (lit "~~") (lit "<del>") (lit "</del>")
             c back eq_refl Hf Hc Hb eq_refl eq_refl eq_refl eq_refl eq_refl).
    + each_rule ltac:(skip_in_line (HneS (lit "~~")) (HokS (lit "~~") eq_refl)
                        (factsS (lit "~~")) (HnoS (lit "~~")) Hcne Nf Nc Nb).
    + apply (span_rule_in_line "~~" "<del>" "</del>" 126 [126] front c back eq_refl Hcne
               (plain_dot c Hc) eq_refl (plain_dot back Hb));
        [apply Nf | apply Nc | apply Nb]; in_list.
    + each_rule ltac:(skip_in_line (HneO (lit "<del>") (lit "</del>")) (HokO (lit "<del>") (lit "</del>") eq_refl eq_refl)
                        (factsO (lit "<del>") (lit "</del>")) (HnoO (lit "<del>") (lit "</del>") eq_refl eq_refl)
                        Hcne Nf Nc Nb).
    + intros w Hw; cbn [In] in Hw; destruct Hw as [<-|[<-|[<-|[]]]];
        repeat split; (reflexivity || discriminate).
Qed.

(** X17.  A one-line document made of a line of text, one of the seven
    emphasis delimiters, a nonempty plain text, the delimiter again and a
    plain text is rendered as one paragraph in which the tags of the
    delimiter take the place of its two copies. *)
Theorem parse_emphasis_in_line :
  forall (delim open close : string) (front c back : str),
    In (delim, open, close) emphasis ->
    text_line front = true ->
    c <> [] -> plain_text c = true -> plain_text back = true ->
    parse (span_line front (lit delim) c back)
    = element (lit "p") (front ++ lit open ++ c ++ lit close ++ back).
Proof. exact emphasis_in_line_parsed. Qed.

Lemma parse_emphasis_in_line_witness :
  parse (span_line (lit "some ") (lit "~~") (lit "old") (lit " text"))
  = element (lit "p") (lit "some " ++ lit "<del>" ++ lit "old" ++ lit "</del>" ++ lit " text").
Proof.
  apply (parse_emphasis_in_line "~~" "<del>" "</del>" (lit "some ") (lit "old") (lit " text")).
  - simpl. tauto.
  - reflexivity.
  - discriminate.
  - reflexivity.
  - reflexivity.
Defined.


End EmphasisInParagraph.

(* ===================================================================== *)
(** ** The text area and the formatting commands *)
(* ===================================================================== *)

Section TextArea.
Import Editor.

Lemma selection_parts ta :
  selection_ok ta ->
  value ta = before_selection ta ++ selected ta ++ after_selection ta
  /\ length (before_selection ta) = selectionStart ta
  /\ length (selected ta) = (selectionEnd ta - selectionStart ta)%nat.
Proof.
  destruct ta as [v s e]. unfold selection_ok, before_selection, selected, after_selection,
    substring. cbn [value selectionStart selectionEnd]. intros [H1 H2].
  rewrite !Nat.min_l by lia. rewrite Nat.max_r by lia.
  repeat split.
  - rewrite <- (firstn_skipn s v) at 1. f_equal.
    rewrite <- (firstn_skipn (e - s) (skipn s v)) at 1. f_equal.
    rewrite skipn_skipn. f_equal. lia.
  - rewrite length_firstn. lia.
  - rewrite length_firstn, length_skipn. lia.
Qed.

Lemma set_selection_range_ok v s e :
  (s <= e)%nat -> (e <= length v)%nat -> set_selection_range v s e = TextArea v s e.
Proof.
  intros H1 H2. unfold set_selection_range. rewrite !Nat.min_l by lia.
  destruct (Nat.leb_spec e s) as [H|H]; [|reflexivity].
  replace e with s by lia. reflexivity.
Qed.

Lemma set_cursor_at ta n :
  (n <= length (value ta))%nat -> set_cursor ta n = TextArea (value ta) n n.
Proof.
  intros Hn. unfold set_cursor, set_selectionEnd, set_selectionStart.
  assert (E : exists s0, set_selection_range (value ta) (selectionStart ta) n
                         = TextArea (value ta) s0 n).
  { unfold set_selection_range. rewrite (Nat.min_l n) by lia.
    destruct (Nat.leb_spec n (Nat.min (selectionStart ta) (length (value ta))));
      eexists; reflexivity. }
  destruct E as [s0 ->]. cbn [value selectionEnd]. rewrite Nat.ltb_irrefl.
  now apply set_selection_range_ok.
Qed.

Lemma setRangeText_selection ta text :
  selection_ok ta ->
  setRangeText ta text (selectionStart ta) (selectionEnd ta)
  = Some (TextArea (before_selection ta ++ text ++ after_selection ta)
                   (selectionStart ta)
                   (if (selectionStart ta <? selectionEnd ta)%nat
                    then selectionStart ta + length text else selectionStart ta)).
Proof.
  destruct ta as [v s e]. unfold selection_ok, setRangeText, before_selection, after_selection.
  cbn [value selectionStart selectionEnd]. intros [H1 H2].
  rewrite !Nat.min_l by lia.
  replace (e <? s)%nat with false by (symmetry; apply Nat.ltb_ge; lia).
  rewrite !Nat.ltb_irrefl. f_equal.
  assert (L : length (firstn s v ++ text ++ skipn e v)
              = (s + length text + (length v - e))%nat).
  { rewrite !length_app, length_firstn, length_skipn. lia. }
  destruct (Nat.ltb_spec s e) as [H|H].
  - apply set_selection_range_ok; rewrite ?L; lia.
  - assert (E : e = s) by lia. subst e. apply set_selection_range_ok; rewrite ?L; lia.
Qed.

Lemma selected_nil ta :
  selection_ok ta -> (selected ta = [] <-> selectionStart ta = selectionEnd ta).
Proof.
  intros H. destruct (selection_parts ta H) as [_ [_ L]]. destruct H as [H1 H2]. split.
  - intros E. rewrite E in L. simpl in L. lia.
  - intros E. rewrite E, Nat.sub_diag in L. now apply length_zero_iff_nil.
Qed.

Lemma substring_middle (a b c : list N) :
  substring (a ++ b ++ c) (length a) (length a + length b) = b.
Proof.
  unfold substring. rewrite !length_app, !Nat.min_l by lia.
  rewrite Nat.max_r by lia.
  replace (length a + length b - length a)%nat with (length b) by lia.
  rewrite skipn_app, Nat.sub_diag, skipn_all. cbn [app skipn].
  rewrite firstn_app, Nat.sub_diag, firstn_all. cbn [firstn]. apply app_nil_r.
Qed.

Lemma formatSelection_result :
  forall (prefix suffix : str) (ta : textarea),
    selection_ok ta ->
    exists ta',
      formatSelection prefix suffix ta = Some ta'
      /\ value ta' = before_selection ta ++ prefix ++ selected ta ++ suffix
                     ++ after_selection ta
      /\ selection_ok ta'
      /\ match selected ta with
         | [] => selectionStart ta' = (selectionStart ta + length prefix)%nat
                 /\ selectionEnd ta' = selectionStart ta'
         | _ :: _ => selectionStart ta' = selectionStart ta
                     /\ selected ta' = prefix ++ selected ta ++ suffix
         end.
Proof.
  intros prefix suffix ta Hok.
  destruct (selection_parts ta Hok) as [Ev [Lb Ls]].
  pose proof (selected_nil ta Hok) as Hnil.
  unfold formatSelection. fold (selected ta).
  rewrite (setRangeText_selection ta _ Hok).
  set (v' := before_selection ta ++ (prefix ++ selected ta ++ suffix) ++ after_selection ta).
  assert (Lv : length v' = (selectionStart ta + length prefix + length (selected ta)
                            + length suffix + length (after_selection ta))%nat).
  { unfold v'. rewrite !length_app, Lb. lia. }
  destruct (selected ta) as [|c sel] eqn:Esel.
  - eexists. split; [reflexivity|].
    rewrite set_cursor_at by (cbn [value]; rewrite Lv; simpl; lia).
    cbn [value selectionStart selectionEnd]. split; [|split; [|split; reflexivity]].
    + unfold v'. now rewrite <- !app_assoc.
    + unfold selection_ok. cbn [value selectionStart selectionEnd]. rewrite Lv. simpl. lia.
  - assert (Hlt : (selectionStart ta < selectionEnd ta)%nat).
    { destruct Hok as [H1 H2]. destruct (Nat.eq_dec (selectionStart ta) (selectionEnd ta)) as [E|E].
      - apply Hnil in E. discriminate.
      - lia. }
    replace (selectionStart ta <? selectionEnd ta)%nat with true
      by (symmetry; now apply Nat.ltb_lt).
    eexists. split; [reflexivity|].
    unfold set_selectionStart, set_selectionEnd. cbn [value selectionStart selectionEnd].
    replace (selectionStart ta + length (prefix ++ (c :: sel) ++ suffix)
             <? selectionStart ta)%nat with false
      by (symmetry; apply Nat.ltb_ge; lia).
    assert (Lf : length (prefix ++ (c :: sel) ++ suffix)
                 = (length prefix + length (c :: sel) + length suffix)%nat)
      by (rewrite !length_app; lia).
    rewrite (set_selection_range_ok v' (selectionStart ta)
               (selectionStart ta + length (prefix ++ (c :: sel) ++ suffix)))
      by (rewrite ?Lv, ?Lf; simpl; lia).
    cbn [value selectionStart selectionEnd].
    rewrite set_selection_range_ok by (rewrite ?Lv, ?Lf; simpl; lia).
    cbn [value selectionStart selectionEnd]. split; [|split; [|split; [reflexivity|]]].
    + unfold v'. now rewrite <- !app_assoc.
    + unfold selection_ok. cbn [value selectionStart selectionEnd]. rewrite Lv, Lf. simpl. lia.
    + unfold selected. cbn [value selectionStart selectionEnd]. unfold v'.
      rewrite <- Lb at 1 2. apply substring_middle.
Qed.

(** X18.  formatSelection puts the prefix in front of the selected text and
    the suffix behind it and leaves the text before and after the selection
    as it is.  When something was selected the new selection is the
    formatted text with prefix and suffix; when nothing was selected the
    cursor stands between prefix and suffix. *)
Theorem formatSelection_wraps_selection :
  forall (prefix suffix : str) (ta : textarea),
    selection_ok ta ->
    exists ta',
      formatSelection prefix suffix ta = Some ta'
      /\ value ta' = before_selection ta ++ prefix ++ selected ta ++ suffix
                     ++ after_selection ta
      /\ selection_ok ta'
      /\ match selected ta with
         | [] => selectionStart ta' = (selectionStart ta + length prefix)%nat
                 /\ selectionEnd ta' = selectionStart ta'
         | _ :: _ => selectionStart ta' = selectionStart ta
                     /\ selected ta' = prefix ++ selected ta ++ suffix
         end.
Proof. exact formatSelection_result. Qed.

Lemma formatSelection_wraps_selection_witness :
  exists ta',
    formatSelection (lit "**") (lit "**") (TextArea (lit "some bold text") 5 9) = Some ta'
    /\ value ta' = lit "some **bold** text"
    /\ selected ta' = lit "**bold**".
Proof.
  destruct (formatSelection_wraps_selection (lit "**") (lit "**")
              (TextArea (lit "some bold text") 5 9)) as [ta' [E [V [_ S]]]].
  - unfold selection_ok. simpl. lia.
  - exists ta'. split; [exact E|]. split; [exact V | apply S].
Defined.

(** *** formatLine *)

Lemma find_back_spec s c : forall k,
  match find_back s c k with
  | Some i => (i <= k)%nat /\ nth i s 0 = c
              /\ (forall j, (i < j <= k)%nat -> nth j s 0 <> c)
  | None => forall j, (j <= k)%nat -> nth j s 0 <> c
  end.
Proof.
  induction k as [|k IH]; cbn [find_back].
  - destruct (N.eqb_spec (nth 0 s 0) c) as [E|E].
    + repeat split; [lia | exact E | intros j Hj; lia].
    + intros j Hj. now replace j with 0%nat by lia.
  - destruct (N.eqb_spec (nth (S k) s 0) c) as [E|E].
    + repeat split; [lia | exact E | intros j Hj; lia].
    + destruct (find_back s c k) as [i|].
      * destruct IH as [H1 [H2 H3]]. repeat split; [lia | exact H2|].
        intros j Hj. destruct (Nat.eq_dec j (S k)) as [->|Hne]; [exact E | apply H3; lia].
      * intros j Hj. destruct (Nat.eq_dec j (S k)) as [->|Hne]; [exact E | apply IH; lia].
Qed.

Lemma str_eqb_eq a b : str_eqb a b = true -> a = b.
Proof.
  unfold str_eqb. rewrite andb_true_iff, Nat.eqb_eq. intros [L P].
  apply prefixb_spec in P. destruct P as [t ->]. rewrite length_app in L.
  assert (t = []) by (apply length_zero_iff_nil; lia). subst. now rewrite app_nil_r.
Qed.

Lemma In_firstn_skipn (x : N) n a s :
  In x (firstn n (skipn a s)) -> exists j, (a <= j < a + n)%nat /\ nth j s 0 = x.
Proof.
  intros H. apply In_nth with (d := 0) in H. destruct H as [i [Hi E]].
  rewrite length_firstn, length_skipn in Hi.
  rewrite nth_firstn in E. replace (i <? n)%nat with true in E by (symmetry; apply Nat.ltb_lt; lia).
  rewrite nth_skipn in E. exists (a + i)%nat. split; [lia | exact E].
Qed.

Lemma lineStart_spec v start :
  (start <= length v)%nat ->
  (lineStart v start <= length v)%nat
  /\ (lineStart v start = 0%nat \/ nth (lineStart v start - 1) v 0 = nl)
  /\ ((1 <= start)%nat ->
      (lineStart v start <= start)%nat
      /\ ~ In nl (firstn (start - lineStart v start) (skipn (lineStart v start) v))).
Proof.
  intros Hs. unfold lineStart, lastIndexOf. destruct v as [|c v]; cbn [plus_one].
  - repeat split; [lia | now left | lia | simpl; rewrite firstn_nil; tauto].
  - set (s := c :: v) in *.
    assert (Hk : (Nat.min (start - 1) (length s - 1) = start - 1)%nat) by lia.
    rewrite Hk. pose proof (find_back_spec s nl (start - 1)) as F.
    destruct (find_back s nl (start - 1)) as [i|]; cbn [plus_one].
    + destruct F as [H1 [H2 H3]]. repeat split.
      * assert (i < length s)%nat; [|lia].
        destruct (Nat.lt_ge_cases i (length s)) as [H|H]; [exact H|].
        rewrite nth_overflow in H2 by exact H. discriminate.
      * right. now replace (S i - 1)%nat with i by lia.
      * lia.
      * intros Hin. apply In_firstn_skipn in Hin. destruct Hin as [j [Hj E]].
        apply (H3 j); [lia | exact E].
    + repeat split; [lia | now left | lia|].
      intros Hin. apply In_firstn_skipn in Hin. destruct Hin as [j [Hj E]].
      apply (F j); [lia | exact E].
Qed.

Lemma formatLine_eq prefix ta :
  (lineStart (value ta) (selectionStart ta) <= length (value ta))%nat ->
  formatLine prefix ta
  = TextArea (firstn (lineStart (value ta) (selectionStart ta)) (value ta) ++ prefix
              ++ skipn (lineStart (value ta) (selectionStart ta)) (value ta))
             (lineStart (value ta) (selectionStart ta) + length prefix)
             (lineStart (value ta) (selectionStart ta) + length prefix).
Proof.
  intros Hls. unfold formatLine.
  set (ls := lineStart (value ta) (selectionStart ta)) in *.
  assert (E1 : substring (value ta) 0 ls = firstn ls (value ta)).
  { unfold substring. rewrite Nat.min_0_l, (Nat.min_l ls) by lia.
    now rewrite Nat.max_r, Nat.min_l, Nat.sub_0_r by lia. }
  assert (E2 : substring_from (value ta) ls = skipn ls (value ta))
    by (unfold substring_from; now rewrite Nat.min_l by lia).
  rewrite E1, E2.
  set (newValue := firstn ls (value ta) ++ prefix ++ skipn ls (value ta)).
  assert (Ev : value (set_value ta newValue) = newValue).
  { unfold set_value. destruct (str_eqb (value ta) newValue) eqn:E; [|reflexivity].
    now apply str_eqb_eq. }
  rewrite set_cursor_at; rewrite Ev; [reflexivity|].
  unfold newValue. rewrite !length_app, length_firstn. lia.
Qed.

(** X19.  formatLine inserts the prefix at a position that is either the
    start of the text or directly behind a line feed, and puts the cursor
    behind the prefix; the rest of the text is unchanged.  When the cursor
    is not at position 0 the position of the insertion is not behind the
    cursor and no line feed lies between it and the cursor: it is the start
    of the line of the cursor. *)
Theorem formatLine_inserts_at_line_start :
  forall (prefix : str) (ta : textarea),
    (selectionStart ta <= length (value ta))%nat ->
    formatLine prefix ta
    = TextArea (firstn (lineStart (value ta) (selectionStart ta)) (value ta) ++ prefix
                ++ skipn (lineStart (value ta) (selectionStart ta)) (value ta))
               (lineStart (value ta) (selectionStart ta) + length prefix)
               (lineStart (value ta) (selectionStart ta) + length prefix)
    /\ (lineStart (value ta) (selectionStart ta) = 0%nat
        \/ nth (lineStart (value ta) (selectionStart ta) - 1) (value ta) 0 = nl)
    /\ ((1 <= selectionStart ta)%nat ->
        (lineStart (value ta) (selectionStart ta) <= selectionStart ta)%nat
        /\ ~ In nl (firstn (selectionStart ta - lineStart (value ta) (selectionStart ta))
                           (skipn (lineStart (value ta) (selectionStart ta)) (value ta)))).
Proof.
  intros prefix ta Hs.
  destruct (lineStart_spec (value ta) (selectionStart ta) Hs) as [H1 [H2 H3]].
  split; [now apply formatLine_eq | split; assumption].
Qed.

Lemma formatLine_inserts_at_line_start_witness :
  formatLine (lit "## ") (TextArea (lit "one" ++ [nl] ++ lit "two") 6 6)
  = TextArea (lit "one" ++ [nl] ++ lit "## two") 7 7.
Proof.
  apply (formatLine_inserts_at_line_start (lit "## ")
           (TextArea (lit "one" ++ [nl] ++ lit "two") 6 6)).
  simpl. lia.
Defined.

(** X20.  With the cursor at position 0 of a text that begins with a line
    feed, formatLine does not insert the prefix at the start of the text but
    behind that line feed, on the second line: lastIndexOf takes the
    position -1 for 0 and finds the line feed there. *)
Theorem formatLine_at_leading_line_feed :
  forall (prefix v : str) (e : nat),
    formatLine prefix (TextArea (nl :: v) 0 e)
    = TextArea (nl :: prefix ++ v) (1 + length prefix) (1 + length prefix).
Proof.
  intros prefix v e. rewrite formatLine_eq; cbn [value selectionStart]; [reflexivity|].
  change (lineStart (nl :: v) 0) with 1%nat. simpl. lia.
Qed.

(** *** insertAtCursor, insertCodeBlock *)

Lemma insertAtCursor_eq text ta :
  selection_ok ta ->
  insertAtCursor text ta
  = Some (TextArea (before_selection ta ++ text ++ after_selection ta)
                   (selectionStart ta + length text) (selectionStart ta + length text)).
Proof.
  intros Hok. unfold insertAtCursor. rewrite (setRangeText_selection ta text Hok).
  destruct (selection_parts ta Hok) as [_ [Lb _]].
  rewrite set_cursor_at; [reflexivity|].
  cbn [value]. rewrite !length_app, Lb. lia.
Qed.

(** X21.  insertCodeBlock replaces the selection by an opening fence with
    the language that was entered (none when the prompt is cancelled or left
    empty), two line feeds and a closing fence, and leaves the cursor
    between the two line feeds, on the empty line inside the block. *)
Theorem insertCodeBlock_cursor_inside :
  forall (language : option str) (ta : textarea),
    selection_ok ta ->
    exists ta',
      insertCodeBlock language ta = Some ta'
      /\ selectionStart ta' = selectionEnd ta'
      /\ before_selection ta'
         = before_selection ta ++ lit "```" ++ or_else language [] ++ [nl]
      /\ after_selection ta' = [nl] ++ lit "```" ++ after_selection ta.
Proof.
  intros language ta Hok. unfold insertCodeBlock.
  rewrite (insertAtCursor_eq _ ta Hok). cbn [selectionStart].
  destruct (selection_parts ta Hok) as [_ [Lb _]].
  set (lang := or_else language []).
  assert (Lc : length (codeBlock language) = (length lang + 8)%nat).
  { unfold codeBlock. fold lang. rewrite !length_app. simpl. lia. }
  set (v' := before_selection ta ++ codeBlock language ++ after_selection ta).
  assert (Ev : v' = (before_selection ta ++ lit "```" ++ lang ++ [nl])
                    ++ ([nl] ++ lit "```" ++ after_selection ta)).
  { unfold v', codeBlock. fold lang. rewrite <- !app_assoc. reflexivity. }
  assert (Lp : length (before_selection ta ++ lit "```" ++ lang ++ [nl])
               = (selectionStart ta + length (codeBlock language) - 4)%nat).
  { rewrite !length_app, Lb, Lc. simpl. lia. }
  eexists. split; [reflexivity|].
  rewrite set_cursor_at.
  2:{ cbn [value]. unfold v'. rewrite !length_app, Lb. lia. }
  cbn [value selectionStart selectionEnd].
  unfold before_selection, after_selection. cbn [value selectionStart selectionEnd].
  split; [reflexivity|]. rewrite <- Lp, Ev. split.
  - rewrite firstn_app, Nat.sub_diag, firstn_all. cbn [firstn]. apply app_nil_r.
  - rewrite skipn_app, Nat.sub_diag, skipn_all. reflexivity.
Qed.

Lemma insertCodeBlock_cursor_inside_witness :
  exists ta',
    insertCodeBlock (Some (lit "js")) (TextArea (lit "ab") 1 1) = Some ta'
    /\ selectionStart ta' = selectionEnd ta'
    /\ before_selection ta' = lit "a" ++ lit "```" ++ lit "js" ++ [nl]
    /\ after_selection ta' = [nl] ++ lit "```" ++ lit "b".
Proof.
  apply (insertCodeBlock_cursor_inside (Some (lit "js")) (TextArea (lit "ab") 1 1)).
  unfold selection_ok. simpl. lia.
Defined.

End TextArea.

(* ===================================================================== *)
(** ** The word count *)
(* ===================================================================== *)

Section WordCount.

Lemma word_inv w :
  word w = true -> exists c w', w = c :: w' /\ forallb (fun c => negb (isSpace c)) w = true.
Proof.
  unfold word. rewrite andb_true_iff. intros [H1 H2].
  destruct w as [|c w']; [discriminate|]. now exists c, w'.
Qed.

Lemma gap_inv s :
  gap s = true -> exists c s', s = c :: s' /\ forallb isSpace s = true.
Proof.
  unfold gap. rewrite andb_true_iff. intros [H1 H2].
  destruct s as [|c s']; [discriminate|]. now exists c, s'.
Qed.

(** The split copies a run of characters other than white space into the
    current piece. *)
Lemma split_loop_word : forall w piece p rest fuel,
  forallb (fun c => negb (isSpace c)) w = true ->
  (length (w ++ rest) < fuel)%nat ->
  split_loop false spaces1 fuel piece p (w ++ rest)
  = split_loop false spaces1 (fuel - length w) (rev w ++ piece) (rev w ++ p) rest.
Proof.
  induction w as [|c w IH]; intros piece p rest fuel Hw Hlen.
  - cbn [app length rev]. now rewrite Nat.sub_0_r.
  - cbn [forallb] in Hw. apply andb_true_iff in Hw. destruct Hw as [Hc Hw].
    apply negb_true_iff in Hc.
    destruct fuel as [|fuel]; [simpl in Hlen; lia|].
    cbn [app split_loop].
    rewrite (match_at_may_start false spaces1 p c (w ++ rest))
      by (cbn; now rewrite Hc).
    rewrite IH by (exact Hw || (simpl in Hlen; lia)).
    cbn [length rev]. rewrite <- !app_assoc. reflexivity.
Qed.

Lemma all_space s : forallb isSpace s = true -> all (class_mem false [CSpace]) s.
Proof.
  unfold all. rewrite !forallb_forall. intros H x Hx. specialize (H x Hx).
  unfold class_mem. cbn [existsb citem_mem xorb]. now rewrite H.
Qed.

(** At a gap the split closes the piece and goes on behind the gap. *)
Lemma split_loop_gap c s piece p d rest fuel :
  forallb isSpace (c :: s) = true -> isSpace d = false ->
  split_loop false spaces1 (S fuel) piece p ((c :: s) ++ d :: rest)
  = rev piece :: split_loop false spaces1 fuel [] (rev (c :: s) ++ p) (d :: rest).
Proof.
  intros Hs Hd.
  assert (F : first false spaces1 (MState p (c :: s ++ d :: rest) [])
                    (MState (rev (c :: s) ++ p) (d :: rest) [])).
  { apply first_plus_run; [now apply all_space | now apply stops_space_plain]. }
  cbn [app split_loop]. rewrite (first_match_at _ _ _ _ _ F).
  rewrite (span_app p (c :: s) (d :: rest) []) by reflexivity.
  reflexivity.
Qed.

Lemma split_loop_sentence : forall more w piece p fuel,
  forallb (fun c => negb (isSpace c)) w = true ->
  Forall (fun sw => gap (fst sw) = true /\ word (snd sw) = true) more ->
  (length (sentence w more) < fuel)%nat ->
  split_loop false spaces1 fuel piece p (sentence w more)
  = (rev piece ++ w) :: map snd more.
Proof.
  induction more as [|[sep w'] more IH]; intros w piece p fuel Hw Hmore Hlen.
  - unfold sentence in *. cbn [flat_map] in *. rewrite split_loop_word by assumption.
    rewrite app_nil_r in Hlen.
    destruct (fuel - length w)%nat as [|f] eqn:E; [lia|].
    cbn [split_loop map]. now rewrite rev_app_distr, rev_involutive.
  - inversion Hmore as [|x xs [Hg Hw'] Hrest]; subst. cbn [fst snd] in Hg, Hw'.
    destruct (gap_inv sep Hg) as [c [s [-> Hs]]].
    destruct (word_inv w' Hw') as [d [w'' [-> Hd]]].
    assert (Hd0 : isSpace d = false).
    { cbn [forallb] in Hd. apply andb_true_iff in Hd. now apply negb_true_iff. }
    unfold sentence in *. cbn [flat_map fst snd] in *.
    rewrite !length_app in Hlen. cbn [length] in Hlen. rewrite ?length_app in Hlen.
    rewrite split_loop_word by (assumption || (rewrite !length_app; cbn [length];
                                               rewrite ?length_app; lia)).
    destruct (fuel - length w)%nat as [|f] eqn:E; [lia|].
    rewrite <- app_assoc. cbn [app].
    pose proof (split_loop_gap c s (rev w ++ piece) (rev w ++ p) d
                  (w'' ++ flat_map (fun sw => fst sw ++ snd sw) more) f Hs Hd0) as G.
    cbn [app] in G. rewrite G. cbn [map snd].
    rewrite rev_app_distr, rev_involutive. f_equal.
    change (d :: w'' ++ flat_map (fun sw => fst sw ++ snd sw) more)
      with ((d :: w'') ++ flat_map (fun sw => fst sw ++ snd sw) more).
    rewrite (IH (d :: w'') [] _ f Hd Hrest); [reflexivity|].
    rewrite length_app. cbn [length]. lia.
Qed.

Lemma trim_start_spaces : forall ahead s,
  forallb isSpace ahead = true -> trim_start (ahead ++ s) = trim_start s.
Proof.
  induction ahead as [|c ahead IH]; intros s H; [reflexivity|].
  cbn [forallb] in H. apply andb_true_iff in H. destruct H as [Hc H].
  cbn [app trim_start]. rewrite Hc. now apply IH.
Qed.

Lemma trim_between ahead s behind :
  forallb isSpace ahead = true -> forallb isSpace behind = true ->
  isSpace (hd 0 s) = false -> isSpace (last s 0) = false ->
  trim (ahead ++ s ++ behind) = s.
Proof.
  intros Hl Ht H1 H2. unfold trim. rewrite trim_start_spaces by exact Hl.
  destruct s as [|c s].
  - cbn [app]. unfold trim_end.
    assert (E : forall t, forallb isSpace t = true -> trim_start t = []).
    { induction t as [|x t IHt]; intros Hx; [reflexivity|].
      cbn [forallb] in Hx. apply andb_true_iff in Hx. destruct Hx as [Hx Hx'].
      cbn [trim_start]. rewrite Hx. now apply IHt. }
    rewrite (E behind Ht). cbn [rev]. rewrite E; [reflexivity|].
    rewrite forallb_forall in Ht |- *. intros x Hx. apply Ht. now apply in_rev.
  - cbn [hd] in H1. cbn [app]. rewrite trim_start_id by exact H1.
    unfold trim_end. change (c :: s ++ behind) with ((c :: s) ++ behind).
    rewrite rev_app_distr, trim_start_spaces.
    + rewrite trim_start_fixed by now rewrite hd_rev. apply rev_involutive.
    + rewrite forallb_forall in Ht |- *. intros x Hx. apply Ht. now apply in_rev.
Qed.

Lemma last_app_ne (a b : list N) d : b <> [] -> last (a ++ b) d = last b d.
Proof.
  intros Hb. induction a as [|x a IH]; [reflexivity|].
  cbn [app]. destruct (a ++ b) as [|y l] eqn:E.
  - destruct a; [cbn in E; contradiction | discriminate].
  - cbn [last]. exact IH.
Qed.

Lemma sentence_ends w more :
  word w = true ->
  Forall (fun sw => gap (fst sw) = true /\ word (snd sw) = true) more ->
  sentence w more <> []
  /\ isSpace (hd 0 (sentence w more)) = false
  /\ isSpace (last (sentence w more) 0) = false.
Proof.
  intros Hw Hmore. destruct (word_inv w Hw) as [c [w' [-> Hc]]].
  split; [discriminate|]. split.
  - cbn [forallb] in Hc. apply andb_true_iff in Hc. now apply negb_true_iff.
  - assert (L : forall u, word u = true -> isSpace (last u 0) = false).
    { intros u Hu. destruct (word_inv u Hu) as [x [u' [-> Hx]]].
      rewrite forallb_forall in Hx. apply negb_true_iff, Hx.
      destruct (exists_last (l := x :: u')) as [y [z ->]]; [discriminate|].
      rewrite last_last. apply in_or_app. right. now left. }
    revert c w' Hw Hc. induction Hmore as [|[sep u] more [Hg Hu] _ IH]; intros c w' Hw Hc.
    + unfold sentence. cbn [flat_map]. rewrite app_nil_r. now apply L.
    + cbn [fst snd] in Hg, Hu. destruct (word_inv u Hu) as [x [u' [-> Hx]]].
      unfold sentence in *. cbn [flat_map fst snd].
      specialize (IH x u' Hu Hx).
      replace ((c :: w') ++ (sep ++ x :: u') ++ flat_map (fun sw => fst sw ++ snd sw) more)
        with (((c :: w') ++ sep) ++ ((x :: u') ++ flat_map (fun sw => fst sw ++ snd sw) more))
        by (rewrite <- !app_assoc; reflexivity).
      rewrite last_app_ne by discriminate. exact IH.
Qed.

(** X22.  For a text made of words separated by runs of white space, with
    any white space in front and behind, the words that updateWordCount
    counts are exactly those words in order, and the counter shows their
    number. *)
Theorem words_of_sentence :
  forall (ahead behind w : str) (more : list (str * str)),
    forallb isSpace ahead = true -> forallb isSpace behind = true ->
    word w = true ->
    Forall (fun sw => gap (fst sw) = true /\ word (snd sw) = true) more ->
    Editor.words (ahead ++ sentence w more ++ behind) = w :: map snd more
    /\ Editor.wordCount (ahead ++ sentence w more ++ behind)
       = decimal (S (length more)) ++ lit " words".
Proof.
  intros ahead behind w more Hl Ht Hw Hmore.
  assert (E : Editor.words (ahead ++ sentence w more ++ behind) = w :: map snd more).
  { destruct (sentence_ends w more Hw Hmore) as [Hne [H1 H2]].
    unfold Editor.words. rewrite trim_between by assumption.
    unfold split_re. destruct (sentence w more) as [|c s] eqn:Es; [contradiction|].
    rewrite <- Es.
    destruct (word_inv w Hw) as [x [w' [Ew Hx]]].
    rewrite (split_loop_sentence more w [] [] _ Hx Hmore) by lia.
    cbn [rev app filter]. replace (nonempty w) with true by (rewrite Ew; reflexivity).
    f_equal. clear -Hmore. induction Hmore as [|[sep u] more [_ Hu] _ IH]; [reflexivity|].
    cbn [map snd filter]. cbn [snd] in Hu.
    replace (nonempty u) with true; [now rewrite IH|].
    unfold word in Hu. apply andb_true_iff in Hu. symmetry. apply Hu. }
  split; [exact E|]. unfold Editor.wordCount. rewrite E. cbn [length].
  now rewrite length_map.
Qed.

Lemma words_of_sentence_witness :
  Editor.words (lit "  " ++ sentence (lit "hello") [(lit "  ", lit "big"); ([nl], lit "world")]
                ++ lit " ")
  = [lit "hello"; lit "big"; lit "world"]
  /\ Editor.wordCount (lit "  " ++ sentence (lit "hello")
                                   [(lit "  ", lit "big"); ([nl], lit "world")] ++ lit " ")
     = lit "3 words".
Proof.
  apply (words_of_sentence (lit "  ") (lit " ") (lit "hello")
           [(lit "  ", lit "big"); ([nl], lit "world")]).
  - reflexivity.
  - reflexivity.
  - reflexivity.
  - repeat constructor.
Defined.

Lemma trim_blank : forall s, forallb isSpace s = true -> trim s = [].
Proof.
  intros s H. rewrite <- (app_nil_r s).
  change (s ++ []) with (s ++ [] ++ []). now apply trim_between.
Qed.

(** X23.  A text of white space only, the empty text included, has no words:
    the counter shows 0 words, although split returns one empty string for
    it. *)
Theorem words_of_blank_text :
  forall text : str,
    forallb isSpace text = true ->
    Editor.words text = [] /\ Editor.wordCount text = lit "0 words".
Proof.
  intros text H. unfold Editor.wordCount, Editor.words. now rewrite trim_blank.
Qed.

Lemma words_of_blank_text_witness :
  Editor.words (lit "  " ++ [nl] ++ lit " ") = []
  /\ Editor.wordCount (lit "  " ++ [nl] ++ lit " ") = lit "0 words".
Proof. apply (words_of_blank_text (lit "  " ++ [nl] ++ lit " ")). reflexivity. Defined.

(** *** The word count of app.js *)

Lemma split_loop_absent ml w r :
  requires w r = true ->
  forall fuel piece p s, ~ occurs w s -> split_loop ml r fuel piece p s = [rev piece ++ s].
Proof.
  intros R. induction fuel as [|fuel IH]; intros piece p s H; [reflexivity|].
  destruct s as [|c s]; cbn [split_loop]; [now rewrite app_nil_r|].
  rewrite (match_at_absent ml w r p (c :: s) R H).
  rewrite IH.
  - cbn [rev]. now rewrite <- app_assoc.
  - intros O. apply H. now apply (occurs_app_l w [c] s).
Qed.

Lemma trim_sub s x : In x (trim s) -> In x s.
Proof.
  intros H. unfold trim in H.
  destruct (trim_end_prefix (trim_start s)) as [y Ey].
  destruct (trim_start_suffix s) as [z Ez].
  rewrite Ez, Ey. apply in_or_app. right. apply in_or_app. now left.
Qed.

(** X24.  In app.js the pattern of the split is a backslash followed by the
    letter s, not white space.  A text without a backslash is therefore
    never split: the whole trimmed text is the only word, and the counter
    never shows more than 1. *)
Theorem app_words_without_backslash :
  forall text : str,
    ~ In 92 text ->
    App.words text = filter nonempty [trim text]
    /\ (length (App.words text) <= 1)%nat.
Proof.
  intros text H.
  assert (E : App.words text = filter nonempty [trim text]).
  { unfold App.words, split_re. destruct (trim text) as [|c s] eqn:Et; [reflexivity|].
    rewrite (split_loop_absent false [92] App.re_backslash_s eq_refl); [reflexivity|].
    rewrite occurs_single, <- Et. intros Hin. apply H. now apply trim_sub. }
  split; [exact E|]. rewrite E. cbn [filter]. destruct (nonempty (trim text)); simpl; lia.
Qed.

Lemma app_words_without_backslash_witness :
  App.words (lit "hello big world") = filter nonempty [trim (lit "hello big world")]
  /\ (length (App.words (lit "hello big world")) <= 1)%nat.
Proof.
  apply (app_words_without_backslash (lit "hello big world")).
  intros H. vm_compute in H. intuition discriminate.
Defined.

End WordCount.

(* ===================================================================== *)
(** ** File names *)
(* ===================================================================== *)

Section Filename.

(** A replacement of the characters of a class by a text that does not
    depend on the match goes character by character. *)
Lemma replace_class_scan neg items t : forall s p,
  replace_pure false (Cls neg items) (fun _ st => expand [TLit t] st) p s
  = flat_map (fun c => if class_mem neg items c then t else [c]) s.
Proof.
  induction s as [|c s IH]; intros p.
  - now apply replace_pure_nil.
  - cbn [flat_map]. destruct (class_mem neg items c) eqn:E.
    + rewrite (replace_pure_match false (Cls neg items) _ p (c :: s) (MState (c :: p) s [])).
      * cbn [pre suf]. rewrite IH. cbn [expand flat_map]. now rewrite app_nil_r.
      * now apply first_cls.
      * cbn [suf length]. lia.
    + rewrite replace_pure_skip; [now rewrite IH|].
      unfold match_at. cbn [m eat suf]. now rewrite E.
Qed.

Lemma dashes_part n s :
  stamp_part n s = true ->
  flat_map (fun c => if class_mem false [CChar 58; CChar 46] c then lit "-" else [c]) s = s
  /\ length s = n.
Proof.
  unfold stamp_part. rewrite andb_true_iff, Nat.eqb_eq. intros [L H]. split; [|exact L].
  clear L. induction s as [|c s IH]; [reflexivity|].
  cbn [forallb] in H. apply andb_true_iff in H. destruct H as [Hc H].
  cbn [flat_map]. rewrite (IH H).
  unfold class_mem. cbn [existsb citem_mem xorb]. rewrite orb_false_r.
  apply negb_true_iff in Hc. now rewrite Hc.
Qed.

(** X25.  For a time in the format of toISOString with a date of ten
    characters, the file name is markdown-document-, the date, the letter T
    and the hours, minutes and seconds separated by hyphens, followed by the
    extension: the colons are replaced, and the milliseconds and the zone
    are cut off. *)
Theorem generateFilename_of_iso_string :
  forall date hh mm ss rest extension : str,
    stamp_part 10 date = true -> stamp_part 2 hh = true ->
    stamp_part 2 mm = true -> stamp_part 2 ss = true ->
    Editor.generateFilename (iso_string date hh mm ss rest) extension
    = lit "markdown-document-" ++ date ++ lit "T" ++ hh ++ lit "-" ++ mm ++ lit "-" ++ ss
      ++ extension.
Proof.
  intros date hh mm ss rest extension Hd Hh Hm Hs.
  destruct (dashes_part _ _ Hd) as [Ed Ld]. destruct (dashes_part _ _ Hh) as [Eh Lh].
  destruct (dashes_part _ _ Hm) as [Em Lm]. destruct (dashes_part _ _ Hs) as [Es Ls].
  unfold Editor.generateFilename, Editor.timestamp, replace_tpl. rewrite replace_fn_pure.
  unfold Editor.re_colon_dot. change (c_ ":") with 58. change (c_ ".") with 46.
  rewrite replace_class_scan. unfold iso_string.
  rewrite !flat_map_app, Ed, Eh, Em, Es.
  change (flat_map _ (lit "T")) with (lit "T").
  change (flat_map _ (lit ":")) with (lit "-").
  change (flat_map (fun c => if class_mem false [CChar 58; CChar 46] c then lit "-" else [c])
                   (lit ".")) with (lit "-").
  replace (date ++ lit "T" ++ hh ++ lit "-" ++ mm ++ lit "-" ++ ss ++ lit "-"
           ++ flat_map (fun c => if class_mem false [CChar 58; CChar 46] c then lit "-" else [c])
                       rest)
    with ((date ++ lit "T" ++ hh ++ lit "-" ++ mm ++ lit "-" ++ ss)
          ++ (lit "-" ++ flat_map (fun c => if class_mem false [CChar 58; CChar 46] c
                                            then lit "-" else [c]) rest))
    by (rewrite <- !app_assoc; reflexivity).
  assert (L : length (date ++ lit "T" ++ hh ++ lit "-" ++ mm ++ lit "-" ++ ss) = 19%nat).
  { rewrite !length_app, Ld, Lh, Lm, Ls. reflexivity. }
  rewrite firstn_app, L, Nat.sub_diag, firstn_O, app_nil_r.
  rewrite <- L, firstn_all. now rewrite <- !app_assoc.
Qed.

Lemma generateFilename_of_iso_string_witness :
  Editor.generateFilename
    (iso_string (lit "2024-03-09") (lit "07") (lit "45") (lit "12") (lit "345Z")) (lit ".md")
  = lit "markdown-document-" ++ lit "2024-03-09" ++ lit "T" ++ lit "07" ++ lit "-"
    ++ lit "45" ++ lit "-" ++ lit "12" ++ lit ".md".
Proof.
  apply (generateFilename_of_iso_string (lit "2024-03-09") (lit "07") (lit "45") (lit "12")
           (lit "345Z") (lit ".md")); reflexivity.
Defined.

End Filename.

(* ===================================================================== *)
(** ** Keyboard shortcuts *)
(* ===================================================================== *)

Section Shortcuts.
Import Editor.

(** X26.  Although handleKeyboardShortcuts tests its sixteen conditions one
    after the other without leaving early, no key event satisfies two of
    them: every event calls at most one method of the editor. *)
Theorem shortcut_calls_at_most_one_method :
  forall (fullscreen : bool) (e : KeyboardEvent),
    (length (handleKeyboardShortcuts fullscreen e) <= 1)%nat.
Proof.
  intros fs [ctrl meta shift k]. unfold handleKeyboardShortcuts, key_is.
  cbn [ctrlKey metaKey shiftKey key].
  repeat match goal with
         | |- context [str_eqb k (lit ?w)] =>
             let E := fresh "E" in
             destruct (str_eqb k (lit w)) eqn:E;
             [ apply str_eqb_eq in E; subst k;
               destruct ctrl, meta, shift, fs; vm_compute; lia | ]
         end.
  destruct (str_leb (lit "1") k), (str_leb k (lit "6")); destruct ctrl, meta, shift, fs;
    cbn [when orb andb app length]; lia.
Qed.

End Shortcuts.

(* ===================================================================== *)
(** ** The formatting commands and the preview *)
(* ===================================================================== *)

Section Preview.
Import Editor.

Lemma plain_item_one_line it : plain_item it = true -> ~ In nl it.
Proof.
  intros H Hin. destruct (plain_item_inv it H) as [c [run [_ [_ Hp]]]].
  apply plain_dot in Hp. unfold all in Hp. rewrite forallb_forall in Hp.
  apply Hp in Hin. discriminate Hin.
Qed.

Lemma text_line_one_line l : text_line l = true -> ~ In nl l.
Proof.
  unfold text_line. rewrite !andb_true_iff. intros [[H _] _].
  now apply plain_item_one_line.
Qed.

Lemma lineStart_one_line v start : ~ In nl v -> lineStart v start = 0%nat.
Proof.
  intros Hnl. unfold lineStart, lastIndexOf. destruct v as [|c v]; [reflexivity|].
  pose proof (find_back_spec (c :: v) nl
                (Nat.min (start - 1) (length (c :: v) - 1))) as F.
  destruct (find_back (c :: v) nl (Nat.min (start - 1) (length (c :: v) - 1)))
    as [i|]; [|reflexivity].
  destruct F as [Hi [E _]]. exfalso. apply Hnl. rewrite <- E. apply nth_In.
  cbn [length] in *. lia.
Qed.

Lemma formatLine_one_line prefix it start e :
  ~ In nl it -> value (formatLine prefix (TextArea it start e)) = prefix ++ it.
Proof.
  intros Hnl. rewrite formatLine_eq; cbn [value selectionStart];
    rewrite (lineStart_one_line it start Hnl); [reflexivity | lia].
Qed.

(** X27.  When the text area holds one line with a plain item, formatLine
    with one of the six prefixes of the toolbar, wherever the cursor stands,
    changes the preview to the item in the element of the prefix: h1, h2 or
    h3, a list ul or ol with one li, or blockquote. *)
Theorem formatLine_prefix_previewed :
  forall (prefix open close : string) (it : str) (start end_ : nat),
    In (prefix, open, close) line_prefixes ->
    plain_item it = true ->
    updatePreview (formatLine (lit prefix) (TextArea it start end_))
    = lit open ++ it ++ lit close.
Proof.
  intros prefix open close it start end_ Hin Hit. unfold updatePreview.
  rewrite (formatLine_one_line _ it start end_ (plain_item_one_line it Hit)).
  assert (Hne : [it] <> []) by discriminate.
  assert (Hall : Forall (fun it => plain_item it = true) [it])
    by (constructor; [exact Hit | constructor]).
  cbn [line_prefixes In] in Hin.
  destruct Hin as [E|[E|[E|[E|[E|[E|[]]]]]]]; injection E as <- <- <-.
  - exact (heading_lines_parsed 1 [it] ltac:(lia) Hne Hall).
  - exact (heading_lines_parsed 2 [it] ltac:(lia) Hne Hall).
  - exact (heading_lines_parsed 3 [it] ltac:(lia) Hne Hall).
  - pose proof (parse_bullet_lines [it] Hne Hall) as P.
    cbn [map join flat_map] in P. rewrite app_nil_r in P.
    unfold bullet_line, li_item in P.
    refine (eq_trans P _). rewrite <- !app_assoc. reflexivity.
  - assert (Hnum : Forall (fun e => numbered e = true) [(lit "1", it)]).
    { constructor; [|constructor]. unfold numbered. cbn [fst snd]. now rewrite Hit. }
    pose proof (numbered_lines_parsed [(lit "1", it)] ltac:(discriminate) Hnum) as P.
    cbn [map join flat_map snd] in P. rewrite app_nil_r in P.
    unfold numbered_line, li_item in P. cbn [fst snd] in P.
    refine (eq_trans P _). rewrite <- !app_assoc. reflexivity.
  - exact (blockquote_lines_parsed [it] Hne Hall).
Qed.

Lemma formatLine_prefix_previewed_witness :
  updatePreview (formatLine (lit "## ") (TextArea (lit "Title") 3 3))
  = lit "<h2>" ++ lit "Title" ++ lit "</h2>".
Proof.
  apply (formatLine_prefix_previewed "## " "<h2>" "</h2>" (lit "Title") 3 3).
  - simpl. tauto.
  - reflexivity.
Defined.

(** X28.  A key event with Ctrl or Meta and a digit key from 1 to 6 calls
    formatLine, and nothing else, with as many number signs as the digit
    says followed by a blank; on a text area that holds one line with a
    plain item the preview then shows the item as a heading of that level. *)
Theorem digit_shortcut_makes_heading :
  forall (fullscreen : bool) (e : KeyboardEvent) (d : char) (it : str)
         (start end_ : nat),
    (ctrlKey e || metaKey e) = true ->
    In d (lit "123456") ->
    key e = [d] ->
    plain_item it = true ->
    handleKeyboardShortcuts fullscreen e
    = [FormatLine (repeat (c_ "#") (digit_value d) ++ lit " ")]
    /\ updatePreview (formatLine (repeat (c_ "#") (digit_value d) ++ lit " ")
                                 (TextArea it start end_))
       = element (lit "h" ++ [d]) it.
Proof.
  intros fs [ctrl meta shift k] d it start end_ Hmod Hd Hk Hit.
  cbn [ctrlKey metaKey key] in Hmod, Hk. subst k.
  assert (Hne : [it] <> []) by discriminate.
  assert (Hall : Forall (fun it => plain_item it = true) [it])
    by (constructor; [exact Hit | constructor]).
  unfold updatePreview.
  rewrite (formatLine_one_line _ it start end_ (plain_item_one_line it Hit)).
  cbn [In] in Hd.
  destruct Hd as [<-|[<-|[<-|[<-|[<-|[<-|[]]]]]]]; (split;
    [ unfold handleKeyboardShortcuts; cbn [ctrlKey metaKey shiftKey key];
      rewrite Hmod; destruct shift, fs; reflexivity | ]).
  - exact (heading_lines_parsed 1 [it] ltac:(lia) Hne Hall).
  - exact (heading_lines_parsed 2 [it] ltac:(lia) Hne Hall).
  - exact (heading_lines_parsed 3 [it] ltac:(lia) Hne Hall).
  - exact (heading_lines_parsed 4 [it] ltac:(lia) Hne Hall).
  - exact (heading_lines_parsed 5 [it] ltac:(lia) Hne Hall).
  - exact (heading_lines_parsed 6 [it] ltac:(lia) Hne Hall).
Qed.

Lemma digit_shortcut_makes_heading_witness :
  handleKeyboardShortcuts false (MkKeyboardEvent true false false (lit "4"))
  = [FormatLine (lit "#### ")]
  /\ updatePreview (formatLine (lit "#### ") (TextArea (lit "Title") 0 0))
     = lit "<h4>Title</h4>".
Proof.
  apply (digit_shortcut_makes_heading false
           (MkKeyboardEvent true false false (lit "4")) (c_ "4") (lit "Title") 0 0).
  - reflexivity.
  - simpl. tauto.
  - reflexivity.
  - reflexivity.
Defined.

(** X29.  When the text area holds one line made of a line of text (a
    nonempty plain text that begins with no white space, number sign,
    hyphen, plus sign, greater-than sign or digit), a nonempty plain text
    that is selected, and a plain text behind it, formatSelection with the
    delimiter of the bold, italic or strikethrough button succeeds, selects
    the text with its delimiters, and changes the preview to one paragraph
    in which the selected text stands between the tags strong, em or del.
    A selection at the start of the line is not covered. *)
Theorem formatSelection_emphasis_previewed :
  forall (delim open close : string) (front c back : str),
    In (delim, open, close) selection_delimiters ->
    text_line front = true ->
    c <> [] -> plain_text c = true -> plain_text back = true ->
    exists ta',
      formatSelection (lit delim) (lit delim)
        (TextArea (front ++ c ++ back) (length front) (length front + length c))
      = Some ta'
      /\ selected ta' = lit delim ++ c ++ lit delim
      /\ updatePreview ta'
         = element (lit "p") (front ++ lit open ++ c ++ lit close ++ back).
Proof.
  intros delim open close front c back Hin Hf Hc Hpc Hpb.
  set (ta := TextArea (front ++ c ++ back) (length front) (length front + length c)).
  assert (Hok : selection_ok ta).
  { unfold selection_ok, ta. cbn [value selectionStart selectionEnd].
    rewrite !length_app. lia. }
  assert (Es : selected ta = c).
  { unfold selected, ta. cbn [value selectionStart selectionEnd].
    apply substring_middle. }
  assert (Eb : before_selection ta = front).
  { unfold before_selection, ta. cbn [value selectionStart].
    rewrite firstn_app, Nat.sub_diag, firstn_all. cbn [firstn]. apply app_nil_r. }
  assert (Ea : after_selection ta = back).
  { unfold after_selection, ta. cbn [value selectionEnd].
    rewrite app_assoc, skipn_app, length_app.
    replace (length front + length c - (length front + length c))%nat with 0%nat by lia.
    rewrite <- length_app, skipn_all. reflexivity. }
  destruct (formatSelection_result (lit delim) (lit delim) ta Hok) as [ta' [E [V [_ R]]]].
  exists ta'. split; [exact E|]. rewrite Es in R, V. rewrite Eb, Ea in V.
  assert (Hemph : In (delim, open, close) emphasis).
  { cbn [selection_delimiters In] in Hin. cbn [emphasis In].
    destruct Hin as [<-|[<-|[<-|[]]]]; tauto. }
  split.
  - destruct c as [|x c]; [contradiction | exact (proj2 R)].
  - unfold updatePreview. rewrite V.
    exact (emphasis_in_line_parsed delim open close front c back Hemph Hf Hc Hpc Hpb).
Qed.

Lemma formatSelection_emphasis_previewed_witness :
  exists ta',
    formatSelection (lit "**") (lit "**") (TextArea (lit "some bold text") 5 9) = Some ta'
    /\ selected ta' = lit "**bold**"
    /\ updatePreview ta' = lit "<p>some <strong>bold</strong> text</p>".
Proof.
  apply (formatSelection_emphasis_previewed "**" "<strong>" "</strong>"
           (lit "some ") (lit "bold") (lit " text")).
  - simpl. tauto.
  - reflexivity.
  - discriminate.
  - reflexivity.
  - reflexivity.
Defined.

End Preview.
